(** * kylelayer: JSON-RPC 2.0 engine and newline-framed socket transport

    A shallow embedding of
    - [packages/rpc/src/event-emitter.ts]   (IsoEventEmitter),
    - [packages/rpc/src/errors.ts]          (JsonRpcErrorCodes, JsonRpcError),
    - [packages/rpc/src/json-rpc.ts]        (the four wire schemas),
    - [packages/rpc/src/types.ts]           (the type guards),
    - [packages/rpc/src/server.ts]          (JsonRpcServer),
    - [packages/rpc/src/client.ts]          (JsonRpcClient),
    - [packages/unix-socket-proxy/src/target-client.ts] (TargetClient),
    followed by the properties of the specification that concern them. *)

From Stdlib Require Import QArith Qcanon.
From stdpp Require Import base option list strings numbers gmap.

Local Open Scope Z_scope.
Set Warnings "-clear-no-such-hyp".

(** ** JavaScript values *)

Module Js.

(** A JavaScript number.  Finite numbers are kept exact as canonical
    rationals, so that equality of numbers is Leibniz equality (this is the
    [SameValueZero] comparison of [Map] keys, and [===] on finite numbers). *)
Definition number : Type := Qc.

Definition num (z : Z) : number := Q2Qc (inject_Z z).

#[warnings="-register-all"] Inductive value : Type :=
| Undefined
| Null
| Bool (b : bool)
| Num (n : number)
| Str (s : string)
| Arr (items : list value)
| Obj (fields : list (string * value)).

(** [ToBoolean]: [undefined], [null], [false], [0] and [''] are falsy
    ([NaN], the other falsy value, is no value of this model). *)
Definition truthy (v : value) : bool :=
  match v with
  | Undefined | Null => false
  | Bool b => b
  | Num n => bool_decide (n ≠ num 0)
  | Str s => bool_decide (s ≠ "")
  | Arr _ | Obj _ => true
  end.

(** Own properties of an object literal, first binding of a key wins. *)
Fixpoint assoc (fields : list (string * value)) (k : string) : option value :=
  match fields with
  | [] => None
  | (k', v) :: rest => if decide (k' = k) then Some v else assoc rest k
  end.

(** [v[k]] for a [v] that is not [undefined] or [null]: a missing property
    reads as [undefined]; the keys used here are never array indices nor
    inherited properties. *)
Definition get (v : value) (k : string) : value :=
  match v with
  | Obj fields => default Undefined (assoc fields k)
  | _ => Undefined
  end.

(** [k in v]: a [TypeError] ([None]) unless [v] is an object or an array. *)
Definition has_property (k : string) (v : value) : option bool :=
  match v with
  | Obj fields => Some (bool_decide (is_Some (assoc fields k)))
  | Arr _ => Some false
  | _ => None
  end.

(** [v?.[k]] *)
Definition get_opt (v : value) (k : string) : value :=
  match v with
  | Undefined | Null => Undefined
  | _ => get v k
  end.

(** [a ?? b] *)
Definition nullish_or (a b : value) : value :=
  match a with
  | Undefined | Null => b
  | _ => a
  end.

End Js.


(** ** The event channel ([IsoEventEmitter]) *)

Module IsoEventEmitter.
Section Emitter.

(** Callbacks are compared by identity ([===]) in [unsubscribe]. *)
Context {Callback : Type} `{EqDecision Callback}.

(** [callbacks: Record<keyof T_EVENTS, Array<callback>>]: the own properties
    of the object, keyed by event name.  At the names of the members of
    [Object.prototype] (see [ObjectPrototype] below) the object of the code
    finds the inherited member where this map finds nothing. *)
Record t : Type := { callbacks : gmap string (list Callback) }.

(** [constructor()] *)
Definition create : t := {| callbacks := ∅ |}.

(** [emit(event, ...args)]: the callbacks that are invoked, in order. *)
Definition emit (event : string) (e : t) : list Callback :=
  match callbacks e !! event with
  | None => []
  | Some cbs => cbs
  end.

(** [subscribe(event, callback)] *)
Definition subscribe (event : string) (callback : Callback) (e : t) : t :=
  let cbs := default [] (callbacks e !! event) in
  {| callbacks := <[event := cbs ++ [callback]]> (callbacks e) |}.

(** [unsubscribe(event, callback)]: the backwards loop splices out every
    position that holds [callback]. *)
Definition unsubscribe (event : string) (callback : Callback) (e : t) : t :=
  let cbs := default [] (callbacks e !! event) in
  {| callbacks :=
       <[event := filter (λ cb, cb ≠ callback) cbs]> (callbacks e) |}.

(** [unsubscribeAll(event)]: the returned count and the new emitter. *)
Definition unsubscribeAll (event : string) (e : t) : nat * t :=
  match callbacks e !! event with
  | Some cbs => (length cbs, {| callbacks := <[event := []]> (callbacks e) |})
  | None => (0%nat, e)
  end.

(** [listenerCount(event)] *)
Definition listenerCount (event : string) (e : t) : nat :=
  match callbacks e !! event with
  | Some cbs => length cbs
  | None => 0%nat
  end.

End Emitter.
Arguments t : clear implicits.
End IsoEventEmitter.

(** ** Error codes and error classes ([errors.ts]) *)

Module Errors.

Record codes : Type := {
  PARSE_ERROR : Z;
  INVALID_REQUEST : Z;
  METHOD_NOT_FOUND : Z;
  INVALID_PARAMETERS : Z;
  INTERNAL_SERVER_ERROR : Z;
  RESOURCE_NOT_FOUND : Z
}.

(** [export const JsonRpcErrorCodes = { ... } as const] *)
Definition JsonRpcErrorCodes : codes := {|
  PARSE_ERROR := -32700;
  INVALID_REQUEST := -32600;
  METHOD_NOT_FOUND := -32601;
  INVALID_PARAMETERS := -32606;
  INTERNAL_SERVER_ERROR := -32603;
  RESOURCE_NOT_FOUND := -32004
|}.

(** [Object.values(JsonRpcErrorCodes)] *)
Definition standardErrorCodes : list Z :=
  [PARSE_ERROR JsonRpcErrorCodes; INVALID_REQUEST JsonRpcErrorCodes;
   METHOD_NOT_FOUND JsonRpcErrorCodes; INVALID_PARAMETERS JsonRpcErrorCodes;
   INTERNAL_SERVER_ERROR JsonRpcErrorCodes; RESOURCE_NOT_FOUND JsonRpcErrorCodes].

(** The copy of the table that sits next to the second copy of the
    dispatcher; it differs from the one above in [INVALID_REQUEST]. *)
Definition JsonRpcErrorCodes_sibling : codes := {|
  PARSE_ERROR := -32700;
  INVALID_REQUEST := -3600;
  METHOD_NOT_FOUND := -32601;
  INVALID_PARAMETERS := -32606;
  INTERNAL_SERVER_ERROR := -32603;
  RESOURCE_NOT_FOUND := -32004
|}.

(** [class JsonRpcError extends Error]; [custom] tells the instances of
    [CustomServerError] apart.  [message] is the string given to
    [super(...)], which is what the dispatcher tests of the repository
    expect to read; an instance keeps it unless the class fields are
    compiled as own definitions, so the general statements below on unknown
    methods, invalid parameters and notifications give the [id] and the
    [code] of the reply and leave its message open. *)
Record JsonRpcError : Type := {
  requestId : Js.value;
  code : Js.number;
  message : string;
  data : Js.value;
  custom : bool
}.

(** [new MethodNotFoundError({ requestId, method })] *)
Definition MethodNotFoundError (c : codes) (rid : Js.value) (method : string)
  : JsonRpcError :=
  {| requestId := rid;
     code := Js.num (METHOD_NOT_FOUND c);
     message := "unable to find method " +:+ method;
     data := Js.Undefined;
     custom := false |}.

(** [new InvalidParametersError({ requestId, zodError })], with
    [zodMessage] the [message] of the [ZodError]. *)
Definition InvalidParametersError (c : codes) (rid : Js.value)
    (zodMessage : string) : JsonRpcError :=
  {| requestId := rid;
     code := Js.num (INVALID_PARAMETERS c);
     message := "invalid parameters: " +:+ zodMessage;
     data := Js.Undefined;
     custom := false |}.

End Errors.

(** ** The schema combinators used by [json-rpc.ts]

    [safeParse] of a schema is a partial function from values to typed data:
    [Some data] when the input is accepted, [None] when issues are reported. *)

Module Zod.

Definition schema (A : Type) : Type := Js.value → option A.

(** [z.literal(s)] *)
Definition literal (s : string) : schema string := λ v,
  match v with
  | Js.Str s' => if decide (s' = s) then Some s' else None
  | _ => None
  end.

(** [z.string()] *)
Definition string : schema String.string := λ v,
  match v with Js.Str s => Some s | _ => None end.

(** [z.number()] *)
Definition number : schema Js.number := λ v,
  match v with Js.Num n => Some n | _ => None end.

(** [z.null()] *)
Definition null : schema unit := λ v,
  match v with Js.Null => Some () | _ => None end.

(** [z.any()]: every value.  On [undefined] (the value of a missing key of
    an object schema) the releases of zod differ; this is the reading of the
    releases that accept it, and the statements below that concern
    responses with both members are restricted to values that carry their
    [result]. *)
Definition any : schema Js.value := λ v, Some v.

(** [s.optional()]: [undefined] (also a missing key) is accepted as it is. *)
Definition optional (s : schema Js.value) : schema Js.value := λ v,
  match v with Js.Undefined => Some Js.Undefined | _ => s v end.

(** [z.union([a, b])] and [a.or(b)]: the first member that accepts wins. *)
Definition union {A B : Type} (a : schema A) (b : schema B) : schema (A + B) :=
  λ v, match a v with
       | Some x => Some (inl x)
       | None => inr <$> b v
       end.

(** [z.object({ ... })]: the input has to be a plain object; [shape] reads the
    listed keys (a missing key reads as [undefined]) and builds the output,
    which has the listed keys only. *)
Definition object {A : Type} (shape : (String.string → Js.value) → option A)
  : schema A := λ v,
  match v with
  | Js.Obj _ => shape (Js.get v)
  | _ => None
  end.

(** [s.refine(check)] *)
Definition refine {A : Type} (s : schema A) (check : A → bool) : schema A :=
  λ v, data ← s v; if check data then Some data else None.

(** [s.strict()] on an object schema with the given keys: any other key of
    the input is an issue. *)
Definition strict {A : Type} (keys : list String.string) (s : schema A)
  : schema A := λ v,
  match v with
  | Js.Obj fields =>
      if forallb (λ kv, bool_decide (kv.1 ∈ keys)) fields then s v else None
  | _ => s v
  end.

End Zod.

(** ** The wire messages ([json-rpc.ts]) and the type guards ([types.ts]) *)

Module JsonRpc.

(** [type RequestId = string | number] *)
Definition RequestId : Type := (Js.number + string)%type.

Definition id_value (i : RequestId) : Js.value :=
  match i with inl n => Js.Num n | inr s => Js.Str s end.

Definition id_or_null_value (i : option RequestId) : Js.value :=
  from_option id_value Js.Null i.

Record JsonRpcRequest : Type := {
  rq_method : string;
  rq_params : Js.value;
  rq_id : RequestId
}.

Record JsonRpcNotification : Type := {
  nt_method : string;
  nt_params : Js.value
}.

Record JsonRpcSuccessResponse : Type := {
  sr_result : Js.value;
  sr_id : RequestId
}.

Record ErrorObject : Type := {
  eo_code : Js.number;
  eo_message : string;
  eo_data : Js.value
}.

Record JsonRpcErrorResponse : Type := {
  er_id : option RequestId;
  er_error : ErrorObject
}.

Definition JsonRpcResponse : Type :=
  (JsonRpcSuccessResponse + JsonRpcErrorResponse)%type.

(** [obj.method !== null], [o.params !== null] *)
Definition not_null (v : Js.value) : bool :=
  match v with Js.Null => false | _ => true end.

Definition JsonRpcRequestSchema : Zod.schema JsonRpcRequest :=
  Zod.refine
    (Zod.object (λ o,
       _ ← Zod.literal "2.0" (o "jsonrpc");
       method ← Zod.string (o "method");
       params ← Zod.optional Zod.any (o "params");
       id ← Zod.union Zod.number Zod.string (o "id");
       Some {| rq_method := method; rq_params := params; rq_id := id |}))
    (λ obj, not_null (Js.Str (rq_method obj))).

Definition JsonRpcSuccessResponseSchema : Zod.schema JsonRpcSuccessResponse :=
  Zod.object (λ o,
    _ ← Zod.literal "2.0" (o "jsonrpc");
    result ← Zod.any (o "result");
    id ← Zod.union Zod.number Zod.string (o "id");
    Some {| sr_result := result; sr_id := id |}).

Definition ErrorObjectSchema : Zod.schema ErrorObject :=
  Zod.object (λ o,
    code ← Zod.number (o "code");
    message ← Zod.string (o "message");
    data ← Zod.optional Zod.any (o "data");
    Some {| eo_code := code; eo_message := message; eo_data := data |}).

Definition JsonRpcErrorResponseSchema : Zod.schema JsonRpcErrorResponse :=
  Zod.object (λ o,
    _ ← Zod.literal "2.0" (o "jsonrpc");
    id ← Zod.union (Zod.union Zod.number Zod.string) Zod.null (o "id");
    error ← ErrorObjectSchema (o "error");
    Some {| er_id := match id with inl i => Some i | inr _ => None end;
            er_error := error |}).

Definition JsonRpcResponseSchema : Zod.schema JsonRpcResponse :=
  Zod.union JsonRpcSuccessResponseSchema JsonRpcErrorResponseSchema.

Definition JsonRpcNotificationSchema : Zod.schema JsonRpcNotification :=
  Zod.strict ["jsonrpc"; "method"; "params"]
    (Zod.refine
       (Zod.object (λ o,
          _ ← Zod.literal "2.0" (o "jsonrpc");
          method ← Zod.string (o "method");
          params ← Zod.optional Zod.any (o "params");
          Some {| nt_method := method; nt_params := params |}))
       (λ o, not_null (nt_params o))).

(** The objects that the schemas output, as the type guards see them. *)
Definition success_object (r : JsonRpcSuccessResponse) : Js.value :=
  Js.Obj [("jsonrpc", Js.Str "2.0"); ("result", sr_result r);
          ("id", id_value (sr_id r))].

Definition error_object (r : JsonRpcErrorResponse) : Js.value :=
  Js.Obj [("jsonrpc", Js.Str "2.0"); ("id", id_or_null_value (er_id r));
          ("error", Js.Obj [("code", Js.Num (eo_code (er_error r)));
                            ("message", Js.Str (eo_message (er_error r)));
                            ("data", eo_data (er_error r))])].

Definition response_object (r : JsonRpcResponse) : Js.value :=
  match r with inl s => success_object s | inr e => error_object e end.

(** [Object.hasOwn(o, k)] *)
Definition hasOwn (o : Js.value) (k : string) : bool :=
  match o with
  | Js.Obj fields => bool_decide (is_Some (Js.assoc fields k))
  | _ => false
  end.

(** [isJsonRpcSuccessResponse(response)] *)
Definition isJsonRpcSuccessResponse (response : JsonRpcResponse) : bool :=
  bool_decide (is_Some (JsonRpcSuccessResponseSchema (response_object response)))
  && negb (hasOwn (response_object response) "error").

(** [isJsonRpcErrorResponse(response)] *)
Definition isJsonRpcErrorResponse (response : JsonRpcResponse) : bool :=
  bool_decide (is_Some (JsonRpcErrorResponseSchema (response_object response))).

End JsonRpc.

(** ** The server dispatcher ([JsonRpcServer]) *)

Module Server.
Import Errors JsonRpc.

(** What a handler can throw: an instance of [JsonRpcError] (or of a
    subclass), or any other value. *)
Inductive thrown : Type :=
| ThrowJsonRpcError (e : JsonRpcError)
| ThrowValue (v : Js.value).

(** The completion of a call that may throw. *)
Inductive completion (A : Type) : Type :=
| Return (a : A)
| Throw (t : thrown).
Arguments Return {A} a.
Arguments Throw {A} t.

(** [paramsSchema.parse(params)]: the parsed value, or the message of the
    [ZodError] that is thrown. *)
Definition parser : Type := Js.value → Js.value + string.

(** [createRequestHandler({ method, paramsSchema, resultSchema, handler })] *)
Record RequestHandler : Type := {
  rh_paramsSchema : parser;
  rh_handler : Js.value → completion Js.value
}.

(** [createNotificationhandler({ method, paramsSchema, handler })] *)
Record NotificationHandler : Type := {
  nh_paramsSchema : parser;
  nh_handler : Js.value → completion unit
}.

(** The object literals that [handleMessage] returns. *)
Inductive response : Type :=
| SuccessResponse (id : RequestId) (result : Js.value)
| ErrorResponse (id : Js.value) (code : Js.number) (message : Js.value)
    (data : option Js.value).

(** The result of the whole dispatch: a value, or an exception that nothing
    catches (the returned promise rejects). *)
Inductive outcome (A : Type) : Type :=
| Done (a : A)
| Uncaught.
Arguments Done {A} a.
Arguments Uncaught {A}.

Section Dispatcher.

(** [import { JsonRpcErrorCodes as JsonRpcErrorCode } from './errors'] *)
Variable JsonRpcErrorCode : codes.

(** [this.handlers], [this.notifications], by their own properties.  At the
    names of the members of [Object.prototype] (see [ObjectPrototype] below)
    the objects of the code find the inherited member where these maps find
    nothing. *)
Variable handlers : gmap string RequestHandler.
Variable notifications : option (gmap string NotificationHandler).

(** [error.message] of the [ZodError] that [safeParse] reports for an input
    it rejects. *)
Variable zodMessage : Js.value → string.

(** [JSON.parse]; [None] is a [SyntaxError]. *)
Variable JSON_parse : string → option Js.value.

(** [handleRpcRequest(request)] *)
Definition handleRpcRequest (request : JsonRpcRequest) : completion response :=
  match handlers !! rq_method request with
  | None =>
      Throw (ThrowJsonRpcError
               (MethodNotFoundError JsonRpcErrorCode
                  (id_value (rq_id request)) (rq_method request)))
  | Some method =>
      match rh_paramsSchema method (rq_params request) with
      | inr zodError =>
          Throw (ThrowJsonRpcError
                   (InvalidParametersError JsonRpcErrorCode
                      (id_value (rq_id request)) zodError))
      | inl params =>
          match rh_handler method params with
          | Throw t => Throw t
          | Return result => Return (SuccessResponse (rq_id request) result)
          end
      end
  end.

(** [handleRpcNotification(notification)] *)
Definition handleRpcNotification (notification : JsonRpcNotification)
  : completion unit :=
  match notifications ≫= (.!! nt_method notification) with
  | None =>
      Throw (ThrowJsonRpcError
               (MethodNotFoundError JsonRpcErrorCode Js.Null
                  (nt_method notification)))
  | Some method =>
      match nh_paramsSchema method (nt_params notification) with
      | inr zodError =>
          Throw (ThrowJsonRpcError
                   (InvalidParametersError JsonRpcErrorCode Js.Null zodError))
      | inl params => nh_handler method params
      end
  end.

(** [error instanceof JsonRpcError && error.requestId] *)
Definition isJsonRpcErrorWithId (error : thrown) : option JsonRpcError :=
  match error with
  | ThrowJsonRpcError e => if Js.truthy (requestId e) then Some e else None
  | ThrowValue _ => None
  end.

(** [error instanceof CustomServerError && error.requestId] *)
Definition isCustomServerErrorWithId (error : thrown) : option JsonRpcError :=
  match error with
  | ThrowJsonRpcError e =>
      if custom e && Js.truthy (requestId e) then Some e else None
  | ThrowValue _ => None
  end.

(** The thrown value as a boolean, and its [?.message]. *)
Definition thrown_truthy (error : thrown) : bool :=
  match error with
  | ThrowJsonRpcError _ => true
  | ThrowValue v => Js.truthy v
  end.

Definition thrown_message (error : thrown) : Js.value :=
  match error with
  | ThrowJsonRpcError e => Js.Str (message e)
  | ThrowValue v => Js.get_opt v "message"
  end.

(** The [catch (error)] clause of [handleMessage]; [data] is the validated
    message. *)
Definition handleMessage_catch (data : JsonRpcRequest + JsonRpcNotification)
    (error : thrown) : option response :=
  match isJsonRpcErrorWithId error with
  | Some e =>
      Some (ErrorResponse (requestId e) (code e) (Js.Str (message e))
              (Some (Errors.data e)))
  | None =>
      match isCustomServerErrorWithId error with
      | Some e =>
          Some (ErrorResponse (requestId e) (code e) (Js.Str (message e))
                  (Some (Errors.data e)))
      | None =>
          match data with
          | inl request =>
              (* ['id' in data], and [data.id] is a string or a number *)
              if thrown_truthy error then
                Some (ErrorResponse (id_value (rq_id request))
                        (Js.num (INTERNAL_SERVER_ERROR JsonRpcErrorCode))
                        (Js.nullish_or (thrown_message error)
                           (Js.Str "an unknown error occurred"))
                        None)
              else None
          | inr _ => None
          end
      end
  end.

(** [handleMessage(serverMessage)] *)
Definition handleMessage (serverMessage : Js.value) : outcome (option response) :=
  match Js.has_property "id" serverMessage with
  | None => Uncaught
  | Some hasId =>
      let parsed : option (JsonRpcRequest + JsonRpcNotification) :=
        if hasId then inl <$> JsonRpcRequestSchema serverMessage
        else inr <$> JsonRpcNotificationSchema serverMessage in
      match parsed with
      | None =>
          Done (Some (ErrorResponse
                        (if Js.truthy serverMessage && hasId
                            && Js.truthy (Js.get_opt serverMessage "id")
                         then Js.get serverMessage "id" else Js.Null)
                        (Js.num (INVALID_REQUEST JsonRpcErrorCode))
                        (Js.Str ("invalid JSON RPC request: "
                                 +:+ zodMessage serverMessage))
                        None))
      | Some data =>
          let run : completion (option response) :=
            match data with
            | inl request =>
                match handleRpcRequest request with
                | Return r => Return (Some r)
                | Throw t => Throw t
                end
            | inr notification =>
                match handleRpcNotification notification with
                | Return _ => Return None
                | Throw t => Throw t
                end
            end in
          match run with
          | Return r => Done r
          | Throw error => Done (handleMessage_catch data error)
          end
      end
  end.

(** [handleRawMessage(message)] *)
Definition handleRawMessage (message : string) : outcome (option response) :=
  match JSON_parse message with
  | None =>
      Done (Some (ErrorResponse Js.Null
                    (Js.num (PARSE_ERROR JsonRpcErrorCode))
                    (Js.Str "invalid JSON payload structure") None))
  | Some requestObject => handleMessage requestObject
  end.

End Dispatcher.
End Server.

(** ** The client correlation engine ([JsonRpcClient]) *)

Module Client.
Import JsonRpc.

(** One invocation of [call()]: it names the promise the invocation returns
    (its [resolve] and [reject]) and the timer the invocation arms. *)
Definition CallId : Type := nat.

(** The pieces of a template literal; interpolated numbers and ids are kept
    as they are instead of being printed. *)
Inductive part : Type :=
| Text (s : string)
| IdPart (i : RequestId)
| NumPart (n : Z).

(** The values a promise of [call()] rejects with. *)
Inductive error : Type :=
| Error (message : list part)
| ZodError (message : string)
| RpcError (e : Errors.JsonRpcError).

Inductive settlement : Type :=
| Resolved (value : Js.value)
| Rejected (reason : error).

(** [schema.parse(value)]: the parsed value, or the rendering of what is
    thrown. *)
Definition parser : Type := Js.value → Js.value + string.

(** [createClientMethod({ method, paramsSchema, resultSchema })] *)
Record ClientMethod : Type := {
  paramsSchema : parser;
  resultSchema : parser
}.

(** [interface PendingRequest] *)
Record PendingRequest : Type := {
  promise : CallId;          (* [resolve] and [reject] *)
  method : string;
  timestamp : Z;
  timeout : CallId           (* the handle [setTimeout] returned *)
}.

(** What the callback given to [setTimeout] in [call()] closes over. *)
Record Timer : Type := {
  tm_requestId : RequestId;
  tm_reject : CallId;
  tm_delay : Z
}.

(** *** [Map<RequestId, PendingRequest>], in insertion order *)

Definition PendingMap : Type := list (RequestId * PendingRequest).

Fixpoint map_get (k : RequestId) (m : PendingMap) : option PendingRequest :=
  match m with
  | [] => None
  | (k', v) :: rest => if decide (k' = k) then Some v else map_get k rest
  end.

(** [set] keeps the position of a key that is already there. *)
Fixpoint map_set (k : RequestId) (v : PendingRequest) (m : PendingMap)
  : PendingMap :=
  match m with
  | [] => [(k, v)]
  | (k', v') :: rest =>
      if decide (k' = k) then (k', v) :: rest else (k', v') :: map_set k v rest
  end.

Fixpoint map_delete (k : RequestId) (m : PendingMap) : PendingMap :=
  match m with
  | [] => []
  | (k', v') :: rest =>
      if decide (k' = k) then map_delete k rest else (k', v') :: map_delete k rest
  end.

(** *** The client object *)

(** [this.generateId]: the default counter, or the injected factory, which
    may be any stateful function: the id of its [n]-th invocation. *)
Inductive generator : Type :=
| DefaultGenerator
| InjectedGenerator (ids : nat → RequestId).

(** [methods] by its own properties (at the names of [ObjectPrototype]
    below, the object of the code finds the inherited member). *)
Record args : Type := {
  a_methods : gmap string ClientMethod;
  a_defaultRequestTimeout : option Z;
  a_shutdownTimeout : option Z;
  a_generateRequestId : option (nat → RequestId)
}.

Record t : Type := {
  pendingRequests : PendingMap;
  nextRequestId : Z;
  defaultRequestTimeout : Z;
  shutdownTimeout : Z;
  generateId : generator;
  isShuttingDown : bool;
  methods : gmap string ClientMethod;
  (* the surroundings of the object *)
  generated : nat;                       (* invocations of the injected factory *)
  calls : nat;                           (* invocations of [call()] *)
  timers : gmap CallId Timer;            (* armed timers *)
  settled : list (CallId * settlement);  (* every [resolve]/[reject], in order *)
  sent : list JsonRpcRequest             (* what was given to [transport.send] *)
}.

(** [new JsonRpcClient(args)] *)
Definition create (a : args) : t := {|
  pendingRequests := [];
  nextRequestId := 1;
  defaultRequestTimeout := default 30000 (a_defaultRequestTimeout a);
  shutdownTimeout := default 5000 (a_shutdownTimeout a);
  generateId := from_option InjectedGenerator DefaultGenerator
                  (a_generateRequestId a);
  isShuttingDown := false;
  methods := a_methods a;
  generated := 0;
  calls := 0;
  timers := ∅;
  settled := [];
  sent := []
|}.

Definition with_pendingRequests (m : PendingMap) (c : t) : t :=
  {| pendingRequests := m; nextRequestId := nextRequestId c;
     defaultRequestTimeout := defaultRequestTimeout c;
     shutdownTimeout := shutdownTimeout c; generateId := generateId c;
     isShuttingDown := isShuttingDown c; methods := methods c;
     generated := generated c; calls := calls c; timers := timers c;
     settled := settled c; sent := sent c |}.

Definition with_timers (tm : gmap CallId Timer) (c : t) : t :=
  {| pendingRequests := pendingRequests c; nextRequestId := nextRequestId c;
     defaultRequestTimeout := defaultRequestTimeout c;
     shutdownTimeout := shutdownTimeout c; generateId := generateId c;
     isShuttingDown := isShuttingDown c; methods := methods c;
     generated := generated c; calls := calls c; timers := tm;
     settled := settled c; sent := sent c |}.

Definition with_settled (s : list (CallId * settlement)) (c : t) : t :=
  {| pendingRequests := pendingRequests c; nextRequestId := nextRequestId c;
     defaultRequestTimeout := defaultRequestTimeout c;
     shutdownTimeout := shutdownTimeout c; generateId := generateId c;
     isShuttingDown := isShuttingDown c; methods := methods c;
     generated := generated c; calls := calls c; timers := timers c;
     settled := s; sent := sent c |}.

Definition with_isShuttingDown (b : bool) (c : t) : t :=
  {| pendingRequests := pendingRequests c; nextRequestId := nextRequestId c;
     defaultRequestTimeout := defaultRequestTimeout c;
     shutdownTimeout := shutdownTimeout c; generateId := generateId c;
     isShuttingDown := b; methods := methods c;
     generated := generated c; calls := calls c; timers := timers c;
     settled := settled c; sent := sent c |}.

(** [resolve(value)] and [reject(reason)] of the promise of call [p] *)
Definition resolve (p : CallId) (value : Js.value) (c : t) : t :=
  with_settled (settled c ++ [(p, Resolved value)]) c.

Definition reject (p : CallId) (reason : error) (c : t) : t :=
  with_settled (settled c ++ [(p, Rejected reason)]) c.

(** [clearTimeout(handle)] *)
Definition clearTimeout (handle : CallId) (c : t) : t :=
  with_timers (delete handle (timers c)) c.

(** [this.generateId()]: the id it returns, without its effect. *)
Definition next_id (c : t) : RequestId :=
  match generateId c with
  | DefaultGenerator => inl (Js.num (nextRequestId c))
  | InjectedGenerator ids => ids (generated c)
  end.

(** A fresh invocation of [call()] is being counted. *)
Definition enter_call (c : t) : t :=
  {| pendingRequests := pendingRequests c; nextRequestId := nextRequestId c;
     defaultRequestTimeout := defaultRequestTimeout c;
     shutdownTimeout := shutdownTimeout c; generateId := generateId c;
     isShuttingDown := isShuttingDown c; methods := methods c;
     generated := generated c; calls := S (calls c); timers := timers c;
     settled := settled c; sent := sent c |}.

(** [call(method, params, options)], for the invocation numbered [calls c];
    [options] is [None] when the argument is left out, and [now] is
    [Date.now()]. *)
Definition call (method : string) (params : Js.value) (options : option Z)
    (now : Z) (c : t) : t :=
  let p := calls c in
  let c := enter_call c in
  if isShuttingDown c then
    reject p (Error [Text "Client is shutting down"]) c
  else
    match methods c !! method with
    | None => reject p (Error [Text ("Method " +:+ method +:+ " not found")]) c
    | Some methodDef =>
        match paramsSchema methodDef params with
        | inr zodError => reject p (ZodError zodError) c
        | inl validatedParams =>
            let requestId := next_id c in
            let request :=
              {| rq_method := method; rq_params := validatedParams;
                 rq_id := requestId |} in
            let timer :=
              {| tm_requestId := requestId; tm_reject := p;
                 tm_delay := default (defaultRequestTimeout c) options |} in
            let pendingRequest :=
              {| promise := p; method := method; timestamp := now;
                 timeout := p |} in
            {| pendingRequests :=
                 map_set requestId pendingRequest (pendingRequests c);
               nextRequestId :=
                 match generateId c with
                 | DefaultGenerator => nextRequestId c + 1
                 | InjectedGenerator _ => nextRequestId c
                 end;
               defaultRequestTimeout := defaultRequestTimeout c;
               shutdownTimeout := shutdownTimeout c;
               generateId := generateId c;
               isShuttingDown := isShuttingDown c;
               methods := methods c;
               generated :=
                 match generateId c with
                 | DefaultGenerator => generated c
                 | InjectedGenerator _ => S (generated c)
                 end;
               calls := calls c;
               timers := <[p := timer]> (timers c);
               settled := settled c;
               sent := sent c ++ [request] |}
        end
    end.

(** The callback of [setTimeout] in [call()], once the timer [tm] fires. *)
Definition timer_callback (tm : Timer) (c : t) : t :=
  match map_get (tm_requestId tm) (pendingRequests c) with
  | Some pendingRequest =>
      reject (tm_reject tm)
        (Error [Text "Request "; IdPart (tm_requestId tm);
                Text " timed out after "; NumPart (defaultRequestTimeout c);
                Text "ms"])
        (with_pendingRequests
           (map_delete (tm_requestId tm) (pendingRequests c)) c)
  | None => c
  end.

(** [response.id] *)
Definition response_id (response : JsonRpcResponse) : option RequestId :=
  match response with inl s => Some (sr_id s) | inr e => er_id e end.

Section Receive.

(** [JSON.parse]; [None] is a [SyntaxError]. *)
Variable JSON_parse : string → option Js.value.

(** [handleResponse(responseString)]: whatever is thrown inside is caught
    and logged. *)
Definition handleResponse (responseString : string) (c : t) : t :=
  match JSON_parse responseString with
  | None => c
  | Some responseObject =>
      match JsonRpcResponseSchema responseObject with
      | None => c
      | Some response =>
          match response_id response with
          | None => c
          | Some requestId =>
              match map_get requestId (pendingRequests c) with
              | None => c
              | Some pendingRequest =>
                  let c :=
                    clearTimeout (timeout pendingRequest)
                      (with_pendingRequests
                         (map_delete requestId (pendingRequests c)) c) in
                  if isJsonRpcSuccessResponse response then
                    let result := Js.get (response_object response) "result" in
                    match methods c !! method pendingRequest with
                    | Some methodDef =>
                        match resultSchema methodDef result with
                        | inl validatedResult =>
                            resolve (promise pendingRequest) validatedResult c
                        | inr validationError =>
                            reject (promise pendingRequest)
                              (Error [Text ("Invalid result format: "
                                            +:+ validationError)]) c
                        end
                    | None => resolve (promise pendingRequest) result c
                    end
                  else if isJsonRpcErrorResponse response then
                    match response with
                    | inr errorResponse =>
                        reject (promise pendingRequest)
                          (RpcError
                             {| Errors.requestId :=
                                  id_or_null_value (er_id errorResponse);
                                Errors.code := eo_code (er_error errorResponse);
                                Errors.message :=
                                  eo_message (er_error errorResponse);
                                Errors.data := eo_data (er_error errorResponse);
                                Errors.custom := false |}) c
                    | inl _ => c
                    end
                  else c
              end
          end
      end
  end.

End Receive.

(** [cancelPendingRequests()] *)
Definition cancelPendingRequests (c : t) : t :=
  with_pendingRequests []
    (foldl (λ c kv,
              reject (promise kv.2) (Error [Text "Client is shutting down"])
                (clearTimeout (timeout kv.2) c))
       c (pendingRequests c)).

(** [gracefulShutdown()] up to its wait: the flag is raised.  While it waits,
    responses and timers go on; after the wait it runs
    [cancelPendingRequests()]. *)
Definition gracefulShutdown_begin (c : t) : t := with_isShuttingDown true c.

(** *** The events of the engine and its runs *)

Inductive event : Type :=
| Call (method : string) (params : Js.value) (options : option Z) (now : Z)
| TimerFires (handle : CallId)
| Message (responseString : string)
| ShutdownBegins
| ShutdownDrains.

Section Runs.

Variable JSON_parse : string → option Js.value.

(** One event; [None] when the event cannot happen in this state: only an
    armed timer fires, and only a shutdown that has begun drains. *)
Definition step (ev : event) (c : t) : option t :=
  match ev with
  | Call method params options now => Some (call method params options now c)
  | TimerFires handle =>
      tm ← timers c !! handle;
      Some (timer_callback tm (clearTimeout handle c))
  | Message responseString => Some (handleResponse JSON_parse responseString c)
  | ShutdownBegins => Some (gracefulShutdown_begin c)
  | ShutdownDrains =>
      if isShuttingDown c then Some (cancelPendingRequests c) else None
  end.

Fixpoint run (evs : list event) (c : t) : option t :=
  match evs with
  | [] => Some c
  | ev :: evs' => c' ← step ev c; run evs' c'
  end.

(** The id that [call] is about to use when it gets as far as
    [this.generateId()]. *)
Definition registers (ev : event) (c : t) : option RequestId :=
  match ev with
  | Call method params _ _ =>
      if isShuttingDown c then None
      else methodDef ← methods c !! method;
           match paramsSchema methodDef params with
           | inl _ => Some (next_id c)
           | inr _ => None
           end
  | _ => None
  end.

(** No call is given the id of a request that is still pending. *)
Fixpoint collision_free (evs : list event) (c : t) : Prop :=
  match evs with
  | [] => True
  | ev :: evs' =>
      match registers ev c with
      | Some requestId => map_get requestId (pendingRequests c) = None
      | None => True
      end
      ∧ match step ev c with
        | Some c' => collision_free evs' c'
        | None => True
        end
  end.

End Runs.

(** How often [p] is settled in a log, and how often the promise of call
    [p] was resolved or rejected so far. *)
Definition count (p : CallId) (st : list (CallId * settlement)) : nat :=
  length (filter (λ x, x.1 = p) st).

Definition completions (p : CallId) (c : t) : nat := count p (settled c).

(** Call [p] still has its entry in [pendingRequests]. *)
Definition is_pending (p : CallId) (c : t) : Prop :=
  ∃ requestId pendingRequest,
    map_get requestId (pendingRequests c) = Some pendingRequest
    ∧ promise pendingRequest = p.

(** The state of one call: either it is pending, its timer is armed and
    nothing has completed it yet, or it is neither pending nor armed and has
    been completed exactly once. *)
Definition exactly_once (p : CallId) (c : t) : Prop :=
  (is_pending p c ∧ is_Some (timers c !! p) ∧ completions p c = 0%nat)
  ∨ (¬ is_pending p c ∧ timers c !! p = None ∧ completions p c = 1%nat).

(** The invariant of the engine, on the four components it relates: the
    pending map, the armed timers, the log of settlements and the number of
    calls made so far. *)
Record invariant (pend : PendingMap) (tms : gmap CallId Timer)
    (st : list (CallId * settlement)) (n : CallId) : Prop := {
  inv_keys : NoDup pend.*1;
  inv_entry : ∀ k pr, (k, pr) ∈ pend →
    (promise pr < n)%nat ∧ timeout pr = promise pr
    ∧ (∃ d, tms !! promise pr
            = Some {| tm_requestId := k; tm_reject := promise pr;
                      tm_delay := d |})
    ∧ count (promise pr) st = 0%nat;
  inv_timer : ∀ h tm, tms !! h = Some tm →
    tm_reject tm = h
    ∧ ∃ pr, (tm_requestId tm, pr) ∈ pend ∧ promise pr = h;
  inv_done : ∀ p, (p < n)%nat →
    (∀ k pr, (k, pr) ∈ pend → promise pr ≠ p) → count p st = 1%nat;
  inv_future : ∀ p, (n ≤ p)%nat → count p st = 0%nat
}.

(** The invariant, of a client. *)
Definition consistent (c : t) : Prop :=
  invariant (pendingRequests c) (timers c) (settled c) (calls c).

(** The ids in the map are numbers below the counter. *)
Definition below_counter (c : t) : Prop :=
  generateId c = DefaultGenerator
  ∧ ∀ k, k ∈ (pendingRequests c).*1 →
         ∃ z, k = inl (Js.num z) ∧ z < nextRequestId c.

(** The property of a run: in the state it ends in, every call made so far
    is in one of the two states of [exactly_once], and a call that is still
    pending is completed by its timer, which can fire. *)
Definition exactly_one_completion (JSON_parse : string → option Js.value)
    (a : args) (evs : list event) : Prop :=
  ∀ c, run JSON_parse evs (create a) = Some c →
    ∀ p, (p < calls c)%nat →
      exactly_once p c
      ∧ (is_pending p c →
         ∃ c', step JSON_parse (TimerFires p) c = Some c'
               ∧ completions p c' = 1%nat ∧ ¬ is_pending p c').

End Client.

(** ** The stream transport ([TargetClient]) *)

Module TargetClient.

(** A JavaScript string is a sequence of UTF-16 code units. *)
Definition code_unit : Type := N.
Definition jsstring : Type := list code_unit.

(** An ASCII literal as a JavaScript string. *)
Definition js (s : string) : jsstring :=
  (λ a, Ascii.N_of_ascii a) <$> String.list_ascii_of_string s.

Local Open Scope N_scope.

(** The code units that [String.prototype.trim] strips: WhiteSpace and
    LineTerminator of ECMAScript. *)
Definition is_white_space (c : code_unit) : bool :=
  (c =? 0x0009) || (c =? 0x000A) || (c =? 0x000B) || (c =? 0x000C)
  || (c =? 0x000D) || (c =? 0x0020) || (c =? 0x00A0) || (c =? 0x1680)
  || ((0x2000 <=? c) && (c <=? 0x200A))
  || (c =? 0x2028) || (c =? 0x2029) || (c =? 0x202F) || (c =? 0x205F)
  || (c =? 0x3000) || (c =? 0xFEFF).

Fixpoint trimStart (s : jsstring) : jsstring :=
  match s with
  | c :: s' => if is_white_space c then trimStart s' else s
  | [] => []
  end.

(** [s.trim()] *)
Definition trim (s : jsstring) : jsstring :=
  reverse (trimStart (reverse (trimStart s))).

(** [s.split('\n')]: never empty, [''] splits into [['']]. *)
Fixpoint split_lines (s : jsstring) : list jsstring :=
  match s with
  | [] => [[]]
  | c :: s' =>
      if c =? 0x000A then [] :: split_lines s'
      else match split_lines s' with
           | line :: rest => (c :: line) :: rest
           | [] => [[c]]
           end
  end.

(** [message.endsWith('\n') ? message : message + '\n'] *)
Definition with_newline (message : jsstring) : jsstring :=
  match last message with
  | Some c => if c =? 0x000A then message else message ++ [0x000A]
  | None => message ++ [0x000A]
  end.

Local Close Scope N_scope.

(** [interface PendingMessage]; [pm_promise] names [resolve] and [reject]. *)
Record PendingMessage : Type := {
  pm_message : jsstring;
  pm_promise : nat;
  pm_timeoutId : nat
}.

(** [interface TargetClientOptions], after the defaults are merged in. *)
Record Options : Type := {
  socketPath : string;
  reconnectDelay : Z;
  maxReconnectAttempts : Z;
  messageTimeout : Z
}.

(** What the object does to its surroundings, in order.  [this.emit] is the
    method of the inherited Node emitter: the event is recorded, and what
    its listeners do is outside the object (they are taken to return).  The
    one event the emitter treats apart is ['error']: when no listener is
    registered for it, [emit('error', error)] throws [error] instead of
    returning. *)
Inductive effect : Type :=
| Emit (event : string)                          (* [this.emit(event, ...)] *)
| SetReconnectTimer (delay : Z)                  (* [setTimeout(() => this.connect(), delay)] *)
| SetConnectTimer (delay : Z)                    (* the connect timeout of [connect()] *)
| ClearTimeout (timeoutId : nat)
| Resolve (promise : nat) (response : jsstring)
| Reject (promise : nat) (reason : string)
| Received (response : jsstring)   (* [debug(`Received response from target: ...`)] *)
| Unexpected                       (* [debug('Received unexpected response ...')] *)
| ErrorThrown.                     (* [this.emit('error', error)] throws: no listener *)

#[global] Instance effect_eq_dec : EqDecision effect.
Proof. solve_decision. Defined.

Record t : Type := {
  options : Options;
  socket : bool;                    (* [this.socket !== null] *)
  buffer : jsstring;
  isConnected : bool;
  isConnecting : bool;
  reconnectAttempts : Z;
  messageQueue : list PendingMessage;
  isShuttingDown : bool;
  effects : list effect
}.

(** [new TargetClient(options)] *)
Definition create (path : string) (delay attempts timeout : option Z) : t := {|
  options := {| socketPath := path;
                reconnectDelay := default 1000 delay;
                maxReconnectAttempts := default 5 attempts;
                messageTimeout := default 10000 timeout |};
  socket := false;
  buffer := [];
  isConnected := false;
  isConnecting := false;
  reconnectAttempts := 0;
  messageQueue := [];
  isShuttingDown := false;
  effects := []
|}.

Definition perform (e : effect) (c : t) : t :=
  {| options := options c; socket := socket c; buffer := buffer c;
     isConnected := isConnected c; isConnecting := isConnecting c;
     reconnectAttempts := reconnectAttempts c;
     messageQueue := messageQueue c; isShuttingDown := isShuttingDown c;
     effects := effects c ++ [e] |}.

Definition with_buffer (b : jsstring) (c : t) : t :=
  {| options := options c; socket := socket c; buffer := b;
     isConnected := isConnected c; isConnecting := isConnecting c;
     reconnectAttempts := reconnectAttempts c;
     messageQueue := messageQueue c; isShuttingDown := isShuttingDown c;
     effects := effects c |}.

Definition with_messageQueue (q : list PendingMessage) (c : t) : t :=
  {| options := options c; socket := socket c; buffer := buffer c;
     isConnected := isConnected c; isConnecting := isConnecting c;
     reconnectAttempts := reconnectAttempts c;
     messageQueue := q; isShuttingDown := isShuttingDown c;
     effects := effects c |}.

Definition with_reconnectAttempts (n : Z) (c : t) : t :=
  {| options := options c; socket := socket c; buffer := buffer c;
     isConnected := isConnected c; isConnecting := isConnecting c;
     reconnectAttempts := n;
     messageQueue := messageQueue c; isShuttingDown := isShuttingDown c;
     effects := effects c |}.

(** [processResponse(response)] *)
Definition processResponse (response : jsstring) (c : t) : t :=
  let c := perform (Received response) c in
  match messageQueue c with
  | pending :: rest =>
      perform (Resolve (pm_promise pending) response)
        (perform (ClearTimeout (pm_timeoutId pending))
           (with_messageQueue rest c))
  | [] =>
      perform Unexpected c
  end.

(** [handleData(data)] *)
Definition handleData (data : jsstring) (c : t) : t :=
  let messages := split_lines (buffer c ++ data) in
  let c := with_buffer (default [] (last messages)) c in
  foldl (λ c message,
           match trim message with
           | [] => c
           | _ :: _ => processResponse (trim message) c
           end)
    c (removelast messages).

(** [handleConnection()] *)
Definition handleConnection (c : t) : t :=
  perform (Emit "connected")
    {| options := options c; socket := socket c; buffer := buffer c;
       isConnected := true; isConnecting := false;
       reconnectAttempts := 0;
       messageQueue := messageQueue c; isShuttingDown := isShuttingDown c;
       effects := effects c |}.

(** [scheduleReconnect()] *)
Definition scheduleReconnect (c : t) : t :=
  if bool_decide (maxReconnectAttempts (options c) ≤ reconnectAttempts c) then
    perform (Emit "maxReconnectAttemptsReached") c
  else
    let c := with_reconnectAttempts (reconnectAttempts c + 1) c in
    let delay := reconnectDelay (options c) * reconnectAttempts c in
    perform (SetReconnectTimer delay) c.

(** [handleConnectionError(error)]; [listened] tells whether a listener for
    ['error'] is registered on the transport when it runs.  Without one,
    [this.emit('error', error)] throws, the exception leaves the method and
    the lines after it are not run. *)
Definition handleConnectionError (listened : bool) (c : t) : t :=
  let c :=
    {| options := options c; socket := socket c; buffer := buffer c;
       isConnected := isConnected c; isConnecting := false;
       reconnectAttempts := reconnectAttempts c;
       messageQueue := messageQueue c; isShuttingDown := isShuttingDown c;
       effects := effects c |} in
  if listened then
    let c := perform (Emit "error") c in
    if negb (isShuttingDown c) then scheduleReconnect c else c
  else perform ErrorThrown c.

(** [handleDisconnection()] *)
Definition handleDisconnection (c : t) : t :=
  let c :=
    {| options := options c; socket := false; buffer := [];
       isConnected := false; isConnecting := isConnecting c;
       reconnectAttempts := reconnectAttempts c;
       messageQueue := messageQueue c; isShuttingDown := isShuttingDown c;
       effects := effects c |} in
  let c :=
    foldl (λ c pending,
             perform (Reject (pm_promise pending) "Connection lost")
               (perform (ClearTimeout (pm_timeoutId pending)) c))
      c (messageQueue c) in
  let c := perform (Emit "disconnected") (with_messageQueue [] c) in
  if negb (isShuttingDown c) then scheduleReconnect c else c.

(** The responses handed to [processResponse], in order. *)
Definition received (es : list effect) : list jsstring :=
  omap (λ e, match e with Received r => Some r | _ => None end) es.

(** The delays of the reconnect timers that were set, in order. *)
Definition reconnect_delays (es : list effect) : list Z :=
  omap (λ e, match e with SetReconnectTimer d => Some d | _ => None end) es.

(** How often [event] was emitted. *)
Definition emitted (event : string) (es : list effect) : nat :=
  length (filter (λ e, e = Emit event) es).

(** The messages that a list of complete lines frames: each line trimmed,
    the empty results left out. *)
Definition framed (lines : list jsstring) : list jsstring :=
  filter (λ message, message ≠ []) (trim <$> lines).

(** The complete lines of the buffer once [data] is appended to it. *)
Definition complete_lines (data : jsstring) (c : t) : list jsstring :=
  removelast (split_lines (buffer c ++ data)).

(** [connect()] as far as it runs at once: the guard, the two fields, and
    the connect timeout it arms. *)
Definition connect (c : t) : t :=
  if isConnected c || isConnecting c then c
  else
    perform (SetConnectTimer (messageTimeout (options c)))
      {| options := options c; socket := true; buffer := buffer c;
         isConnected := isConnected c; isConnecting := true;
         reconnectAttempts := reconnectAttempts c;
         messageQueue := messageQueue c; isShuttingDown := isShuttingDown c;
         effects := effects c |}.

(** The callback of the timer that [scheduleReconnect()] sets. *)
Definition reconnect_timer (c : t) : t :=
  if negb (isShuttingDown c) then connect c else c.

(** What can happen to a connection: the socket raises ['close']
    ([handleDisconnection]); the socket raises ['error'] or the connect
    timeout fires ([handleConnectionError], with or without a listener for
    ['error'] on the transport at that moment); or a reconnect timer
    fires.  Which of them happen, and in which order, is up to the socket
    and the timers: a refused connect, for one, raises ['error'] and then
    ['close']. *)
Inductive incident : Type :=
| Disconnected
| ConnectFailed (listened : bool)
| ReconnectTimerFires.


Definition happen (c : t) (i : incident) : t :=
  match i with
  | Disconnected => handleDisconnection c
  | ConnectFailed listened => handleConnectionError listened c
  | ReconnectTimerFires => reconnect_timer c
  end.

Definition happens (incidents : list incident) (c : t) : t := foldl happen c incidents.


(** The chunks of a connection, in order of arrival. *)
Definition receive (chunks : list jsstring) (c : t) : t :=
  foldl (λ c data, handleData data c) c chunks.

(** The newline as a one-character literal. *)
Definition newline : string := String (Ascii.ascii_of_nat 10) "".

End TargetClient.


(** ** More of the event channel: the loop of [unsubscribe] *)

Module EmitterLoop.
Section Loop.
Import IsoEventEmitter.

Context {Callback : Type} `{EqDecision Callback}.

(** [for (let i = length - 1; i >= 0; i--) if (cbs[i] === callback)
    cbs.splice(i, 1)]; [n] is [i + 1], so the loop runs [n] more times. *)
Fixpoint splice_matching (n : nat) (callback : Callback)
    (cbs : list Callback) : list Callback :=
  match n with
  | O => cbs
  | S i =>
      splice_matching i callback
        match cbs !! i with
        | Some cb => if decide (cb = callback) then delete i cbs else cbs
        | None => cbs
        end
  end.

(** [unsubscribe(event, callback)], with its loop as it is written. *)
Definition unsubscribe_loop (event : string) (callback : Callback)
    (e : t Callback) : t Callback :=
  let cbs := default [] (callbacks e !! event) in
  {| callbacks :=
       <[event := splice_matching (length cbs) callback cbs]> (callbacks e) |}.

End Loop.
End EmitterLoop.

(** ** The type guards for incoming messages ([types.ts]) *)

Module TypeGuards.
Import JsonRpc.

(** [isJsonRpcNotification(message)]: [success && !Object.hasOwn(message,
    'id')]; the second operand is only evaluated for a message the schema
    accepts, which is an object. *)
Definition isJsonRpcNotification (message : Js.value) : bool :=
  bool_decide (is_Some (JsonRpcNotificationSchema message))
  && negb (hasOwn message "id").

(** [isJsonRpcRequest(message)]: [success && Object.hasOwn(message, 'id')] *)
Definition isJsonRpcRequest (message : Js.value) : bool :=
  bool_decide (is_Some (JsonRpcRequestSchema message))
  && hasOwn message "id".

End TypeGuards.

(** ** Reading the dispatcher's replies *)

Module Replies.
Import JsonRpc Server.

(** The [id] of a reply. *)
Definition reply_id (r : response) : Js.value :=
  match r with
  | SuccessResponse id _ => id_value id
  | ErrorResponse id _ _ _ => id
  end.

(** The [error.code] of a reply, if it is an error. *)
Definition reply_code (r : response) : option Js.number :=
  match r with
  | SuccessResponse _ _ => None
  | ErrorResponse _ code _ _ => Some code
  end.

End Replies.

(** ** More of the client: the count of pending requests *)

Module ClientCount.
Import JsonRpc Client.

(** [getPendingRequestCount()] *)
Definition getPendingRequestCount (c : t) : nat := length (pendingRequests c).

(** The ids of the requests given to the transport, in order. *)
Definition sent_ids (c : t) : list RequestId := rq_id <$> sent c.

(** The values the promises were resolved with. *)
Definition resolved_values (c : t) : list Js.value :=
  omap (λ x, match x.2 with Resolved v => Some v | Rejected _ => None end)
    (settled c).

(** What [handleResponse] settles the promise with once a success response
    is matched: the parsed result, the rejection for a result that does not
    parse, or the raw result when the method is not registered. *)
Definition result_settlement (methodDef : option ClientMethod)
    (result : Js.value) : settlement :=
  match methodDef with
  | Some methodDef =>
      match resultSchema methodDef result with
      | inl validatedResult => Resolved validatedResult
      | inr validationError =>
          Rejected (Error [Text ("Invalid result format: " +:+ validationError)])
      end
  | None => Resolved result
  end.

(** The default generator has handed out 1, 2, ... up to the counter. *)
Definition counted (c : t) : Prop :=
  generateId c = DefaultGenerator ∧ 1 ≤ nextRequestId c
  ∧ sent_ids c = (λ z, inl (Js.num z)) <$> seqZ 1 (nextRequestId c - 1).

(** Calls made are settled or pending. *)
Definition accounted (c : t) : Prop :=
  (length (settled c) + length (pendingRequests c) = calls c)%nat.

End ClientCount.

(** ** More of the stream transport: shutdown, message timeouts, matching *)

Module TargetClientQueue.
Import TargetClient.

(** [disconnect()] as far as it runs at once: the flag, the rejections and
    the empty queue.  [socket.destroy()] acts on the socket; the ['close']
    event it causes is [handleDisconnection]. *)
Definition disconnect (c : t) : t :=
  let c :=
    {| options := options c; socket := socket c; buffer := buffer c;
       isConnected := isConnected c; isConnecting := isConnecting c;
       reconnectAttempts := reconnectAttempts c;
       messageQueue := messageQueue c; isShuttingDown := true;
       effects := effects c |} in
  let c :=
    foldl (λ c pending,
             perform (Reject (pm_promise pending) "Client is shutting down")
               (perform (ClearTimeout (pm_timeoutId pending)) c))
      c (messageQueue c) in
  with_messageQueue [] c.

(** [messageQueue.findIndex(p => p.timeoutId === timeoutId)] followed by
    [splice(index, 1)] when the index is not [-1]. *)
Fixpoint splice_timeout (timeoutId : nat) (q : list PendingMessage)
  : list PendingMessage :=
  match q with
  | [] => []
  | p :: rest =>
      if decide (pm_timeoutId p = timeoutId) then rest
      else p :: splice_timeout timeoutId rest
  end.

(** The callback of the timer that [sendMessage] arms for a message:
    [timeoutId] is the handle of that timer and [promise] the promise of
    that [sendMessage]. *)
Definition message_timeout (timeoutId promise : nat) (c : t) : t :=
  perform (Reject promise "Message timeout")
    (with_messageQueue (splice_timeout timeoutId (messageQueue c)) c).

(** [isTargetConnected()], [getPendingMessageCount()] *)
Definition isTargetConnected (c : t) : bool := isConnected c.
Definition getPendingMessageCount (c : t) : nat := length (messageQueue c).

(** The promises that were resolved, with the responses, in order. *)
Definition resolved (es : list effect) : list (nat * jsstring) :=
  omap (λ e, match e with Resolve p r => Some (p, r) | _ => None end) es.

(** The promises that were rejected, with the reasons, in order. *)
Definition rejected (es : list effect) : list (nat * string) :=
  omap (λ e, match e with Reject p r => Some (p, r) | _ => None end) es.

(** The responses that found no pending message. *)
Definition unexpected (es : list effect) : nat :=
  length (filter (λ e, e = Unexpected) es).

(** [lines.join('\\n')] with a delimiter after every line. *)
Definition terminated (lines : list jsstring) : jsstring :=
  concat ((λ line, line ++ [10%N]) <$> lines).

(** The delays of the connect timeouts that [connect()] armed, in order. *)
Definition connect_timers (es : list effect) : list Z :=
  omap (λ e, match e with SetConnectTimer d => Some d | _ => None end) es.

(** What the two loops that reject the queue do for one pending message. *)
Definition rejection (reason : string) (pending : PendingMessage)
  : list effect :=
  [ClearTimeout (pm_timeoutId pending); Reject (pm_promise pending) reason].

End TargetClientQueue.

(** ** The message router ([MessageRouter], [RoutingRules]) *)

Module MessageRouter.
Import TargetClient.

(** [type RoutingRule = (message: string) => boolean]; [None] is a rule
    that throws. *)
Definition RoutingRule : Type := jsstring → option bool.

Inductive action : Type :=
| forward
| internal.

(** [interface MessageRouterOptions], without the logger. *)
Record t : Type := {
  rules : list RoutingRule;
  defaultAction : action
}.

(** [new MessageRouter(options)]: the defaults are no rules and
    ['forward']. *)
Definition create (rs : option (list RoutingRule)) (a : option action) : t :=
  {| rules := default [] rs; defaultAction := default forward a |}.

(** The loop of [routeMessage]: [true] when a rule answers [true]; a rule
    that throws is logged and the loop goes on. *)
Fixpoint matches (rs : list RoutingRule) (message : jsstring) : bool :=
  match rs with
  | [] => false
  | rule :: rest =>
      match rule message with
      | Some true => true
      | Some false | None => matches rest message
      end
  end.

(** [routeMessage(message).shouldForward] *)
Definition routeMessage (message : jsstring) (r : t) : bool :=
  if matches (rules r) message then false
  else match defaultAction r with forward => true | internal => false end.

(** [addRule(rule)], [clearRules()], [getRules()], [setDefaultAction(a)] *)
Definition addRule (rule : RoutingRule) (r : t) : t :=
  {| rules := rules r ++ [rule]; defaultAction := defaultAction r |}.

Definition clearRules (r : t) : t :=
  {| rules := []; defaultAction := defaultAction r |}.

Definition getRules (r : t) : list RoutingRule := rules r.

Definition setDefaultAction (a : action) (r : t) : t :=
  {| rules := rules r; defaultAction := a |}.

(** *** [RoutingRules] *)

(** [s.startsWith(p)] *)
Fixpoint String_startsWith (p s : jsstring) : bool :=
  match p, s with
  | [], _ => true
  | _ :: _, [] => false
  | a :: p', b :: s' => (a =? b)%N && String_startsWith p' s'
  end.

(** [s.includes(t)] *)
Fixpoint String_includes (t s : jsstring) : bool :=
  String_startsWith t s
  || match s with
     | [] => false
     | _ :: s' => String_includes t s'
     end.

(** [s.endsWith(p)] *)
Definition String_endsWith (p s : jsstring) : bool :=
  String_startsWith (reverse p) (reverse s).

Definition containsText (text : jsstring) : RoutingRule :=
  λ message, Some (String_includes text message).

Definition startsWith (prefix : jsstring) : RoutingRule :=
  λ message, Some (String_startsWith prefix message).

Definition endsWith (suffix : jsstring) : RoutingRule :=
  λ message, Some (String_endsWith suffix message).

(** [byLength(minLength, maxLength = Infinity)]; [None] is [Infinity]. *)
Definition byLength (minLength : Z) (maxLength : option Z) : RoutingRule :=
  λ message,
    Some (bool_decide (minLength ≤ Z.of_nat (length message))
          && match maxLength with
             | Some m => bool_decide (Z.of_nat (length message) ≤ m)
             | None => true
             end).

Definition matchAll : RoutingRule := λ _, Some true.
Definition matchNone : RoutingRule := λ _, Some false.

(** [rules.some(rule => rule(message))]: the first [true] ends the walk, and
    so does the first rule that throws. *)
Fixpoint or (rs : list RoutingRule) : RoutingRule :=
  λ message,
    match rs with
    | [] => Some false
    | rule :: rest =>
        match rule message with
        | Some true => Some true
        | Some false => or rest message
        | None => None
        end
    end.

(** [rules.every(rule => rule(message))] *)
Fixpoint and (rs : list RoutingRule) : RoutingRule :=
  λ message,
    match rs with
    | [] => Some true
    | rule :: rest =>
        match rule message with
        | Some true => and rest message
        | Some false => Some false
        | None => None
        end
    end.

(** [(message) => !rule(message)] *)
Definition not (rule : RoutingRule) : RoutingRule :=
  λ message, negb <$> rule message.

End MessageRouter.

(** ** Objects used as maps, and what they inherit *)

Module ObjectPrototype.

(** The property names of [Object.prototype] (ECMAScript, Annex B
    included).  On a plain object that has no own property of such a name,
    [obj[name]] is not [undefined] but the inherited member, and
    [obj['__proto__'] = value] sets the prototype instead of a property.
    The maps of own properties used in this development ([callbacks],
    [handlers], [methods]) describe the objects of the code at every other
    name. *)
Definition names : list string :=
  ["constructor"; "__proto__"; "hasOwnProperty"; "isPrototypeOf";
   "propertyIsEnumerable"; "toLocaleString"; "toString"; "valueOf";
   "__defineGetter__"; "__defineSetter__"; "__lookupGetter__";
   "__lookupSetter__"].

(** An emitter whose [callbacks] object still has [Object.prototype] as
    its prototype: nothing was assigned to [callbacks['__proto__']]. *)
Definition plain {Callback : Type} (e : IsoEventEmitter.t Callback) : Prop :=
  IsoEventEmitter.callbacks e !! "__proto__" = None.

End ObjectPrototype.

(** ** Concrete inputs *)

(** *** Concrete dispatches *)

Module DispatchExamples.
Import JsonRpc Server.

Definition no_issue_text : Js.value → string := λ _, "".

(** A message without [id] whose protocol version is wrong. *)
Definition wrong_version : Js.value :=
  Js.Obj [("jsonrpc", Js.Str "1.0"); ("method", Js.Str "log")].




Definition parsed (method : string) : JsonRpcRequest :=
  {| rq_method := method; rq_params := Js.Undefined;
     rq_id := inl (Js.num 1) |}.

(** The server of the repository's dispatcher tests, as far as they are
    used below: [echo] takes [{ message: string }] and returns the message. *)
Definition echo : RequestHandler :=
  {| rh_paramsSchema := λ params,
       match Js.get params "message" with
       | Js.Str m => inl (Js.Obj [("message", Js.Str m)])
       | _ => inr "message: expected string"
       end;
     rh_handler := λ params, Return (Js.get params "message") |}.

Definition test_handlers : gmap string RequestHandler := {[ "echo" := echo ]}.

Definition message_with_id (method : string) (params : list (string * Js.value))
    (id : Js.value) : Js.value :=
  Js.Obj [("jsonrpc", Js.Str "2.0"); ("method", Js.Str method);
          ("params", Js.Obj params); ("id", id)].

Definition dispatch : Js.value → outcome (option response) :=
  handleMessage Errors.JsonRpcErrorCodes test_handlers None no_issue_text.

End DispatchExamples.

(** *** The three chunks of the framing scenario *)

Module FramingExamples.
Import TargetClient.

Definition chunk1 : jsstring := js ("A" +:+ newline +:+ "B" +:+ newline +:+ "C").
Definition chunk2 : jsstring := js "D".
Definition chunk3 : jsstring := js newline.

(** [new TargetClient({ socketPath: '/tmp/target.sock' })] *)
Definition fresh : t := create "/tmp/target.sock" None None None.

(** Seven handler runs that schedule, two more than the default cap of
    five, with the reconnect timers that fire in between: the connection
    drops, and each reconnect is refused (['error'], which a listener
    takes, then ['close']). *)
Definition seven_failures : list incident :=
  [Disconnected; ReconnectTimerFires; ConnectFailed true; Disconnected;
   ReconnectTimerFires; ConnectFailed true; Disconnected; Disconnected;
   ReconnectTimerFires; ConnectFailed true].


End FramingExamples.

(** *** Runs of the client *)

Module ClientExamples.
Import JsonRpc Client.

(** A method whose schemas accept every value. *)
Definition echo : ClientMethod := {| paramsSchema := inl; resultSchema := inl |}.

(** [new JsonRpcClient({ methods: { echo }, generateRequestId: () => 'req', ... })]:
    an injected factory that returns the same id every time. *)
Definition colliding : args := {|
  a_methods := {[ "echo" := echo ]};
  a_defaultRequestTimeout := None;
  a_shutdownTimeout := None;
  a_generateRequestId := Some (λ _, inr "req")
|}.

(** [new JsonRpcClient({ methods: { echo }, ... })] with the defaults. *)
Definition defaults : args := {|
  a_methods := {[ "echo" := echo ]};
  a_defaultRequestTimeout := None;
  a_shutdownTimeout := None;
  a_generateRequestId := None
|}.

(** Two calls, then both timers fire. *)
Definition two_calls_time_out : list event :=
  [Call "echo" Js.Null None 0; Call "echo" Js.Null None 0;
   TimerFires 0%nat; TimerFires 1%nat].

(** The text of a success response to request 1, and a [JSON.parse] that
    knows this one text. *)
Definition reply_text : string := "{'jsonrpc':'2.0','result':'late','id':1}".

Definition reply_object : Js.value :=
  Js.Obj [("jsonrpc", Js.Str "2.0"); ("result", Js.Str "late");
          ("id", Js.Num (Js.num 1))].

Definition parse_reply (text : string) : option Js.value :=
  if decide (text = reply_text) then Some reply_object else None.

(** A call with [{ timeout: 50 }], its timer, and the reply after it. *)
Definition short_timeout : list event :=
  [Call "echo" Js.Null (Some 50) 0; TimerFires 0%nat; Message reply_text].

(** Three calls; the first is answered, the second times out, the third is
    drained by the shutdown. *)
Definition three_ways : list event :=
  [Call "echo" Js.Null None 0; Call "echo" Js.Null None 1;
   Message reply_text; Call "echo" Js.Null (Some 10) 2; TimerFires 1%nat;
   ShutdownBegins; Call "echo" Js.Null None 3; ShutdownDrains].

(** A reply to the request with the id ['req'], and a [JSON.parse] that
    knows this one text. *)
Definition reply_req_text : string := "{'jsonrpc':'2.0','result':'r','id':'req'}".

Definition reply_req_object : Js.value :=
  Js.Obj [("jsonrpc", Js.Str "2.0"); ("result", Js.Str "r");
          ("id", Js.Str "req")].

Definition parse_req (text : string) : option Js.value :=
  if decide (text = reply_req_text) then Some reply_req_object else None.

(** Two calls under the same id, one reply, then the timer of the first
    call. *)
Definition overwritten : list event :=
  [Call "echo" Js.Null None 0; Call "echo" Js.Null None 0;
   Message reply_req_text; TimerFires 0%nat].

End ClientExamples.

(** *** A response with a result and an error *)

Module ErrorReplyExamples.
Import JsonRpc Client.

(** The text of a response to request 1 that carries a result and an error,
    the object it parses to, what the error schema reads from it, and a
    [JSON.parse] that knows this one text. *)
Definition mixed_text : string :=
  "{'jsonrpc':'2.0','id':1,'result':'done','error':{'code':-32603,'message':'failed'}}".

Definition mixed_reply : Js.value :=
  Js.Obj [("jsonrpc", Js.Str "2.0"); ("id", Js.Num (Js.num 1));
          ("result", Js.Str "done");
          ("error", Js.Obj [("code", Js.Num (Js.num (-32603)));
                            ("message", Js.Str "failed")])].

Definition mixed_parsed : JsonRpcErrorResponse :=
  {| er_id := Some (inl (Js.num 1));
     er_error := {| eo_code := Js.num (-32603);
                    eo_message := "failed";
                    eo_data := Js.Undefined |} |}.

Definition parse_mixed (text : string) : option Js.value :=
  if decide (text = mixed_text) then Some mixed_reply else None.

(** The client with one call pending. *)
Definition one_pending : t :=
  call "echo" Js.Null None 0 (create ClientExamples.defaults).

End ErrorReplyExamples.

(** *** Where runs of the client end *)

Module RunExamples.
Import JsonRpc Client.

(** The state in which a run from a fresh client ends (the fresh client when
    the run cannot happen). *)
Definition end_of (JSON_parse : string → option Js.value) (a : args)
    (evs : list event) : t :=
  default (create a) (run JSON_parse evs (create a)).

Definition three_ways_end : t :=
  end_of ClientExamples.parse_reply ClientExamples.defaults
    ClientExamples.three_ways.

(** A shutdown that began with one request pending, and what happens while
    it waits: a call, the reply to the pending request, another call. *)
Definition shutting_down : t :=
  gracefulShutdown_begin ErrorReplyExamples.one_pending.

Definition while_waiting : list event :=
  [Call "echo" Js.Null None 5; Message ClientExamples.reply_text;
   Call "echo" Js.Null (Some 10) 6].

Definition while_waiting_end : t :=
  default shutting_down
    (run ClientExamples.parse_reply while_waiting shutting_down).

End RunExamples.

(** *** More messages for the dispatcher *)

Module MoreDispatchExamples.
Import JsonRpc Server.

(** A notification for a method nobody registered. *)
Definition stray_notification : Js.value :=
  Js.Obj [("jsonrpc", Js.Str "2.0"); ("method", Js.Str "log")].

Definition stray_parsed : JsonRpcNotification :=
  {| nt_method := "log"; nt_params := Js.Undefined |}.

(** A request with the id [0] for a method nobody registered. *)
Definition request_zero : Js.value :=
  Js.Obj [("jsonrpc", Js.Str "2.0"); ("method", Js.Str "nothing");
          ("id", Js.Num (Js.num 0))].

Definition request_zero_parsed : JsonRpcRequest :=
  {| rq_method := "nothing"; rq_params := Js.Undefined;
     rq_id := inl (Js.num 0) |}.

(** An echo request with the id [0] and params without [message]. *)
Definition echo_zero : Js.value :=
  DispatchExamples.message_with_id "echo" [("wrong_param", Js.Str "value")]
    (Js.Num (Js.num 0)).

Definition echo_zero_parsed : JsonRpcRequest :=
  {| rq_method := "echo";
     rq_params := Js.Obj [("wrong_param", Js.Str "value")];
     rq_id := inl (Js.num 0) |}.

(** Notification handlers whose ['log'] handler throws
    [new JsonRpcError({ requestId: 'abc', error: { code: -32004, message:
    'no log' } })]. *)
Definition complaining : gmap string NotificationHandler :=
  {[ "log" :=
       {| nh_paramsSchema := inl;
          nh_handler := λ _,
            Throw (ThrowJsonRpcError
                     {| Errors.requestId := Js.Str "abc";
                        Errors.code := Js.num (-32004);
                        Errors.message := "no log";
                        Errors.data := Js.Undefined;
                        Errors.custom := false |}) |} ]}.

(** A message whose [id] is an object. *)
Definition object_id : Js.value :=
  Js.Obj [("jsonrpc", Js.Str "2.0"); ("method", Js.Str "echo");
          ("id", Js.Obj [("n", Js.Num (Js.num 1))])].

End MoreDispatchExamples.

(** *** Transports with messages in flight *)

Module TransportExamples.
Import TargetClient TargetClientQueue.

(** Two messages were sent and wait for their responses. *)
Definition first : PendingMessage :=
  {| pm_message := js "ping"; pm_promise := 0; pm_timeoutId := 0 |}.

Definition second : PendingMessage :=
  {| pm_message := js "status"; pm_promise := 1; pm_timeoutId := 1 |}.

Definition two_queued : t :=
  with_messageQueue [first; second] (handleConnection FramingExamples.fresh).

(** [disconnect()] on that transport, and what may happen afterwards. *)
Definition shut_down : t := disconnect two_queued.

Definition aftermath : list incident :=
  [Disconnected; ReconnectTimerFires; ConnectFailed true; ConnectFailed false;
   Disconnected].

End TransportExamples.

(** *** An emitter with listeners *)

Module EmitterExamples.
Import IsoEventEmitter.

(** Callbacks are told apart by a number; two listeners for ['message']. *)
Definition two_listeners : t nat :=
  subscribe "message" 2%nat (subscribe "message" 1%nat create).

End EmitterExamples.

(** * Properties *)

(** ** The event channel *)

Section EmitterFacts.
Context {Callback : Type}.
Implicit Types (e : IsoEventEmitter.t Callback) (event : string).

Lemma listenerCount_unsubscribeAll event e :
  IsoEventEmitter.listenerCount event (IsoEventEmitter.unsubscribeAll event e).2
  = 0%nat.
Proof.
  unfold IsoEventEmitter.listenerCount, IsoEventEmitter.unsubscribeAll.
  destruct (IsoEventEmitter.callbacks e !! event) as [cbs|] eqn:Hev; simpl.
  - by rewrite lookup_insert_eq.
  - by rewrite Hev.
Qed.

Lemma unsubscribeAll_other event event' e :
  event ≠ event' →
  IsoEventEmitter.listenerCount event'
    (IsoEventEmitter.unsubscribeAll event e).2
  = IsoEventEmitter.listenerCount event' e.
Proof.
  intros Hne.
  unfold IsoEventEmitter.listenerCount, IsoEventEmitter.unsubscribeAll.
  destruct (IsoEventEmitter.callbacks e !! event); simpl; [|done].
  by rewrite lookup_insert_ne.
Qed.

(** C9. For every event name and every state of the emitter,
    [unsubscribeAll] is a total function (it cannot throw), the second of two
    calls in a row returns 0 and changes nothing, and after the first call
    the listener count of the event is 0. *)
Theorem unsubscribeAll_twice event e :
  let first := IsoEventEmitter.unsubscribeAll event e in
  let second := IsoEventEmitter.unsubscribeAll event first.2 in
  first.1 = IsoEventEmitter.listenerCount event e
  ∧ second.1 = 0%nat
  ∧ second.2 = first.2
  ∧ IsoEventEmitter.listenerCount event first.2 = 0%nat.
Proof.
  unfold IsoEventEmitter.unsubscribeAll, IsoEventEmitter.listenerCount.
  destruct (IsoEventEmitter.callbacks e !! event) as [cbs|] eqn:Hev; simpl.
  - rewrite lookup_insert_eq. simpl. rewrite insert_insert_eq. done.
  - rewrite Hev. done.
Qed.

End EmitterFacts.

(** ** The error codes *)

(** C4. The standard error codes of [errors.ts] are exactly these integers. *)
Theorem standard_error_codes :
  Errors.PARSE_ERROR Errors.JsonRpcErrorCodes = -32700
  ∧ Errors.INVALID_REQUEST Errors.JsonRpcErrorCodes = -32600
  ∧ Errors.METHOD_NOT_FOUND Errors.JsonRpcErrorCodes = -32601
  ∧ Errors.INVALID_PARAMETERS Errors.JsonRpcErrorCodes = -32606
  ∧ Errors.INTERNAL_SERVER_ERROR Errors.JsonRpcErrorCodes = -32603
  ∧ Errors.RESOURCE_NOT_FOUND Errors.JsonRpcErrorCodes = -32004.
Proof. repeat split. Qed.

(** The second copy of the table agrees with the first one everywhere but
    in [INVALID_REQUEST]. *)
Lemma sibling_error_codes :
  Errors.INVALID_REQUEST Errors.JsonRpcErrorCodes_sibling = -3600
  ∧ Errors.JsonRpcErrorCodes_sibling
    = {| Errors.PARSE_ERROR := Errors.PARSE_ERROR Errors.JsonRpcErrorCodes;
         Errors.INVALID_REQUEST := -3600;
         Errors.METHOD_NOT_FOUND := Errors.METHOD_NOT_FOUND Errors.JsonRpcErrorCodes;
         Errors.INVALID_PARAMETERS :=
           Errors.INVALID_PARAMETERS Errors.JsonRpcErrorCodes;
         Errors.INTERNAL_SERVER_ERROR :=
           Errors.INTERNAL_SERVER_ERROR Errors.JsonRpcErrorCodes;
         Errors.RESOURCE_NOT_FOUND :=
           Errors.RESOURCE_NOT_FOUND Errors.JsonRpcErrorCodes |}.
Proof. split; reflexivity. Qed.

(** ** The wire schemas *)

Section SchemaFacts.
Import JsonRpc.

Lemma optional_any (v : Js.value) : Zod.optional Zod.any v = Some v.
Proof. by destruct v. Qed.

Lemma literal_Some (s : string) (v : Js.value) (x : string) :
  Zod.literal s v = Some x ↔ v = Js.Str s ∧ x = s.
Proof.
  unfold Zod.literal. destruct v; try (split; [discriminate|by intros [? ?]]).
  destruct (decide (s0 = s)) as [->|Hne]; split.
  - intros Hx. injection Hx as <-. done.
  - intros [_ ->]. done.
  - discriminate.
  - intros [Hs _]. injection Hs as ->. done.
Qed.

Lemma string_Some (v : Js.value) (x : string) :
  Zod.string v = Some x ↔ v = Js.Str x.
Proof. destruct v; simpl; split; congruence. Qed.

Lemma number_Some (v : Js.value) (x : Js.number) :
  Zod.number v = Some x ↔ v = Js.Num x.
Proof. destruct v; simpl; split; congruence. Qed.

Lemma id_Some (v : Js.value) (i : RequestId) :
  Zod.union Zod.number Zod.string v = Some i ↔ v = id_value i.
Proof.
  unfold Zod.union, Zod.number, Zod.string.
  destruct v, i; simpl; split; intros Heq; try discriminate;
    try (injection Heq as ->; reflexivity).
Qed.

(** What [JsonRpcRequestSchema] accepts, and with which output. *)
Lemma JsonRpcRequestSchema_accepts (v : Js.value) (r : JsonRpcRequest) :
  JsonRpcRequestSchema v = Some r
  ↔ (∃ fields, v = Js.Obj fields)
    ∧ Js.get v "jsonrpc" = Js.Str "2.0"
    ∧ Js.get v "method" = Js.Str (rq_method r)
    ∧ Js.get v "id" = id_value (rq_id r)
    ∧ Js.get v "params" = rq_params r.
Proof.
  unfold JsonRpcRequestSchema, Zod.refine, Zod.object. split.
  - destruct v as [| | | | |?|fields]; try discriminate. intros H.
    apply bind_Some in H as (data & H & Hc). simpl in Hc. injection Hc as <-.
    apply bind_Some in H as (x & Hv & H). apply literal_Some in Hv as [Hv _].
    apply bind_Some in H as (m & Hm & H). apply string_Some in Hm.
    apply bind_Some in H as (p & Hp & H). rewrite optional_any in Hp.
    injection Hp as <-.
    apply bind_Some in H as (i & Hi & H). apply id_Some in Hi.
    injection H as <-. simpl. eauto 10.
  - intros ([fields ->] & Hv & Hm & Hi & Hp).
    rewrite Hv, Hm, optional_any, Hp.
    apply id_Some in Hi. rewrite Hi. simpl.
    destruct (decide ("2.0" = "2.0")); [|done]. simpl. by destruct r.
Qed.

(** A value that validates as a request has an [id] key. *)
Lemma JsonRpcRequestSchema_has_id (v : Js.value) (r : JsonRpcRequest) :
  JsonRpcRequestSchema v = Some r → Js.has_property "id" v = Some true.
Proof.
  intros H. apply JsonRpcRequestSchema_accepts in H
    as ([fields ->] & _ & _ & Hi & _).
  simpl in *. destruct (Js.assoc fields "id") as [x|] eqn:Hx.
  - by rewrite bool_decide_eq_true_2.
  - simpl in Hi. by destruct (rq_id r).
Qed.

(** C8 (the code at the input of the repository's test 'Request with empty
    method should fail'): [JsonRpcRequestSchema] accepts a request whose
    method is the empty string, because [method] is declared as a plain
    [z.string()]. *)
Theorem JsonRpcRequestSchema_accepts_empty_method :
  JsonRpcRequestSchema
    (Js.Obj [("jsonrpc", Js.Str "2.0"); ("method", Js.Str "");
             ("id", Js.Str "test-id")])
  = Some {| rq_method := ""; rq_params := Js.Undefined;
            rq_id := inr "test-id" |}.
Proof. reflexivity. Qed.

(** The other half of the data model holds: an [id] that is a boolean,
    [null], an object, an array or missing is rejected. *)
Lemma JsonRpcRequestSchema_id_string_or_number (v : Js.value) :
  match Js.get v "id" with
  | Js.Num _ | Js.Str _ => True
  | _ => JsonRpcRequestSchema v = None
  end.
Proof.
  destruct (Js.get v "id") eqn:Hi; try done;
    destruct (JsonRpcRequestSchema v) as [r|] eqn:Hr; try done;
    apply JsonRpcRequestSchema_accepts in Hr as (_ & _ & _ & Hi' & _);
    rewrite Hi in Hi'; by destruct (rq_id r).
Qed.

End SchemaFacts.

(** ** The server dispatcher *)

Section DispatcherFacts.
Import JsonRpc Server.

Variable codes : Errors.codes.
Variable handlers : gmap string RequestHandler.
Variable notifications : option (gmap string NotificationHandler).
Variable zodMessage : Js.value → string.

(** C2, as the code has it. A decoded object or array that has no [id] key
    and fails the notification schema is answered: [handleMessage] returns an
    ErrorResponse with code [INVALID_REQUEST] and id [null], never [null]. *)
Theorem handleMessage_invalid_notification (serverMessage : Js.value) :
  Js.has_property "id" serverMessage = Some false →
  JsonRpcNotificationSchema serverMessage = None →
  handleMessage codes handlers notifications zodMessage serverMessage
  = Done (Some (ErrorResponse Js.Null
                  (Js.num (Errors.INVALID_REQUEST codes))
                  (Js.Str ("invalid JSON RPC request: "
                           +:+ zodMessage serverMessage))
                  None)).
Proof.
  intros Hid Hschema. unfold handleMessage. rewrite Hid, Hschema. simpl.
  by rewrite andb_false_r.
Qed.

(** A request that passes validation reaches [handleRpcRequest]. *)
Lemma handleMessage_request (serverMessage : Js.value) (request : JsonRpcRequest) :
  JsonRpcRequestSchema serverMessage = Some request →
  handleMessage codes handlers notifications zodMessage serverMessage
  = match handleRpcRequest codes handlers request with
    | Return r => Done (Some r)
    | Throw error => Done (handleMessage_catch codes (inl request) error)
    end.
Proof.
  intros Hschema. unfold handleMessage.
  rewrite (JsonRpcRequestSchema_has_id _ _ Hschema), Hschema. simpl.
  by destruct (handleRpcRequest codes handlers request).
Qed.

(** A handler that throws makes [handleRpcRequest] throw the same value. *)
Lemma handleRpcRequest_throws (request : JsonRpcRequest)
    (method : RequestHandler) (params : Js.value) (error : thrown) :
  handlers !! rq_method request = Some method →
  rh_paramsSchema method (rq_params request) = inl params →
  rh_handler method params = Throw error →
  handleRpcRequest codes handlers request = Throw error.
Proof.
  intros Hm Hp Hh. unfold handleRpcRequest. by rewrite Hm, Hp, Hh.
Qed.


(** The falsy case: nothing is returned for the request. *)
Lemma handleMessage_handler_throws_falsy (serverMessage : Js.value)
    (request : JsonRpcRequest) (method : RequestHandler)
    (params thrownValue : Js.value) :
  JsonRpcRequestSchema serverMessage = Some request →
  handlers !! rq_method request = Some method →
  rh_paramsSchema method (rq_params request) = inl params →
  rh_handler method params = Throw (ThrowValue thrownValue) →
  Js.truthy thrownValue = false →
  handleMessage codes handlers notifications zodMessage serverMessage
  = Done None.
Proof.
  intros Hschema Hm Hp Hh Hfalsy.
  rewrite (handleMessage_request _ _ Hschema).
  rewrite (handleRpcRequest_throws _ _ _ _ Hm Hp Hh).
  unfold handleMessage_catch. simpl. by rewrite Hfalsy.
Qed.

End DispatcherFacts.


(** *** The dispatcher tests of the repository, on the model *)

Section DispatcherTests.
Import JsonRpc Server DispatchExamples.

(** 'Handles valid request' *)
Example dispatch_echo :
  dispatch (message_with_id "echo" [("message", Js.Str "hello")] (Js.Str "test-1"))
  = Done (Some (SuccessResponse (inr "test-1") (Js.Str "hello"))).
Proof. reflexivity. Qed.

(** 'Returns method not found error' *)
Example dispatch_unknown_method :
  dispatch (Js.Obj [("jsonrpc", Js.Str "2.0"); ("method", Js.Str "unknown_method");
                    ("id", Js.Str "test-2")])
  = Done (Some (ErrorResponse (Js.Str "test-2") (Js.num (-32601))
                  (Js.Str "unable to find method unknown_method")
                  (Some Js.Undefined))).
Proof. reflexivity. Qed.

(** 'Returns invalid parameters error' *)
Example dispatch_invalid_parameters :
  dispatch (message_with_id "echo" [("wrong_param", Js.Str "value")]
              (Js.Str "test-3"))
  = Done (Some (ErrorResponse (Js.Str "test-3") (Js.num (-32606))
                  (Js.Str "invalid parameters: message: expected string")
                  (Some Js.Undefined))).
Proof. reflexivity. Qed.

(** 'Returns invalid request error for malformed message' *)
Example dispatch_malformed_request :
  dispatch (Js.Obj [("method", Js.Str "echo"); ("id", Js.Str "test-4")])
  = Done (Some (ErrorResponse (Js.Str "test-4") (Js.num (-32600))
                  (Js.Str "invalid JSON RPC request: ") None)).
Proof. reflexivity. Qed.

(** 'Handles notification with unknown method' *)
Example dispatch_unknown_notification :
  dispatch (Js.Obj [("jsonrpc", Js.Str "2.0");
                    ("method", Js.Str "unknown_notification")])
  = Done None.
Proof. reflexivity. Qed.

(** 'Returns parse error for invalid JSON' *)
Example dispatch_invalid_json :
  handleRawMessage Errors.JsonRpcErrorCodes test_handlers None no_issue_text
    (λ _, None) "{'invalid': json}"
  = Done (Some (ErrorResponse Js.Null (Js.num (-32700))
                  (Js.Str "invalid JSON payload structure") None)).
Proof. reflexivity. Qed.

(** A decoded value that is no object makes ['id' in serverMessage] throw. *)
Example dispatch_primitive :
  dispatch (Js.Num (Js.num 5)) = Uncaught.
Proof. reflexivity. Qed.

End DispatcherTests.

(** C2, as the specification words it, fails: the message without [id] and
    with version ["1.0"] has no [id] key and fails the notification schema,
    and the dispatcher does not return [null] for it. *)
Lemma handleMessage_invalid_notification_not_dropped :
  Js.has_property "id" DispatchExamples.wrong_version = Some false
  ∧ JsonRpc.JsonRpcNotificationSchema DispatchExamples.wrong_version = None
  ∧ Server.handleMessage Errors.JsonRpcErrorCodes ∅ (Some ∅)
      DispatchExamples.no_issue_text DispatchExamples.wrong_version
    ≠ Server.Done None.
Proof. repeat split. vm_compute. discriminate. Qed.

(** The theorem above at the message with version ["1.0"]. *)
Lemma handleMessage_invalid_notification_witness :
  Server.handleMessage Errors.JsonRpcErrorCodes ∅ (Some ∅)
    DispatchExamples.no_issue_text DispatchExamples.wrong_version
  = Server.Done
      (Some (Server.ErrorResponse Js.Null (Js.num (-32600))
               (Js.Str "invalid JSON RPC request: ") None)).
Proof.
  apply (handleMessage_invalid_notification Errors.JsonRpcErrorCodes ∅
           (Some ∅) DispatchExamples.no_issue_text
           DispatchExamples.wrong_version); reflexivity.
Defined.



(** ** The stream transport: framing *)

Section FramingFacts.
Import TargetClient.
Implicit Types (s line message : jsstring) (c : t).

(** *** [trim] *)

Lemma trimStart_split s :
  ∃ blanks, s = blanks ++ trimStart s
            ∧ Forall (λ ch, is_white_space ch = true) blanks.
Proof.
  induction s as [|ch s (blanks & Hs & Hb)]; simpl.
  - by exists [].
  - destruct (is_white_space ch) eqn:Hch.
    + exists (ch :: blanks). split; [by rewrite Hs at 1|by constructor].
    + by exists [].
Qed.

Lemma trimStart_head s ch :
  head (trimStart s) = Some ch → is_white_space ch = false.
Proof.
  induction s as [|ch' s IH]; simpl; [done|].
  destruct (is_white_space ch') eqn:Hch; [done|].
  simpl. by intros [= <-].
Qed.

Lemma trimStart_blank s :
  Forall (λ ch, is_white_space ch = true) s → trimStart s = [].
Proof. induction 1 as [|ch s Hch _ IH]; simpl; [done|by rewrite Hch]. Qed.

Lemma trimStart_nil s :
  trimStart s = [] → Forall (λ ch, is_white_space ch = true) s.
Proof.
  intros H. destruct (trimStart_split s) as (blanks & Hs & Hb).
  rewrite H, app_nil_r in Hs. by subst.
Qed.

Lemma trimStart_id s :
  (∀ ch, head s = Some ch → is_white_space ch = false) → trimStart s = s.
Proof.
  destruct s as [|ch s]; simpl; [done|]. intros H. by rewrite (H ch).
Qed.

(** The last code unit of [trim s] is no white space. *)
Lemma trim_last s ch : last (trim s) = Some ch → is_white_space ch = false.
Proof. unfold trim. rewrite last_reverse. apply trimStart_head. Qed.

(** The first code unit of [trim s] is no white space. *)
Lemma trim_head s ch : head (trim s) = Some ch → is_white_space ch = false.
Proof.
  unfold trim. rewrite head_reverse.
  destruct (trimStart_split (reverse (trimStart s))) as (blanks & Hs & Hb).
  intros Hlast. apply (trimStart_head s).
  apply (f_equal reverse) in Hs.
  rewrite reverse_involutive, reverse_app in Hs. rewrite Hs.
  destruct (trimStart (reverse (trimStart s))) as [|x l] using rev_ind;
    [done|].
  rewrite last_snoc in Hlast. injection Hlast as ->.
  by rewrite reverse_snoc.
Qed.

(** [trim] gives the empty string exactly on the strings of white space. *)
Lemma trim_nil s :
  trim s = [] ↔ Forall (λ ch, is_white_space ch = true) s.
Proof.
  unfold trim. split.
  - intros H. apply (f_equal reverse) in H.
    rewrite reverse_involutive in H. simpl in H.
    apply trimStart_nil in H.
    destruct (trimStart_split s) as (blanks & Hs & Hb).
    rewrite Hs. apply Forall_app. split; [done|].
    apply Forall_forall. intros x Hx.
    rewrite Forall_forall in H. apply H. by apply elem_of_reverse.
  - intros H. by rewrite (trimStart_blank s H).
Qed.

(** A trimmed string is left as it is. *)
Lemma trim_trim s : trim (trim s) = trim s.
Proof.
  unfold trim at 1.
  rewrite (trimStart_id (trim s)) by apply trim_head.
  rewrite trimStart_id, reverse_involutive; [done|].
  intros ch. rewrite head_reverse. apply trim_last.
Qed.

(** *** [processResponse] and [handleData] *)

Lemma received_snoc (es : list effect) (e : effect) :
  received (es ++ [e])
  = received es ++ match e with Received r => [r] | _ => [] end.
Proof.
  unfold received. rewrite omap_app. f_equal. by destruct e.
Qed.

Lemma processResponse_received message c :
  received (effects (processResponse message c))
  = received (effects c) ++ [message].
Proof.
  unfold processResponse. simpl.
  destruct (messageQueue c) as [|pending rest]; simpl;
    rewrite !received_snoc; simpl; by rewrite ?app_nil_r.
Qed.

Lemma processResponse_messageQueue message c :
  messageQueue (processResponse message c) = drop 1 (messageQueue c).
Proof.
  unfold processResponse. simpl.
  destruct (messageQueue c) eqn:Hq; simpl; by rewrite ?Hq.
Qed.

Lemma processResponse_buffer message c :
  buffer (processResponse message c) = buffer c.
Proof.
  unfold processResponse. simpl. by destruct (messageQueue c).
Qed.

Lemma framed_cons line lines :
  framed (line :: lines)
  = match trim line with
    | [] => framed lines
    | _ :: _ => trim line :: framed lines
    end.
Proof.
  unfold framed. rewrite fmap_cons, filter_cons.
  destruct (trim line); by case_decide.
Qed.

(** The loop of [handleData] over the complete lines. *)
Lemma handleData_loop lines c :
  let c' := foldl (λ c message,
                     match trim message with
                     | [] => c
                     | _ :: _ => processResponse (trim message) c
                     end) c lines in
  received (effects c') = received (effects c) ++ framed lines
  ∧ messageQueue c' = drop (length (framed lines)) (messageQueue c)
  ∧ buffer c' = buffer c.
Proof.
  revert c. induction lines as [|line lines IH]; intros c; simpl.
  - by rewrite app_nil_r.
  - rewrite framed_cons. destruct (trim line) as [|ch rest] eqn:Htrim.
    + apply IH.
    + destruct (IH (processResponse (ch :: rest) c)) as (Hr & Hq & Hb).
      rewrite Hr, Hq, Hb, processResponse_received,
        processResponse_messageQueue, processResponse_buffer, drop_drop.
      simpl. by rewrite <- app_assoc.
Qed.

(** [handleData]: what is delivered, what is left of the queue and of the
    buffer. *)
Lemma handleData_frames data c :
  received (effects (handleData data c))
  = received (effects c) ++ framed (complete_lines data c)
  ∧ messageQueue (handleData data c)
    = drop (length (framed (complete_lines data c))) (messageQueue c)
  ∧ buffer (handleData data c)
    = default [] (last (split_lines (buffer c ++ data))).
Proof.
  unfold handleData, complete_lines.
  destruct (handleData_loop (removelast (split_lines (buffer c ++ data)))
              (with_buffer (default [] (last (split_lines (buffer c ++ data))))
                 c)) as (Hr & Hq & Hb).
  by rewrite Hr, Hq, Hb.
Qed.

Lemma framed_trimmed lines :
  Forall (λ message,
            message ≠ [] ∧ trim message = message
            ∧ (∀ ch, head message = Some ch → is_white_space ch = false)
            ∧ (∀ ch, last message = Some ch → is_white_space ch = false))
    (framed lines).
Proof.
  unfold framed. apply Forall_forall. intros message Hin.
  apply list_elem_of_filter in Hin as [Hne Hin].
  apply list_elem_of_fmap in Hin as (line & -> & _).
  repeat split; [done|apply trim_trim|apply trim_head|apply trim_last].
Qed.

Lemma framed_blank lines :
  Forall (λ line, Forall (λ ch, is_white_space ch = true) line) lines →
  framed lines = [].
Proof.
  induction 1 as [|line lines Hline _ IH]; [done|].
  rewrite framed_cons. apply trim_nil in Hline. by rewrite Hline.
Qed.

Lemma framed_length lines :
  length (framed lines)
  = length (filter (λ line, ¬ Forall (λ ch, is_white_space ch = true) line)
              lines).
Proof.
  induction lines as [|line lines IH]; [done|].
  rewrite framed_cons.
  destruct (decide (Forall (λ ch, is_white_space ch = true) line))
    as [Hblank|Hblank].
  - rewrite filter_cons_False by tauto.
    apply trim_nil in Hblank. by rewrite Hblank.
  - rewrite filter_cons_True by done.
    destruct (trim line) eqn:Htrim; simpl; [|by rewrite IH].
    apply trim_nil in Htrim. done.
Qed.

(** What [sendMessage] writes ends with the delimiter. *)
Lemma with_newline_last message :
  last (with_newline message) = Some 10%N.
Proof.
  unfold with_newline. destruct (last message) as [ch|] eqn:Hlast.
  - destruct (N.eqb_spec ch 10); [by subst|]. apply last_snoc.
  - apply last_snoc.
Qed.

(** C10. Whatever the state and the chunk, the messages that [handleData]
    hands to the response matcher are the complete lines, trimmed, without
    those that are white space only: each one is non-empty and has no white
    space at either end; the queue loses one pending message per delivered
    message, so a line of white space only (an empty line too) consumes
    none. *)
Theorem handleData_delivers_trimmed_nonempty data c :
  ∃ delivered,
    received (effects (handleData data c)) = received (effects c) ++ delivered
    ∧ delivered = framed (complete_lines data c)
    ∧ Forall (λ message,
                message ≠ [] ∧ trim message = message
                ∧ (∀ ch, head message = Some ch → is_white_space ch = false)
                ∧ (∀ ch, last message = Some ch → is_white_space ch = false))
        delivered
    ∧ length delivered
      = length (filter (λ line,
                          ¬ Forall (λ ch, is_white_space ch = true) line)
                  (complete_lines data c))
    ∧ messageQueue (handleData data c)
      = drop (length delivered) (messageQueue c)
    ∧ (Forall (λ line, Forall (λ ch, is_white_space ch = true) line)
         (complete_lines data c) →
       delivered = []
       ∧ messageQueue (handleData data c) = messageQueue c).
Proof.
  destruct (handleData_frames data c) as (Hr & Hq & _).
  exists (framed (complete_lines data c)).
  split; [done|]. split; [done|]. split; [apply framed_trimmed|].
  split; [apply framed_length|]. split; [done|].
  intros Hblank. rewrite Hq, (framed_blank _ Hblank). done.
Qed.

End FramingFacts.

Section FramingScenario.
Import TargetClient FramingExamples.

(** C3, as the code has it. On a connection whose buffer is empty, the
    chunks [A\nB\nC], [D] and [\n] frame exactly three messages, [A], [B] and
    [CD], in that order: the unterminated [C] stays in the buffer and the
    next chunk continues it. *)
Theorem three_chunks_frame_three_messages (c : t) :
  buffer c = [] →
  received (effects (receive [chunk1; chunk2; chunk3] c))
  = received (effects c) ++ [js "A"; js "B"; js "CD"]
  ∧ buffer (receive [chunk1; chunk2; chunk3] c) = [].
Proof.
  intros Hbuf. unfold receive. simpl.
  destruct (handleData_frames chunk1 c) as (Hr1 & _ & Hb1).
  destruct (handleData_frames chunk2 (handleData chunk1 c)) as (Hr2 & _ & Hb2).
  destruct (handleData_frames chunk3 (handleData chunk2 (handleData chunk1 c)))
    as (Hr3 & _ & Hb3).
  unfold complete_lines in *.
  rewrite Hbuf in Hr1, Hb1.
  assert (E1 : framed (removelast (split_lines ([] ++ chunk1)))
               = [js "A"; js "B"]) by (vm_compute; reflexivity).
  assert (B1 : default [] (last (split_lines ([] ++ chunk1))) = js "C")
    by (vm_compute; reflexivity).
  rewrite E1 in Hr1. rewrite B1 in Hb1. rewrite Hb1 in Hr2, Hb2.
  assert (E2 : framed (removelast (split_lines (js "C" ++ chunk2))) = [])
    by (vm_compute; reflexivity).
  assert (B2 : default [] (last (split_lines (js "C" ++ chunk2))) = js "CD")
    by (vm_compute; reflexivity).
  rewrite E2 in Hr2. rewrite B2 in Hb2. rewrite Hb2 in Hr3, Hb3.
  assert (E3 : framed (removelast (split_lines (js "CD" ++ chunk3)))
               = [js "CD"]) by (vm_compute; reflexivity).
  assert (B3 : default [] (last (split_lines (js "CD" ++ chunk3))) = [])
    by (vm_compute; reflexivity).
  rewrite E3 in Hr3. rewrite B3 in Hb3.
  split; [|done].
  rewrite Hr3, Hr2, Hr1, app_nil_r, <- app_assoc. done.
Qed.

End FramingScenario.

(** The theorem above on a fresh connection. *)
Lemma three_chunks_frame_three_messages_witness :
  TargetClient.received
    (TargetClient.effects
       (TargetClient.receive
          [FramingExamples.chunk1; FramingExamples.chunk2;
           FramingExamples.chunk3] FramingExamples.fresh))
  = [TargetClient.js "A"; TargetClient.js "B"; TargetClient.js "CD"]
  ∧ TargetClient.buffer
      (TargetClient.receive
         [FramingExamples.chunk1; FramingExamples.chunk2;
          FramingExamples.chunk3] FramingExamples.fresh) = [].
Proof.
  apply (three_chunks_frame_three_messages FramingExamples.fresh).
  reflexivity.
Defined.

(** C3, as the specification words it, fails: on a fresh connection the three
    chunks do not frame the four messages [A], [B], [C], [D]. *)
Lemma three_chunks_do_not_frame_four_messages :
  TargetClient.received
    (TargetClient.effects
       (TargetClient.receive
          [FramingExamples.chunk1; FramingExamples.chunk2;
           FramingExamples.chunk3] FramingExamples.fresh))
  ≠ [TargetClient.js "A"; TargetClient.js "B"; TargetClient.js "C";
     TargetClient.js "D"].
Proof. vm_compute. discriminate. Qed.

(** ** The stream transport: reconnection *)

Section ReconnectFacts.
Import TargetClient.
Implicit Types (c : t) (incidents : list incident).

Abbreviation reached := (emitted "maxReconnectAttemptsReached").













End ReconnectFacts.

Section ReconnectPolicy.
Import TargetClient.


End ReconnectPolicy.


(** After those incidents the transport is neither connected nor
    connecting, and the reconnect timer that fires next arms the connect
    timeout of 10000 ms. *)
Example reconnect_timer_starts_an_attempt :
  let failed :=
    TargetClient.happens FramingExamples.seven_failures
      (TargetClient.handleConnection FramingExamples.fresh) in
  TargetClient.isConnected failed || TargetClient.isConnecting failed = false
  ∧ TargetClientQueue.connect_timers (TargetClient.effects failed)
    = [10000; 10000; 10000]
  ∧ TargetClientQueue.connect_timers
      (TargetClient.effects
         (TargetClient.happen failed TargetClient.ReconnectTimerFires))
    = [10000; 10000; 10000; 10000].
Proof. vm_compute. repeat split. Qed.


(** One refused connect on a transport with a listener: ['error'] and then
    ['close'] each schedule, so two timers are set for the one failure. *)
Example refused_connect_schedules_twice :
  TargetClient.reconnect_delays
    (TargetClient.effects
       (TargetClient.happens
          [TargetClient.ConnectFailed true; TargetClient.Disconnected]
          (TargetClient.connect FramingExamples.fresh)))
  = [1000; 2000].
Proof. reflexivity. Qed.

(** ** The client correlation engine *)

Section PendingMapFacts.
Import JsonRpc Client.
Implicit Types (m : PendingMap) (k : RequestId) (v : PendingRequest).

Lemma map_get_None k m : map_get k m = None ↔ k ∉ m.*1.
Proof.
  induction m as [|[k' v'] m IH]; simpl.
  - split; [intros _; apply not_elem_of_nil|done].
  - rewrite not_elem_of_cons. case_decide as Hk.
    + split; [done|]. intros [Hne _]. by destruct Hne.
    + rewrite IH. naive_solver.
Qed.

Lemma map_get_elem_of k v m :
  NoDup m.*1 → map_get k m = Some v ↔ (k, v) ∈ m.
Proof.
  induction m as [|[k' v'] m IH]; simpl; intros Hnd.
  - split; [done|]. by intros ?%elem_of_nil.
  - apply NoDup_cons in Hnd as [Hk' Hnd]. rewrite elem_of_cons.
    case_decide as Hk.
    + subst k'. split.
      * intros [= ->]. by left.
      * intros [[= ->]|Hin]; [done|].
        destruct Hk'. apply list_elem_of_fmap. by exists (k, v).
    + rewrite (IH Hnd). split; [by right|].
      intros [[= -> ->]|Hin]; [done|done].
Qed.

Lemma map_set_fresh k v m :
  map_get k m = None → map_set k v m = m ++ [(k, v)].
Proof.
  induction m as [|[k' v'] m IH]; simpl; [done|].
  case_decide; [done|]. intros Hk. by rewrite (IH Hk).
Qed.

Lemma map_delete_elem_of k k' v m :
  (k', v) ∈ map_delete k m ↔ k' ≠ k ∧ (k', v) ∈ m.
Proof.
  induction m as [|[k'' v''] m IH]; simpl.
  - split; [by intros ?%elem_of_nil|by intros [_ ?%elem_of_nil]].
  - case_decide as Hk; rewrite ?elem_of_cons, IH; naive_solver.
Qed.

Lemma map_delete_keys k m : NoDup m.*1 → NoDup (map_delete k m).*1.
Proof.
  induction m as [|[k' v'] m IH]; simpl; [done|].
  intros [Hk' Hnd]%NoDup_cons. case_decide; [by apply IH|].
  simpl. apply NoDup_cons. split; [|by apply IH].
  intros (kv & Hfst & Hin)%list_elem_of_fmap. destruct kv as [k'' v''].
  simpl in Hfst. subst k''. apply map_delete_elem_of in Hin as [_ Hin].
  apply Hk'. apply list_elem_of_fmap. by exists (k', v'').
Qed.

Lemma map_get_delete k m : map_get k (map_delete k m) = None.
Proof.
  apply map_get_None. intros (kv & Hfst & Hin)%list_elem_of_fmap.
  destruct kv as [k' v']. simpl in Hfst. subst k'.
  by apply map_delete_elem_of in Hin as [Hne _].
Qed.

End PendingMapFacts.

Section CompletionFacts.
Import JsonRpc Client.
Implicit Types (pend : PendingMap) (tms : gmap CallId Timer)
  (st : list (CallId * settlement)) (n p h : CallId) (k : RequestId)
  (pr : PendingRequest).

Lemma count_snoc p st q (s : settlement) :
  count p (st ++ [(q, s)]) = (count p st + if decide (q = p) then 1 else 0)%nat.
Proof.
  unfold count. rewrite filter_app, length_app. f_equal.
  rewrite filter_cons. simpl. by case_decide.
Qed.

Lemma invariant_init : invariant [] ∅ [] 0%nat.
Proof.
  split; simpl; try done.
  - constructor.
  - by intros k pr ?%elem_of_nil.
  - lia.
Qed.

(** Two entries of the same call are the same entry. *)
Lemma invariant_entry_inj pend tms st n k1 pr1 k2 pr2 :
  invariant pend tms st n →
  (k1, pr1) ∈ pend → (k2, pr2) ∈ pend → promise pr1 = promise pr2 →
  k1 = k2 ∧ pr1 = pr2.
Proof.
  intros Hinv H1 H2 Hp.
  destruct (inv_entry _ _ _ _ Hinv _ _ H1) as (_ & _ & [d1 Ht1] & _).
  destruct (inv_entry _ _ _ _ Hinv _ _ H2) as (_ & _ & [d2 Ht2] & _).
  rewrite Hp, Ht2 in Ht1. injection Ht1 as -> _. split; [done|].
  apply (map_get_elem_of _ _ _ (inv_keys _ _ _ _ Hinv)) in H1, H2. congruence.
Qed.

(** A call that is rejected before it registers anything. *)
Lemma invariant_early pend tms st n (s : settlement) :
  invariant pend tms st n → invariant pend tms (st ++ [(n, s)]) (S n).
Proof.
  intros Hinv. split.
  - apply Hinv.
  - intros k pr Hin.
    destruct (inv_entry _ _ _ _ Hinv _ _ Hin) as (Hlt & Hto & Ht & Hc).
    repeat split; [lia|done..|].
    rewrite count_snoc, Hc. case_decide; [lia|done].
  - apply Hinv.
  - intros p Hlt Hno. rewrite count_snoc. case_decide as Hp.
    + subst p. by rewrite (inv_future _ _ _ _ Hinv n).
    + rewrite (inv_done _ _ _ _ Hinv p); [lia|lia|done].
  - intros p Hle. rewrite count_snoc, (inv_future _ _ _ _ Hinv p) by lia.
    case_decide; [lia|done].
Qed.

(** A call that registers under an id that is not pending. *)
Lemma invariant_register pend tms st n k (method : string) (now d : Z) :
  invariant pend tms st n →
  map_get k pend = None →
  invariant
    (map_set k {| promise := n; method := method; timestamp := now;
                  timeout := n |} pend)
    (<[n := {| tm_requestId := k; tm_reject := n; tm_delay := d |}]> tms)
    st (S n).
Proof.
  intros Hinv Hfresh. rewrite (map_set_fresh _ _ _ Hfresh).
  assert (Hn : tms !! n = None).
  { destruct (tms !! n) as [tm|] eqn:Htm; [|done].
    destruct (inv_timer _ _ _ _ Hinv _ _ Htm) as (_ & pr & Hin & Hp).
    destruct (inv_entry _ _ _ _ Hinv _ _ Hin) as (Hlt & _). lia. }
  split.
  - rewrite fmap_app. simpl. apply NoDup_app. split; [apply Hinv|].
    split; [|apply NoDup_singleton].
    intros k' Hk' ->%list_elem_of_singleton.
    by apply map_get_None in Hfresh.
  - intros k' pr [Hin|Hin%list_elem_of_singleton]%elem_of_app.
    + destruct (inv_entry _ _ _ _ Hinv _ _ Hin) as (Hlt & Hto & [d' Ht] & Hc).
      repeat split; [lia|done| |done].
      exists d'. rewrite lookup_insert_ne by lia. done.
    + injection Hin as -> ->. simpl.
      repeat split; [lia| |by apply (inv_future _ _ _ _ Hinv)].
      exists d. by rewrite lookup_insert_eq.
  - intros h tm. rewrite lookup_insert. case_decide as Hh.
    + intros [= <-]. simpl. split; [done|]. eexists. split.
      * apply elem_of_app. right. by apply list_elem_of_singleton.
      * done.
    + intros Htm. destruct (inv_timer _ _ _ _ Hinv _ _ Htm) as (? & pr & ? & ?).
      split; [done|]. exists pr. split; [|done]. apply elem_of_app. by left.
  - intros p Hlt Hno. apply (inv_done _ _ _ _ Hinv).
    + destruct (decide (p = n)) as [->|]; [|lia].
      exfalso.
      apply (Hno k {| promise := n; method := method; timestamp := now;
                      timeout := n |}); [|done].
      apply elem_of_app. right. by apply list_elem_of_singleton.
    + intros k' pr Hin. apply (Hno k'). apply elem_of_app. by left.
  - intros p Hle. apply (inv_future _ _ _ _ Hinv). lia.
Qed.

(** A pending entry is claimed: it is removed, its timer is cleared (or has
    just fired) and its promise is settled once. *)
Lemma invariant_complete pend tms st n k pr (s : settlement) :
  invariant pend tms st n →
  (k, pr) ∈ pend →
  invariant (map_delete k pend) (delete (promise pr) tms)
    (st ++ [(promise pr, s)]) n.
Proof.
  intros Hinv Hin.
  destruct (inv_entry _ _ _ _ Hinv _ _ Hin) as (Hlt & Hto & [d Ht] & Hc).
  split.
  - apply map_delete_keys, Hinv.
  - intros k' pr' [Hne Hin']%map_delete_elem_of.
    destruct (inv_entry _ _ _ _ Hinv _ _ Hin') as (Hlt' & Hto' & [d' Ht'] & Hc').
    assert (Hp : promise pr ≠ promise pr').
    { intros Hp. by destruct (invariant_entry_inj _ _ _ _ _ _ _ _ Hinv Hin Hin' Hp). }
    repeat split; [done..| |].
    + exists d'. by rewrite lookup_delete_ne.
    + rewrite count_snoc, Hc'. by case_decide.
  - intros h tm. rewrite lookup_delete. case_decide as Hh; [done|].
    intros Htm. destruct (inv_timer _ _ _ _ Hinv _ _ Htm) as (Hr & pr' & Hin' & Hp').
    split; [done|]. exists pr'. split; [|done].
    apply map_delete_elem_of. split; [|done].
    intros Hk. rewrite Hk in Hin'.
    apply (map_get_elem_of _ _ _ (inv_keys _ _ _ _ Hinv)) in Hin, Hin'.
    congruence.
  - intros p Hp Hno. rewrite count_snoc. case_decide as Hpp.
    + subst p. by rewrite Hc.
    + rewrite (inv_done _ _ _ _ Hinv p); [lia|done|].
      intros k' pr' Hin' Heq. apply (Hno k' pr'); [|done].
      apply map_delete_elem_of. split; [|done].
      intros ->.
      apply (map_get_elem_of _ _ _ (inv_keys _ _ _ _ Hinv)) in Hin, Hin'.
      congruence.
  - intros p Hle. rewrite count_snoc, (inv_future _ _ _ _ Hinv p) by done.
    case_decide; [lia|done].
Qed.

Lemma count_app p st1 st2 : count p (st1 ++ st2) = (count p st1 + count p st2)%nat.
Proof. unfold count. by rewrite filter_app, length_app. Qed.

(** The promises of the pending entries are pairwise different. *)
Lemma invariant_promises pend tms st n :
  invariant pend tms st n → NoDup ((λ kv, promise kv.2) <$> pend).
Proof.
  intros Hinv. apply NoDup_fmap_2_strong.
  - intros [k1 pr1] [k2 pr2] H1 H2 Hp. simpl in Hp.
    by destruct (invariant_entry_inj _ _ _ _ _ _ _ _ Hinv H1 H2 Hp) as [-> ->].
  - eapply NoDup_fmap_1, (inv_keys _ _ _ _ Hinv).
Qed.

Lemma count_rejections (l : PendingMap) p (s : settlement) :
  NoDup ((λ kv, promise kv.2) <$> l) →
  count p ((λ kv, (promise kv.2, s)) <$> l)
  = if decide (p ∈ (λ kv, promise kv.2) <$> l) then 1%nat else 0%nat.
Proof.
  induction l as [|[k pr] l IH]; intros Hnd.
  - rewrite decide_False; [done|]. by intros ?%elem_of_nil.
  - rewrite !fmap_cons in *. simpl in *.
    apply NoDup_cons in Hnd as [Hpr Hnd].
    change ((promise pr, s) :: ((λ kv, (promise kv.2, s)) <$> l))
      with ([(promise pr, s)] ++ ((λ kv, (promise kv.2, s)) <$> l)).
    rewrite count_app, (IH Hnd). unfold count. rewrite filter_cons. simpl.
    repeat case_decide; simpl; try done; exfalso; set_solver.
Qed.

Lemma lookup_clear_all (l : PendingMap) tms h :
  foldl (λ t kv, delete (timeout kv.2) t) tms l !! h
  = if decide (h ∈ (λ kv, timeout kv.2) <$> l) then None else tms !! h.
Proof.
  revert tms. induction l as [|[k pr] l IH]; intros tms.
  - rewrite decide_False; [done|]. by intros ?%elem_of_nil.
  - rewrite fmap_cons. simpl. rewrite IH, lookup_delete.
    repeat case_decide; simpl; try done; exfalso; set_solver.
Qed.

(** The drain: every pending promise is rejected once, every timer is
    cleared and the map is emptied. *)
Lemma invariant_cancel pend tms st n (s : settlement) :
  invariant pend tms st n →
  invariant [] (foldl (λ t kv, delete (timeout kv.2) t) tms pend)
    (st ++ ((λ kv, (promise kv.2, s)) <$> pend)) n.
Proof.
  intros Hinv. pose proof (invariant_promises _ _ _ _ Hinv) as Hnd.
  assert (Hcount : ∀ p, count p (st ++ ((λ kv, (promise kv.2, s)) <$> pend))
                        = if decide (p < n)%nat then 1%nat else 0%nat).
  { intros p. rewrite count_app, (count_rejections _ _ _ Hnd).
    destruct (decide (p ∈ (λ kv, promise kv.2) <$> pend)) as [Hin|Hin].
    - apply list_elem_of_fmap in Hin as ([k pr] & -> & Hin). simpl.
      destruct (inv_entry _ _ _ _ Hinv _ _ Hin) as (Hlt & _ & _ & ->).
      by rewrite decide_True.
    - case_decide as Hp.
      + rewrite (inv_done _ _ _ _ Hinv p Hp); [done|].
        intros k pr Hin' <-. apply Hin, list_elem_of_fmap. by exists (k, pr).
      + rewrite (inv_future _ _ _ _ Hinv p); [done|lia]. }
  split.
  - constructor.
  - by intros k pr ?%elem_of_nil.
  - intros h tm. rewrite lookup_clear_all. case_decide as Hh; [done|].
    intros Htm. destruct (inv_timer _ _ _ _ Hinv _ _ Htm) as (_ & pr & Hin & Hp).
    destruct (inv_entry _ _ _ _ Hinv _ _ Hin) as (_ & Hto & _).
    destruct Hh. apply list_elem_of_fmap. exists (tm_requestId tm, pr).
    simpl. split; [congruence|done].
  - intros p Hp _. by rewrite Hcount, decide_True.
  - intros p Hp. rewrite Hcount, decide_False; [done|lia].
Qed.

End CompletionFacts.

Section EngineFacts.
Import JsonRpc Client.

Variable JSON_parse : string → option Js.value.

(** *** The type guards decide between the two kinds of response *)

Lemma isJsonRpcSuccessResponse_success (r : JsonRpcSuccessResponse) :
  isJsonRpcSuccessResponse (inl r) = true.
Proof. by destruct r as [result [n|s]]. Qed.

Lemma isJsonRpcSuccessResponse_error (r : JsonRpcErrorResponse) :
  isJsonRpcSuccessResponse (inr r) = false.
Proof.
  unfold isJsonRpcSuccessResponse. apply andb_false_iff. by right.
Qed.

Lemma isJsonRpcErrorResponse_error (r : JsonRpcErrorResponse) :
  isJsonRpcErrorResponse (inr r) = true.
Proof.
  destruct r as [[[n|s]|] [code message data]];
    unfold isJsonRpcErrorResponse, JsonRpcErrorResponseSchema,
      ErrorObjectSchema; simpl; by rewrite optional_any.
Qed.

(** *** Each event keeps the invariant *)

Lemma consistent_create (a : args) : consistent (create a).
Proof. apply invariant_init. Qed.

Lemma consistent_call method params options now (c : t) :
  consistent c →
  match registers (Call method params options now) c with
  | Some requestId => map_get requestId (pendingRequests c) = None
  | None => True
  end →
  consistent (call method params options now c).
Proof.
  unfold consistent, call, registers. intros Hinv Hfresh. simpl in *.
  destruct (isShuttingDown c); simpl; [by apply invariant_early|].
  destruct (methods c !! method) as [methodDef|]; simpl in *;
    [|by apply invariant_early].
  destruct (paramsSchema methodDef params) as [validated|zodError]; simpl;
    [|by apply invariant_early].
  by apply invariant_register.
Qed.

Lemma consistent_timer (handle : CallId) (tm : Timer) (c : t) :
  consistent c → timers c !! handle = Some tm →
  consistent (timer_callback tm (clearTimeout handle c)).
Proof.
  unfold consistent, timer_callback. intros Hinv Htm. simpl.
  destruct (inv_timer _ _ _ _ Hinv _ _ Htm) as (Hr & pr & Hin & Hp).
  rewrite (proj2 (map_get_elem_of _ _ _ (inv_keys _ _ _ _ Hinv)) Hin).
  simpl. rewrite Hr, <- Hp. by apply invariant_complete.
Qed.

Lemma consistent_handleResponse (responseString : string) (c : t) :
  consistent c → consistent (handleResponse JSON_parse responseString c).
Proof.
  unfold consistent, handleResponse. intros Hinv.
  destruct (JSON_parse responseString) as [responseObject|]; [|done].
  destruct (JsonRpcResponseSchema responseObject) as [response|]; [|done].
  destruct (response_id response) as [requestId|]; [|done].
  destruct (map_get requestId (pendingRequests c)) as [pr|] eqn:Hget; [|done].
  apply (map_get_elem_of _ _ _ (inv_keys _ _ _ _ Hinv)) in Hget.
  destruct (inv_entry _ _ _ _ Hinv _ _ Hget) as (_ & Hto & _).
  destruct response as [success|errorResponse].
  - rewrite isJsonRpcSuccessResponse_success. simpl.
    destruct (methods c !! method pr) as [methodDef|]; simpl.
    + destruct (resultSchema methodDef _); simpl; rewrite Hto;
        by apply invariant_complete.
    + rewrite Hto. by apply invariant_complete.
  - rewrite isJsonRpcSuccessResponse_error, isJsonRpcErrorResponse_error.
    simpl. rewrite Hto. by apply invariant_complete.
Qed.

Lemma cancel_loop (l : PendingMap) (c : t) :
  let c' := foldl (λ c kv,
                     reject (promise kv.2)
                       (Error [Text "Client is shutting down"])
                       (clearTimeout (timeout kv.2) c)) c l in
  timers c' = foldl (λ t kv, delete (timeout kv.2) t) (timers c) l
  ∧ settled c'
    = settled c
      ++ ((λ kv, (promise kv.2,
                  Rejected (Error [Text "Client is shutting down"]))) <$> l)
  ∧ calls c' = calls c.
Proof.
  revert c. induction l as [|[k pr] l IH]; intros c; simpl.
  - by rewrite app_nil_r.
  - destruct (IH (reject (promise pr) (Error [Text "Client is shutting down"])
                    (clearTimeout (timeout pr) c))) as (Ht & Hs & Hc).
    rewrite Ht, Hs, Hc. simpl. by rewrite <- app_assoc.
Qed.

Lemma consistent_cancel (c : t) :
  consistent c → consistent (cancelPendingRequests c).
Proof.
  unfold consistent, cancelPendingRequests. intros Hinv. simpl.
  destruct (cancel_loop (pendingRequests c) c) as (Ht & Hs & Hc).
  rewrite Ht, Hs, Hc. by apply invariant_cancel.
Qed.

Lemma consistent_step (ev : event) (c c' : t) :
  consistent c →
  match registers ev c with
  | Some requestId => map_get requestId (pendingRequests c) = None
  | None => True
  end →
  step JSON_parse ev c = Some c' →
  consistent c'.
Proof.
  intros Hinv Hfresh Hstep. destruct ev; simpl in Hstep.
  - injection Hstep as <-. by apply consistent_call.
  - destruct (timers c !! handle) as [tm|] eqn:Htm; [|done].
    injection Hstep as <-. by apply consistent_timer.
  - injection Hstep as <-. by apply consistent_handleResponse.
  - by injection Hstep as <-.
  - destruct (isShuttingDown c); [|done].
    injection Hstep as <-. by apply consistent_cancel.
Qed.

Lemma consistent_run (evs : list event) (c c' : t) :
  consistent c → collision_free JSON_parse evs c →
  run JSON_parse evs c = Some c' → consistent c'.
Proof.
  revert c. induction evs as [|ev evs IH]; intros c Hinv Hfree Hrun;
    simpl in *.
  - by injection Hrun as <-.
  - destruct Hfree as [Hfresh Hfree].
    destruct (step JSON_parse ev c) as [c1|] eqn:Hstep; [|done].
    simpl in Hrun. eapply IH; [|done..].
    by eapply consistent_step.
Qed.

(** *** What the invariant says about one call *)

Lemma is_pending_elem_of (p : CallId) (c : t) :
  consistent c →
  is_pending p c ↔ ∃ k pr, (k, pr) ∈ pendingRequests c ∧ promise pr = p.
Proof.
  intros Hinv. unfold is_pending. split; intros (k & pr & H & Hp);
    exists k, pr; (split; [|done]);
    by apply (map_get_elem_of _ _ _ (inv_keys _ _ _ _ Hinv)).
Qed.

Lemma consistent_exactly_once (p : CallId) (c : t) :
  consistent c → (p < calls c)%nat → exactly_once p c.
Proof.
  intros Hinv Hp. unfold exactly_once, completions.
  destruct (timers c !! p) as [tm|] eqn:Htm.
  - left. destruct (inv_timer _ _ _ _ Hinv _ _ Htm) as (_ & pr & Hin & Hpr).
    split; [|split; [done|]].
    + apply is_pending_elem_of; [done|]. by exists (tm_requestId tm), pr.
    + destruct (inv_entry _ _ _ _ Hinv _ _ Hin) as (_ & _ & _ & Hc).
      by rewrite <- Hpr.
  - right.
    assert (Hno : ∀ k pr, (k, pr) ∈ pendingRequests c → promise pr ≠ p).
    { intros k pr Hin <-.
      destruct (inv_entry _ _ _ _ Hinv _ _ Hin) as (_ & _ & [d Ht] & _).
      congruence. }
    split; [|split; [done|]].
    + intros (k & pr & Hin & Hpr)%is_pending_elem_of; [|done].
      by apply (Hno k pr).
    + by apply (inv_done _ _ _ _ Hinv).
Qed.

Lemma consistent_timer_completes (p : CallId) (c : t) :
  consistent c → is_pending p c →
  ∃ c', step JSON_parse (TimerFires p) c = Some c'
        ∧ completions p c' = 1%nat ∧ ¬ is_pending p c'.
Proof.
  intros Hinv Hpend.
  pose proof Hpend as (k & pr & Hin & Hpr)%is_pending_elem_of; [|done].
  destruct (inv_entry _ _ _ _ Hinv _ _ Hin) as (Hlt & _ & [d Ht] & _).
  rewrite Hpr in Ht, Hlt. simpl. rewrite Ht. simpl. eexists. split; [done|].
  set (c' := timer_callback _ _).
  assert (Hinv' : consistent c') by (by eapply consistent_timer).
  assert (Hcalls : calls c' = calls c).
  { unfold c', timer_callback. simpl. by destruct (map_get k _). }
  assert (Htimer : timers c' !! p = None).
  { unfold c', timer_callback. simpl.
    destruct (map_get k _); simpl; by rewrite lookup_delete_eq. }
  destruct (consistent_exactly_once p c' Hinv') as [(_ & [? Hsome] & _)|(? & _ & ?)];
    [lia|congruence|done].
Qed.

(** C1, as the code has it. In every run of the engine (calls, responses,
    timer fires and the shutdown drain, in any order) in which no call is
    given an id that is still pending, every call made so far is in one of
    two states: pending with its timer armed and no completion yet, or not
    pending, its timer gone, and completed exactly once; and a pending call
    is completed by its timer, which can fire.  So no call is completed twice
    and none is left without a completion. *)
Theorem exactly_one_completion_without_collisions (a : args)
    (evs : list event) :
  collision_free JSON_parse evs (create a) →
  exactly_one_completion JSON_parse a evs.
Proof.
  intros Hfree c Hrun p Hp.
  assert (Hinv : consistent c)
    by (eapply consistent_run; [apply consistent_create|done..]).
  split; [by apply consistent_exactly_once|].
  by apply consistent_timer_completes.
Qed.

End EngineFacts.

(** *** The default id generator never collides *)

Section DefaultGenerator.
Import JsonRpc Client.

Variable JSON_parse : string → option Js.value.

Lemma num_inj (a b : Z) : Js.num a = Js.num b → a = b.
Proof.
  unfold Js.num. intros H. apply (f_equal Qcanon.this) in H. simpl in H.
  assert (Heq : (inject_Z a == inject_Z b)%Q).
  { rewrite <- (Qred_correct (inject_Z a)), <- (Qred_correct (inject_Z b)).
    by rewrite H. }
  unfold Qeq in Heq. simpl in Heq. lia.
Qed.

Lemma map_delete_subseteq (k k' : RequestId) (m : PendingMap) :
  k' ∈ (map_delete k m).*1 → k' ∈ m.*1.
Proof.
  intros ([k'' v] & -> & Hin)%list_elem_of_fmap.
  apply map_delete_elem_of in Hin as [_ Hin].
  apply list_elem_of_fmap. by exists (k'', v).
Qed.

Lemma map_set_keys (k k' : RequestId) (v : PendingRequest) (m : PendingMap) :
  k' ∈ (map_set k v m).*1 → k' = k ∨ k' ∈ m.*1.
Proof.
  induction m as [|[k'' v''] m IH]; simpl.
  - intros ->%list_elem_of_singleton. by left.
  - case_decide as Hk; simpl; rewrite !elem_of_cons; naive_solver.
Qed.

Lemma below_counter_fresh (c : t) :
  below_counter c → map_get (next_id c) (pendingRequests c) = None.
Proof.
  intros [Hgen Hkeys]. unfold next_id. rewrite Hgen.
  apply map_get_None. intros (z & Heq & Hlt)%Hkeys.
  assert (Hz : nextRequestId c = z) by (apply num_inj; congruence). lia.
Qed.

Lemma below_counter_cancel_loop (l : PendingMap) (c : t) :
  let c' := foldl (λ c kv,
                     reject (promise kv.2)
                       (Error [Text "Client is shutting down"])
                       (clearTimeout (timeout kv.2) c)) c l in
  generateId c' = generateId c ∧ nextRequestId c' = nextRequestId c.
Proof.
  revert c. induction l as [|[k pr] l IH]; intros c; simpl; [done|].
  destruct (IH (reject (promise pr) (Error [Text "Client is shutting down"])
                  (clearTimeout (timeout pr) c))) as [-> ->].
  done.
Qed.

Lemma below_counter_step (ev : event) (c c' : t) :
  below_counter c → step JSON_parse ev c = Some c' → below_counter c'.
Proof.
  intros [Hgen Hkeys] Hstep.
  destruct ev as [m params options now|handle|responseString| |];
    simpl in Hstep.
  - injection Hstep as <-. unfold call. simpl.
    destruct (isShuttingDown c); [done|].
    destruct (methods c !! m) as [methodDef|]; [|done].
    destruct (paramsSchema methodDef params); [|done].
    split; simpl; [done|]. rewrite Hgen. unfold next_id. simpl. rewrite Hgen.
    intros k [->|Hin]%map_set_keys.
    + exists (nextRequestId c). split; [done|lia].
    + destruct (Hkeys k Hin) as (z & -> & Hlt). exists z. split; [done|lia].
  - destruct (timers c !! handle) as [tm|]; [|done].
    injection Hstep as <-. unfold timer_callback. simpl.
    destruct (map_get (tm_requestId tm) (pendingRequests c)); [|done].
    split; simpl; [done|]. intros k Hin%map_delete_subseteq. by apply Hkeys.
  - injection Hstep as <-. unfold handleResponse.
    destruct (JSON_parse responseString) as [responseObject|]; [|done].
    destruct (JsonRpcResponseSchema responseObject) as [response|]; [|done].
    destruct (response_id response) as [requestId|]; [|done].
    destruct (map_get requestId (pendingRequests c)) as [pr|]; [|done].
    assert (Hdel : ∀ k, k ∈ (map_delete requestId (pendingRequests c)).*1 →
                        ∃ z, k = inl (Js.num z) ∧ z < nextRequestId c)
      by (intros k Hin%map_delete_subseteq; by apply Hkeys).
    destruct (isJsonRpcSuccessResponse response).
    + simpl. destruct (methods c !! method pr) as [methodDef|]; simpl;
        [destruct (resultSchema methodDef _)|]; by split.
    + destruct (isJsonRpcErrorResponse response); [|by split].
      destruct response; by split.
  - injection Hstep as <-. by split.
  - destruct (isShuttingDown c); [|done].
    injection Hstep as <-. unfold cancelPendingRequests.
    destruct (below_counter_cancel_loop (pendingRequests c) c) as [Hg Hn].
    split; simpl; [congruence|]. by intros k ?%elem_of_nil.
Qed.

Lemma below_counter_collision_free (evs : list event) (c : t) :
  below_counter c → collision_free JSON_parse evs c.
Proof.
  revert c. induction evs as [|ev evs IH]; intros c Hc; simpl; [done|].
  split.
  - destruct ev as [m params options now|handle|responseString| |];
      simpl; try done.
    destruct (isShuttingDown c); [done|].
    destruct (methods c !! m) as [methodDef|]; simpl; [|done].
    destruct (paramsSchema methodDef params); [|done].
    by apply below_counter_fresh.
  - destruct (step JSON_parse ev c) as [c'|] eqn:Hstep; [|done].
    apply IH. by eapply below_counter_step.
Qed.

(** With the default generator ([this.nextRequestId++]) every run is free of
    collisions: the ids of sequential calls are strictly increasing. *)
Lemma default_generator_collision_free (a : args) (evs : list event) :
  a_generateRequestId a = None →
  collision_free JSON_parse evs (create a).
Proof.
  intros Hgen. apply below_counter_collision_free. split; simpl.
  - by rewrite Hgen.
  - by intros k ?%elem_of_nil.
Qed.

End DefaultGenerator.

(** *** Concrete runs *)

(** C1, as the specification words it (for every id the generator returns),
    fails: with an injected generator that returns the id of a request that
    is still pending, the second call overwrites the entry of the first; the
    timer of the first call then removes that entry and rejects the first
    call, and the second call is left with no completion, no entry and no
    timer. *)
Lemma colliding_ids_leave_a_call_uncompleted :
  ¬ Client.exactly_one_completion (λ _, None) ClientExamples.colliding
      ClientExamples.two_calls_time_out.
Proof.
  intros H. unfold Client.exactly_one_completion in H.
  destruct (Client.run (λ _, None) ClientExamples.two_calls_time_out
              (Client.create ClientExamples.colliding)) as [c|] eqn:Hrun;
    [|vm_compute in Hrun; discriminate].
  specialize (H c eq_refl 1%nat).
  vm_compute in Hrun. injection Hrun as <-.
  destruct H as [[(_ & [tm Htm] & _)|(_ & _ & Hcount)] _].
  - vm_compute. lia.
  - vm_compute in Htm. discriminate.
  - vm_compute in Hcount. discriminate.
Qed.

(** The same run, spelled out. *)
Lemma colliding_ids_final_state :
  ∃ c, Client.run (λ _, None) ClientExamples.two_calls_time_out
         (Client.create ClientExamples.colliding) = Some c
       ∧ Client.calls c = 2%nat
       ∧ Client.pendingRequests c = []
       ∧ Client.timers c = ∅
       ∧ Client.completions 0%nat c = 1%nat
       ∧ Client.completions 1%nat c = 0%nat.
Proof. eexists. split; [vm_compute; reflexivity|]. repeat split. Qed.

(** Why the condition is on the run, not on the call alone: the first of
    two calls under the same id is issued while no request is pending, and
    it is the one left without a completion when the reply consumes the
    entry (which is the second call's) and the first timer then finds
    none. *)
Example overwritten_call_is_never_completed :
  ∃ c, Client.run ClientExamples.parse_req ClientExamples.overwritten
         (Client.create ClientExamples.colliding) = Some c
       ∧ Client.pendingRequests c = []
       ∧ Client.timers c = ∅
       ∧ Client.completions 0%nat c = 0%nat
       ∧ Client.completions 1%nat c = 1%nat.
Proof. eexists. split; [vm_compute; reflexivity|]. repeat split. Qed.

(** The theorem above with the default generator, on a run in which the
    three kinds of completion all occur. *)
Lemma exactly_one_completion_witness :
  Client.exactly_one_completion ClientExamples.parse_reply
    ClientExamples.defaults ClientExamples.three_ways.
Proof.
  apply (exactly_one_completion_without_collisions ClientExamples.parse_reply
           ClientExamples.defaults ClientExamples.three_ways).
  vm_compute. repeat split.
Defined.

(** The run of the witness: the first call is resolved by its response, the
    second rejected by its timer, the third rejected by the drain, and the
    call made during the shutdown rejected at once. *)
Lemma three_ways_final_state :
  ∃ c, Client.run ClientExamples.parse_reply ClientExamples.three_ways
         (Client.create ClientExamples.defaults) = Some c
       ∧ Client.pendingRequests c = []
       ∧ Client.timers c = ∅
       ∧ Client.calls c = 4%nat
       ∧ Client.completions 0%nat c = 1%nat
       ∧ Client.completions 1%nat c = 1%nat
       ∧ Client.completions 2%nat c = 1%nat
       ∧ Client.completions 3%nat c = 1%nat.
Proof. eexists. split; [vm_compute; reflexivity|]. repeat split. Qed.

Section TimeoutFacts.
Import JsonRpc Client.

(** The timer of a request that is still registered removes the entry and
    rejects the promise of its call with an error that names the id of the
    request and [this.defaultRequestTimeout]. *)
Lemma timer_callback_registered (tm : Timer) (c : t) (pr : PendingRequest) :
  map_get (tm_requestId tm) (pendingRequests c) = Some pr →
  pendingRequests (timer_callback tm c)
  = map_delete (tm_requestId tm) (pendingRequests c)
  ∧ map_get (tm_requestId tm) (pendingRequests (timer_callback tm c)) = None
  ∧ settled (timer_callback tm c)
    = settled c
      ++ [(tm_reject tm,
           Rejected (Error [Text "Request "; IdPart (tm_requestId tm);
                            Text " timed out after ";
                            NumPart (defaultRequestTimeout c); Text "ms"]))].
Proof.
  intros Hget. unfold timer_callback. rewrite Hget. simpl.
  by rewrite map_get_delete.
Qed.

(** A response whose id is not registered changes nothing. *)
Lemma handleResponse_unknown_id (JSON_parse : string → option Js.value)
    (responseString : string) (c : t) :
  (∀ responseObject response requestId,
     JSON_parse responseString = Some responseObject →
     JsonRpcResponseSchema responseObject = Some response →
     response_id response = Some requestId →
     map_get requestId (pendingRequests c) = None) →
  handleResponse JSON_parse responseString c = c.
Proof.
  intros Hunknown. unfold handleResponse.
  destruct (JSON_parse responseString) as [responseObject|]; [|done].
  destruct (JsonRpcResponseSchema responseObject) as [response|] eqn:Hr;
    [|done].
  destruct (response_id response) as [requestId|] eqn:Hid; [|done].
  by rewrite (Hunknown _ _ _ eq_refl Hr Hid).
Qed.

End TimeoutFacts.

(** C5 (the code at [call('echo', null, { timeout: 50 })] on a client with
    the default timeout of 30000 ms): the timer is armed with 50 ms; when it
    fires the entry is removed and the promise is rejected, and the reply
    that comes later is dropped, but the message of the error names 30000,
    [this.defaultRequestTimeout], and not the 50 ms of the call. *)
Theorem timeout_message_names_the_default :
  ∃ armed c,
    Client.run ClientExamples.parse_reply [Client.Call "echo" Js.Null (Some 50) 0]
      (Client.create ClientExamples.defaults) = Some armed
    ∧ Client.tm_delay <$> Client.timers armed !! 0%nat = Some 50
    ∧ Client.run ClientExamples.parse_reply ClientExamples.short_timeout
        (Client.create ClientExamples.defaults) = Some c
    ∧ Client.pendingRequests c = []
    ∧ Client.settled c
      = [(0%nat,
          Client.Rejected
            (Client.Error
               [Client.Text "Request "; Client.IdPart (inl (Js.num 1));
                Client.Text " timed out after "; Client.NumPart 30000;
                Client.Text "ms"]))].
Proof.
  do 2 eexists. split; [vm_compute; reflexivity|].
  split; [vm_compute; reflexivity|].
  split; [vm_compute; reflexivity|]. split; reflexivity.
Qed.

(** * Further properties of the code *)

(** ** The event channel: subscribing and unsubscribing *)

Section EmitterOperations.
Import IsoEventEmitter EmitterLoop.
Context {Callback : Type} `{EqDecision Callback}.
Implicit Types (e : IsoEventEmitter.t Callback) (event : string)
  (callback : Callback) (cbs : list Callback).

(** The loop over the indices below [length pre] filters [pre] and leaves
    the rest of the array alone. *)
Lemma splice_matching_prefix callback (pre suf : list Callback) :
  splice_matching (length pre) callback (pre ++ suf)
  = filter (λ cb, cb ≠ callback) pre ++ suf.
Proof.
  revert suf. induction pre as [|x pre IH] using rev_ind; intros suf; [done|].
  rewrite length_app, Nat.add_1_r. simpl.
  rewrite <- app_assoc. simpl.
  rewrite list_lookup_middle by done.
  rewrite filter_app, filter_cons, filter_nil.
  destruct (decide (x = callback)) as [->|Hne].
  - rewrite decide_False by (intros Hn; by apply Hn).
    rewrite app_nil_r.
    replace (delete (length pre) (pre ++ callback :: suf)) with (pre ++ suf).
    + apply IH.
    + rewrite delete_middle. done.
  - rewrite decide_True by done. rewrite <- app_assoc. apply (IH (x :: suf)).
Qed.

Lemma splice_matching_filter callback cbs :
  splice_matching (length cbs) callback cbs = filter (λ cb, cb ≠ callback) cbs.
Proof.
  rewrite <- (app_nil_r cbs) at 2.
  rewrite splice_matching_prefix. by rewrite app_nil_r.
Qed.

Lemma emit_subscribe event callback e :
  emit event (subscribe event callback e) = emit event e ++ [callback].
Proof.
  unfold emit, subscribe. simpl. rewrite lookup_insert_eq.
  by destruct (callbacks e !! event).
Qed.

Lemma emit_unsubscribe_loop event callback e :
  emit event (unsubscribe_loop event callback e)
  = filter (λ cb, cb ≠ callback) (emit event e).
Proof.
  unfold emit, unsubscribe_loop. simpl.
  rewrite lookup_insert_eq, splice_matching_filter.
  by destruct (callbacks e !! event).
Qed.


(** X2. The backwards splice loop of [unsubscribe] removes every occurrence
    of the callback and keeps the other callbacks in their order; it is the
    filter that the model [unsubscribe] uses.  So the callback is not called
    any more, a callback that was never subscribed changes nothing that
    [emit] calls, and no other event is touched. *)
Theorem unsubscribe_removes_every_occurrence event callback e :
  unsubscribe_loop event callback e = unsubscribe event callback e
  ∧ emit event (unsubscribe_loop event callback e)
    = filter (λ cb, cb ≠ callback) (emit event e)
  ∧ (callback ∉ emit event (unsubscribe_loop event callback e))
  ∧ (callback ∉ emit event e →
     emit event (unsubscribe_loop event callback e) = emit event e)
  ∧ ∀ event', event' ≠ event →
      emit event' (unsubscribe_loop event callback e) = emit event' e.
Proof.
  split; [|split; [apply emit_unsubscribe_loop|split; [|split]]].
  - unfold unsubscribe_loop, unsubscribe. by rewrite splice_matching_filter.
  - rewrite emit_unsubscribe_loop. intros [Hne _]%list_elem_of_filter.
    by apply Hne.
  - intros Hnot. rewrite emit_unsubscribe_loop.
    induction (emit event e) as [|cb cbs IH]; [done|].
    apply not_elem_of_cons in Hnot as [Hne Hnot].
    rewrite filter_cons_True by done. by rewrite IH.
  - intros event' Hne. unfold emit, unsubscribe_loop. simpl.
    by rewrite lookup_insert_ne.
Qed.

(** X3. For an event whose name is not the name of a member of
    [Object.prototype], on an emitter whose [callbacks] object has its
    original prototype: after [unsubscribeAll(event)], [emit(event)] calls
    nothing, whatever is subscribed again afterwards is called alone, and
    the listeners of every other such event are the ones they were.  (At
    ['__proto__'] the assignment in [unsubscribeAll] replaces the prototype
    of [callbacks], which changes what other names find.) *)
Theorem unsubscribeAll_then_resubscribe event callback e :
  event ∉ ObjectPrototype.names → ObjectPrototype.plain e →
  let cleared := (unsubscribeAll event e).2 in
  emit event cleared = []
  ∧ emit event (subscribe event callback cleared) = [callback]
  ∧ ObjectPrototype.plain cleared
  ∧ ∀ event', event' ∉ ObjectPrototype.names → event' ≠ event →
      emit event' cleared = emit event' e
      ∧ listenerCount event' cleared = listenerCount event' e.
Proof.
  intros Hown Hplain. cbn zeta.
  assert (Hcleared : emit event (unsubscribeAll event e).2 = []).
  { unfold emit, unsubscribeAll.
    destruct (callbacks e !! event) as [cbs|] eqn:Hev; simpl.
    - by rewrite lookup_insert_eq.
    - by rewrite Hev. }
  split; [done|]. split; [by rewrite emit_subscribe, Hcleared|]. split.
  - unfold ObjectPrototype.plain, unsubscribeAll.
    destruct (callbacks e !! event); simpl; [|done].
    rewrite lookup_insert_ne; [done|]. intros ->. apply Hown.
    unfold ObjectPrototype.names. set_solver.
  - intros event' _ Hne. unfold emit, listenerCount, unsubscribeAll.
    destruct (callbacks e !! event); simpl; [|done].
    by rewrite lookup_insert_ne.
Qed.

End EmitterOperations.


(** The two listeners are called in the order 1, 2, and then 3. *)
Example subscribe_appends_run :
  IsoEventEmitter.emit "message"
    (IsoEventEmitter.subscribe "message" 3%nat EmitterExamples.two_listeners)
  = [1; 2; 3]%nat.
Proof. vm_compute. reflexivity. Qed.

Lemma unsubscribeAll_then_resubscribe_witness :
  let cleared :=
    (IsoEventEmitter.unsubscribeAll "message"
       EmitterExamples.two_listeners).2 in
  IsoEventEmitter.emit "message" cleared = []
  ∧ IsoEventEmitter.emit "message"
      (IsoEventEmitter.subscribe "message" 3%nat cleared) = [3%nat]
  ∧ ObjectPrototype.plain cleared
  ∧ ∀ event', event' ∉ ObjectPrototype.names → event' ≠ "message" →
      IsoEventEmitter.emit event' cleared
      = IsoEventEmitter.emit event' EmitterExamples.two_listeners
      ∧ IsoEventEmitter.listenerCount event' cleared
        = IsoEventEmitter.listenerCount event' EmitterExamples.two_listeners.
Proof.
  apply (unsubscribeAll_then_resubscribe "message" 3%nat
           EmitterExamples.two_listeners).
  - unfold ObjectPrototype.names. set_solver.
  - vm_compute. reflexivity.
Defined.

(** ** The wire schemas: notifications, responses and the type guards *)

Section MoreSchemaFacts.
Import JsonRpc TypeGuards.

Lemma hasOwn_has_property (v : Js.value) (k : string) (b : bool) :
  Js.has_property k v = Some b → hasOwn v k = b.
Proof. destruct v; simpl; congruence. Qed.

Lemma strict_keys (keys : list string) (fields : list (string * Js.value)) :
  forallb (λ kv, bool_decide (kv.1 ∈ keys)) fields = true
  ↔ ∀ k, is_Some (Js.assoc fields k) → k ∈ keys.
Proof.
  induction fields as [|[k' x] fields IH]; simpl.
  - split; [|done]. intros _ k [? ?]. done.
  - rewrite andb_true_iff, bool_decide_eq_true, IH. split.
    + intros [Hk' Hrest] k. case_decide as Hk; [by subst|]. apply Hrest.
    + intros Hall. split.
      * apply (Hall k'). rewrite decide_True by done. by eexists.
      * intros k Hk. apply Hall. case_decide; [by eexists|done].
Qed.

(** What [JsonRpcNotificationSchema] accepts, and with which output. *)
Lemma JsonRpcNotificationSchema_accepts (v : Js.value)
    (n : JsonRpcNotification) :
  JsonRpcNotificationSchema v = Some n
  ↔ (∃ fields, v = Js.Obj fields
               ∧ ∀ k, is_Some (Js.assoc fields k) →
                      k ∈ ["jsonrpc"; "method"; "params"])
    ∧ Js.get v "jsonrpc" = Js.Str "2.0"
    ∧ Js.get v "method" = Js.Str (nt_method n)
    ∧ Js.get v "params" = nt_params n
    ∧ nt_params n ≠ Js.Null.
Proof.
  unfold JsonRpcNotificationSchema, Zod.strict, Zod.refine, Zod.object. split.
  - destruct v as [| | | | |?|fields]; try discriminate. intros H.
    destruct (forallb _ fields) eqn:Hkeys; [|discriminate].
    pose proof (proj1 (strict_keys _ _) Hkeys) as Hin. clear Hkeys.
    apply bind_Some in H as (data & H & Hc).
    apply bind_Some in H as (x & Hv & H). apply literal_Some in Hv as [Hv _].
    apply bind_Some in H as (m & Hm & H). apply string_Some in Hm.
    apply bind_Some in H as (p & Hp & H). rewrite optional_any in Hp.
    injection Hp as <-. injection H as <-. simpl in Hc.
    destruct (not_null _) eqn:Hnull; [|discriminate]. injection Hc as <-.
    simpl. repeat split; eauto.
    intros Heq. rewrite Heq in Hnull. done.
  - intros ([fields [-> Hkeys]] & Hv & Hm & Hp & Hnull).
    rewrite (proj2 (strict_keys _ _) Hkeys).
    rewrite Hv, Hm, optional_any, Hp. simpl.
    destruct (decide ("2.0" = "2.0")); [|done]. simpl.
    destruct n as [m p]. simpl in *. by destruct p.
Qed.

(** A value that validates as a notification is an object without [id]. *)
Lemma notification_id_free (v : Js.value) (n : JsonRpcNotification) :
  JsonRpcNotificationSchema v = Some n →
  Js.has_property "id" v = Some false ∧ hasOwn v "id" = false.
Proof.
  intros Hn. apply JsonRpcNotificationSchema_accepts in Hn
    as ((fields & -> & Hkeys) & _).
  assert (Hno : ¬ is_Some (Js.assoc fields "id")).
  { intros Hid. specialize (Hkeys "id" Hid). set_solver. }
  simpl. by rewrite bool_decide_eq_false_2.
Qed.

(** X4. A value validates as a notification exactly when it is an object
    whose keys are among [jsonrpc], [method] and [params], with version
    ["2.0"], a string method (the empty string too) and params that are not
    [null].  In particular an object that has an [id] key, whatever its
    value, [null] included, is rejected, and so is everything the request
    schema accepts. *)
Theorem notification_schema_is_strict (v : Js.value) :
  (is_Some (JsonRpcNotificationSchema v)
   ↔ (∃ fields m,
        v = Js.Obj fields
        ∧ (∀ k, is_Some (Js.assoc fields k) →
                k ∈ ["jsonrpc"; "method"; "params"])
        ∧ Js.get v "jsonrpc" = Js.Str "2.0"
        ∧ Js.get v "method" = Js.Str m
        ∧ Js.get v "params" ≠ Js.Null))
  ∧ (Js.has_property "id" v = Some true → JsonRpcNotificationSchema v = None)
  ∧ (is_Some (JsonRpcRequestSchema v) → JsonRpcNotificationSchema v = None).
Proof.
  assert (Hid : Js.has_property "id" v = Some true →
                JsonRpcNotificationSchema v = None).
  { intros Hhas. destruct (JsonRpcNotificationSchema v) as [n|] eqn:Hn; [|done].
    apply JsonRpcNotificationSchema_accepts in Hn
      as ((fields & -> & Hkeys) & _).
    simpl in Hhas. injection Hhas as Hhas%bool_decide_eq_true.
    specialize (Hkeys "id" Hhas). set_solver. }
  split; [|split; [done|]].
  - split.
    + intros [n Hn]. apply JsonRpcNotificationSchema_accepts in Hn
        as ((fields & -> & Hkeys) & Hv & Hm & Hp & Hnull).
      exists fields, (nt_method n). repeat split; try done. by rewrite Hp.
    + intros (fields & m & -> & Hkeys & Hv & Hm & Hnull).
      exists {| nt_method := m; nt_params := Js.get (Js.Obj fields) "params" |}.
      apply JsonRpcNotificationSchema_accepts. simpl. eauto 10.
  - intros [r Hr]. apply Hid. by eapply JsonRpcRequestSchema_has_id.
Qed.

(** X5. The guards of [types.ts] decide the same as the schemas alone: the
    [Object.hasOwn(message, 'id')] tests add nothing, because the request
    schema needs an [id] and the notification schema forbids one; and no
    message is both a request and a notification. *)
Theorem message_guards_follow_the_schemas (message : Js.value) :
  (isJsonRpcRequest message = true ↔ is_Some (JsonRpcRequestSchema message))
  ∧ (isJsonRpcNotification message = true
     ↔ is_Some (JsonRpcNotificationSchema message))
  ∧ ¬ (isJsonRpcRequest message = true ∧ isJsonRpcNotification message = true).
Proof.
  assert (Hreq : isJsonRpcRequest message = true
                 ↔ is_Some (JsonRpcRequestSchema message)).
  { unfold isJsonRpcRequest. rewrite andb_true_iff, bool_decide_eq_true.
    split; [by intros [? _]|]. intros [r Hr]. split; [by eexists|].
    apply (hasOwn_has_property _ _ _ (JsonRpcRequestSchema_has_id _ _ Hr)). }
  assert (Hnot : isJsonRpcNotification message = true
                 ↔ is_Some (JsonRpcNotificationSchema message)).
  { unfold isJsonRpcNotification.
    rewrite andb_true_iff, bool_decide_eq_true, negb_true_iff.
    split; [by intros [? _]|]. intros [n Hn]. split; [by eexists|].
    destruct (hasOwn message "id") eqn:Hown; [|done].
    destruct (notification_id_free message n Hn). congruence. }
  split; [done|]. split; [done|].
  intros [[r Hr]%Hreq [n Hn]%Hnot].
  pose proof (JsonRpcRequestSchema_has_id _ _ Hr) as Hhas.
  destruct (notification_id_free message n Hn). congruence.
Qed.

End MoreSchemaFacts.

(** ** Responses: the two schemas, their union and the guards *)

Section ResponseSchemas.
Import JsonRpc.

(** What [JsonRpcSuccessResponseSchema] accepts, and with which output. *)
Lemma JsonRpcSuccessResponseSchema_accepts (v : Js.value)
    (r : JsonRpcSuccessResponse) :
  JsonRpcSuccessResponseSchema v = Some r
  ↔ (∃ fields, v = Js.Obj fields)
    ∧ Js.get v "jsonrpc" = Js.Str "2.0"
    ∧ Js.get v "result" = sr_result r
    ∧ Js.get v "id" = id_value (sr_id r).
Proof.
  unfold JsonRpcSuccessResponseSchema, Zod.object, Zod.any. split.
  - destruct v as [| | | | |?|fields]; try discriminate. intros H.
    apply bind_Some in H as (x & Hv & H). apply literal_Some in Hv as [Hv _].
    simpl in H. apply bind_Some in H as (i & Hi & H). apply id_Some in Hi.
    injection H as <-. simpl. eauto.
  - intros ([fields ->] & Hv & Hr & Hi). rewrite Hv, Hr, Hi. simpl.
    destruct (decide ("2.0" = "2.0")); [|done]. simpl.
    rewrite (proj2 (id_Some _ _) eq_refl). simpl. by destruct r.
Qed.

(** The envelope of what [JsonRpcErrorResponseSchema] accepts. *)
Lemma JsonRpcErrorResponseSchema_envelope (v : Js.value)
    (e : JsonRpcErrorResponse) :
  JsonRpcErrorResponseSchema v = Some e →
  (∃ fields, v = Js.Obj fields)
  ∧ Js.get v "jsonrpc" = Js.Str "2.0"
  ∧ Js.get v "id" = id_or_null_value (er_id e).
Proof.
  unfold JsonRpcErrorResponseSchema, Zod.object.
  destruct v as [| | | | |?|fields]; try discriminate. intros H.
  apply bind_Some in H as (x & Hv & H). apply literal_Some in Hv as [Hv _].
  apply bind_Some in H as (i & Hi & H).
  apply bind_Some in H as (error & _ & H). injection H as <-. cbn [er_id].
  split; [eauto|]. split; [done|].
  unfold Zod.union, Zod.number, Zod.string, Zod.null in Hi.
  destruct (Js.get (Js.Obj fields) "id"); simpl in Hi; try discriminate;
    injection Hi as <-; reflexivity.
Qed.

(** X6. Responses survive the trip through their schemas: the object of a
    success response validates as that response, alone and through the
    union; the object of an error response validates as that error
    response; and the two guards tell the two kinds apart, each answering
    [true] on its own kind only. *)
Theorem response_round_trip (s : JsonRpcSuccessResponse)
    (e : JsonRpcErrorResponse) :
  JsonRpcSuccessResponseSchema (success_object s) = Some s
  ∧ JsonRpcResponseSchema (success_object s) = Some (inl s)
  ∧ JsonRpcErrorResponseSchema (error_object e) = Some e
  ∧ isJsonRpcSuccessResponse (inl s) = true
  ∧ isJsonRpcErrorResponse (inl s) = false
  ∧ isJsonRpcSuccessResponse (inr e) = false
  ∧ isJsonRpcErrorResponse (inr e) = true.
Proof.
  assert (Hs : JsonRpcSuccessResponseSchema (success_object s) = Some s).
  { apply JsonRpcSuccessResponseSchema_accepts. simpl. eauto 10. }
  split; [done|]. split.
  { unfold JsonRpcResponseSchema, Zod.union. by rewrite Hs. }
  split.
  { destruct e as [[[n|i]|] [code message data]];
      unfold JsonRpcErrorResponseSchema, ErrorObjectSchema; simpl;
      by rewrite optional_any. }
  split; [apply isJsonRpcSuccessResponse_success|].
  split; [by destruct s as [result [n|i]]|].
  split; [apply isJsonRpcSuccessResponse_error|].
  apply isJsonRpcErrorResponse_error.
Qed.

(** An error response with a string or number id is taken by the success
    member of the union. *)
Lemma JsonRpcResponseSchema_error_with_id (v : Js.value)
    (e : JsonRpcErrorResponse) (i : RequestId) :
  JsonRpcErrorResponseSchema v = Some e → er_id e = Some i →
  JsonRpcResponseSchema v
  = Some (inl {| sr_result := Js.get v "result"; sr_id := i |}).
Proof.
  intros He Hid. pose proof (JsonRpcErrorResponseSchema_envelope _ _ He)
    as (Hobj & Hv & Hi). rewrite Hid in Hi.
  unfold JsonRpcResponseSchema, Zod.union.
  rewrite (proj2 (JsonRpcSuccessResponseSchema_accepts v
             {| sr_result := Js.get v "result"; sr_id := i |})); [done|].
  simpl. eauto.
Qed.

(** The error member of the union is reached with a [null] id only. *)
Lemma JsonRpcResponseSchema_error_member (v : Js.value)
    (e : JsonRpcErrorResponse) :
  JsonRpcResponseSchema v = Some (inr e) →
  JsonRpcErrorResponseSchema v = Some e ∧ er_id e = None.
Proof.
  unfold JsonRpcResponseSchema, Zod.union.
  destruct (JsonRpcSuccessResponseSchema v) as [s|] eqn:Hs; [discriminate|].
  destruct (JsonRpcErrorResponseSchema v) as [e'|] eqn:He; [|discriminate].
  intros [= ->]. split; [done|].
  destruct (er_id e) as [i|] eqn:Hid; [|done].
  pose proof (JsonRpcResponseSchema_error_with_id _ _ _ He Hid) as Hu.
  unfold JsonRpcResponseSchema, Zod.union in Hu. by rewrite Hs, He in Hu.
Qed.

(** X7. [JsonRpcResponseSchema] tries the success schema first, and an
    object schema that is not strict ignores the keys it does not list.  So
    a value that carries a [result] and validates as an error response with
    a string or number id comes out of the union as a success response
    with that [result]: its [error] is dropped, where the repository's test
    'Response with both result and error should fail' expects the value to
    be refused.  (A value without [result] is left out here: whether
    [z.any()] takes a missing key is the library's matter.) *)
Theorem response_with_result_and_error_is_a_success (v : Js.value)
    (e : JsonRpcErrorResponse) (i : RequestId) :
  JsonRpcErrorResponseSchema v = Some e →
  er_id e = Some i →
  Js.get v "result" ≠ Js.Undefined →
  JsonRpcResponseSchema v
  = Some (inl {| sr_result := Js.get v "result"; sr_id := i |}).
Proof.
  intros He Hid _. by apply (JsonRpcResponseSchema_error_with_id v e).
Qed.

Lemma response_with_result_and_error_is_a_success_witness :
  JsonRpcResponseSchema ErrorReplyExamples.mixed_reply
  = Some (inl {| sr_result := Js.get ErrorReplyExamples.mixed_reply "result";
                 sr_id := inl (Js.num 1) |}).
Proof.
  apply (response_with_result_and_error_is_a_success
           ErrorReplyExamples.mixed_reply ErrorReplyExamples.mixed_parsed
           (inl (Js.num 1))).
  - vm_compute. reflexivity.
  - reflexivity.
  - vm_compute. discriminate.
Defined.

End ResponseSchemas.

(** ** The client: what a response does *)

Section ClientResponses.
Import JsonRpc Client ClientCount.

Variable JSON_parse : string → option Js.value.

(** [handleResponse] either leaves the client as it is, or it has matched a
    response that the union read as a success response with the id of a
    pending request: then it deletes the entry, clears the timer and settles
    the promise, once. *)
Lemma handleResponse_cases (responseString : string) (c : t) :
  handleResponse JSON_parse responseString c = c
  ∨ ∃ responseObject success pendingRequest,
      JSON_parse responseString = Some responseObject
      ∧ JsonRpcResponseSchema responseObject = Some (inl success)
      ∧ map_get (sr_id success) (pendingRequests c) = Some pendingRequest
      ∧ handleResponse JSON_parse responseString c
        = with_settled
            (settled c
             ++ [(promise pendingRequest,
                  result_settlement (methods c !! method pendingRequest)
                    (sr_result success))])
            (clearTimeout (timeout pendingRequest)
               (with_pendingRequests
                  (map_delete (sr_id success) (pendingRequests c)) c)).
Proof.
  unfold handleResponse.
  destruct (JSON_parse responseString) as [v|] eqn:Hp; [|by left].
  destruct (JsonRpcResponseSchema v) as [[sr|e]|] eqn:Hr; [| |by left].
  - simpl response_id. cbv beta iota.
    destruct (map_get (sr_id sr) (pendingRequests c)) as [pr|] eqn:Hget;
      [|by left].
    right. exists v, sr, pr. repeat split; try done.
    rewrite isJsonRpcSuccessResponse_success.
    change (Js.get (response_object (inl sr)) "result") with (sr_result sr).
    unfold result_settlement. simpl.
    destruct (methods c !! method pr) as [methodDef|]; [|done].
    by destruct (resultSchema methodDef (sr_result sr)).
  - apply JsonRpcResponseSchema_error_member in Hr as [_ Hid].
    simpl. rewrite Hid. by left.
Qed.

(** X8. A response is consumed by the first delivery: handling the same
    text a second time changes nothing, whatever the text is. *)
Theorem handleResponse_twice (responseString : string) (c : t) :
  handleResponse JSON_parse responseString
    (handleResponse JSON_parse responseString c)
  = handleResponse JSON_parse responseString c.
Proof.
  destruct (handleResponse_cases responseString c)
    as [Hsame|(v & sr & pr & Hp & Hr & Hget & Heq)].
  - by rewrite !Hsame.
  - rewrite Heq. apply handleResponse_unknown_id.
    intros v' r' id' Hp' Hr' Hid'. simpl.
    rewrite Hp in Hp'. injection Hp' as <-.
    rewrite Hr in Hr'. injection Hr' as <-.
    simpl in Hid'. injection Hid' as <-. apply map_get_delete.
Qed.

(** X9. A response that arrives after the timer of its request has fired
    is dropped: the state stays as the timer left it, with the one
    rejection. *)
Theorem response_after_timeout_is_dropped (tm : Timer) (c : t)
    (responseString : string) (responseObject : Js.value)
    (response : JsonRpcResponse) :
  JSON_parse responseString = Some responseObject →
  JsonRpcResponseSchema responseObject = Some response →
  response_id response = Some (tm_requestId tm) →
  handleResponse JSON_parse responseString (timer_callback tm c)
  = timer_callback tm c.
Proof.
  intros Hp Hr Hid. apply handleResponse_unknown_id.
  intros v' r' id' Hp' Hr' Hid'.
  rewrite Hp in Hp'. injection Hp' as <-.
  rewrite Hr in Hr'. injection Hr' as <-.
  rewrite Hid in Hid'. injection Hid' as <-.
  unfold timer_callback.
  destruct (map_get (tm_requestId tm) (pendingRequests c)) as [pr|] eqn:Hget;
    [|done].
  simpl. apply map_get_delete.
Qed.

(** X10. A response that carries a [result] and an [error] settles the
    call as a success: for a pending request, a response with the request's
    id that validates as an error response and has a [result] is read by
    the union as a success response, so the promise is settled from the
    method's result schema applied to that [result] (resolved with the
    parsed value, or rejected for a result that does not parse), and the
    server's error is not delivered.  (A response without [result] is left
    out here, as in X7; so is a pending request whose method has the name
    of a member of [Object.prototype], which [call] never registers unless
    [methods] has it as an own property.) *)
Theorem response_with_result_and_error_settles_as_result
    (responseString : string) (responseObject : Js.value)
    (errorResponse : JsonRpcErrorResponse) (requestId : RequestId)
    (pendingRequest : PendingRequest) (c : t) :
  JSON_parse responseString = Some responseObject →
  JsonRpcErrorResponseSchema responseObject = Some errorResponse →
  er_id errorResponse = Some requestId →
  Js.get responseObject "result" ≠ Js.Undefined →
  map_get requestId (pendingRequests c) = Some pendingRequest →
  method pendingRequest ∉ ObjectPrototype.names →
  settled (handleResponse JSON_parse responseString c)
  = settled c
    ++ [(promise pendingRequest,
         result_settlement (methods c !! method pendingRequest)
           (Js.get responseObject "result"))]
  ∧ map_get requestId
      (pendingRequests (handleResponse JSON_parse responseString c)) = None.
Proof.
  intros Hp He Hid _ Hget _.
  pose proof (JsonRpcResponseSchema_error_with_id _ _ _ He Hid) as Hr.
  destruct (handleResponse_cases responseString c)
    as [Hsame|(v & sr & pr & Hp' & Hr' & Hget' & Heq)].
  - exfalso. revert Hsame. unfold handleResponse. rewrite Hp, Hr. simpl.
    rewrite Hget. rewrite isJsonRpcSuccessResponse_success.
    intros Hsame. apply (f_equal pendingRequests) in Hsame.
    assert (Hdel : pendingRequests c
                   = map_delete requestId (pendingRequests c)).
    { rewrite <- Hsame at 1.
      destruct (methods c !! method pendingRequest) as [methodDef|]; [|done].
      by destruct (resultSchema methodDef _). }
    pose proof (map_get_delete requestId (pendingRequests c)) as Hnone.
    rewrite <- Hdel in Hnone. congruence.
  - rewrite Hp in Hp'. injection Hp' as <-.
    rewrite Hr in Hr'. injection Hr' as <-. simpl in Hget'.
    rewrite Hget in Hget'. injection Hget' as <-. rewrite Heq. simpl.
    split; [done|]. apply map_get_delete.
Qed.

End ClientResponses.

Lemma response_after_timeout_is_dropped_witness :
  let tm := {| Client.tm_requestId := inl (Js.num 1); Client.tm_reject := 0%nat;
               Client.tm_delay := 30000 |} in
  Client.handleResponse ClientExamples.parse_reply ClientExamples.reply_text
    (Client.timer_callback tm ErrorReplyExamples.one_pending)
  = Client.timer_callback tm ErrorReplyExamples.one_pending.
Proof.
  apply (response_after_timeout_is_dropped ClientExamples.parse_reply
           {| Client.tm_requestId := inl (Js.num 1); Client.tm_reject := 0%nat;
              Client.tm_delay := 30000 |}
           ErrorReplyExamples.one_pending ClientExamples.reply_text
           ClientExamples.reply_object
           (inl {| JsonRpc.sr_result := Js.Str "late";
                   JsonRpc.sr_id := inl (Js.num 1) |}));
    vm_compute; reflexivity.
Defined.

Lemma response_with_result_and_error_settles_as_result_witness :
  let pendingRequest :=
    {| Client.promise := 0%nat; Client.method := "echo";
       Client.timestamp := 0; Client.timeout := 0%nat |} in
  Client.settled
    (Client.handleResponse ErrorReplyExamples.parse_mixed
       ErrorReplyExamples.mixed_text ErrorReplyExamples.one_pending)
  = Client.settled ErrorReplyExamples.one_pending
    ++ [(Client.promise pendingRequest,
         ClientCount.result_settlement
           (Client.methods ErrorReplyExamples.one_pending
              !! Client.method pendingRequest)
           (Js.get ErrorReplyExamples.mixed_reply "result"))]
  ∧ Client.map_get (inl (Js.num 1))
      (Client.pendingRequests
         (Client.handleResponse ErrorReplyExamples.parse_mixed
            ErrorReplyExamples.mixed_text ErrorReplyExamples.one_pending))
    = None.
Proof.
  apply (response_with_result_and_error_settles_as_result
           ErrorReplyExamples.parse_mixed
           ErrorReplyExamples.mixed_text ErrorReplyExamples.mixed_reply
           ErrorReplyExamples.mixed_parsed (inl (Js.num 1))
           {| Client.promise := 0%nat; Client.method := "echo";
              Client.timestamp := 0; Client.timeout := 0%nat |}
           ErrorReplyExamples.one_pending);
    try (vm_compute; reflexivity).
  - vm_compute. discriminate.
  - unfold ObjectPrototype.names. vm_compute. set_solver.
Defined.

(** That response resolves the one pending call of [one_pending] with its
    result. *)
Example mixed_response_resolves_with_its_result :
  Client.settled
    (Client.handleResponse ErrorReplyExamples.parse_mixed
       ErrorReplyExamples.mixed_text ErrorReplyExamples.one_pending)
  = [(0%nat, Client.Resolved (Js.Str "done"))].
Proof. vm_compute. reflexivity. Qed.

(** ** The client: what a run can and cannot change *)

Section ClientRuns.
Import JsonRpc Client ClientCount.

Variable JSON_parse : string → option Js.value.

Lemma map_delete_length (k : RequestId) (m : PendingMap) :
  (length (map_delete k m) ≤ length m)%nat.
Proof.
  induction m as [|[k' v'] m IH]; simpl; [done|]. case_decide; simpl; lia.
Qed.

Lemma map_delete_length_present (k : RequestId) (v : PendingRequest)
    (m : PendingMap) :
  NoDup m.*1 → map_get k m = Some v →
  S (length (map_delete k m)) = length m.
Proof.
  induction m as [|[k' v'] m IH]; simpl; [done|].
  intros [Hk' Hnd]%NoDup_cons. case_decide as Hk.
  - subst k'. intros _. f_equal.
    assert (Hnone : map_get k m = None) by by apply map_get_None.
    clear IH Hnd Hk'. induction m as [|[k'' v''] m IH]; simpl in *; [done|].
    case_decide; [done|]. simpl. f_equal. by apply IH.
  - intros Hget. simpl. f_equal. by apply IH.
Qed.

(** The loop of [cancelPendingRequests] touches the timers and the
    settlements only. *)
Lemma cancel_loop_frame (l : PendingMap) (c : t) :
  let c' := foldl (λ c kv,
                     reject (promise kv.2)
                       (Error [Text "Client is shutting down"])
                       (clearTimeout (timeout kv.2) c)) c l in
  sent c' = sent c ∧ nextRequestId c' = nextRequestId c
  ∧ generated c' = generated c ∧ generateId c' = generateId c
  ∧ isShuttingDown c' = isShuttingDown c ∧ methods c' = methods c.
Proof.
  revert c. induction l as [|[k pr] l IH]; intros c; simpl; [done|].
  apply (IH (reject (promise pr) (Error [Text "Client is shutting down"])
               (clearTimeout (timeout pr) c))).
Qed.

(** What one event does to the request side of the client: only a call
    that registers a request sends anything or draws an id; every other
    event can only take entries out of the pending map. *)
Lemma step_frame (ev : event) (c c' : t) :
  step JSON_parse ev c = Some c' →
  generateId c' = generateId c ∧ methods c' = methods c
  ∧ (isShuttingDown c = true → isShuttingDown c' = true)
  ∧ match registers ev c with
    | Some requestId =>
        sent_ids c' = sent_ids c ++ [requestId]
        ∧ nextRequestId c'
          = match generateId c with
            | DefaultGenerator => nextRequestId c + 1
            | InjectedGenerator _ => nextRequestId c
            end
    | None =>
        sent c' = sent c ∧ nextRequestId c' = nextRequestId c
        ∧ generated c' = generated c
        ∧ (∀ kv, kv ∈ pendingRequests c' → kv ∈ pendingRequests c)
        ∧ (length (pendingRequests c') ≤ length (pendingRequests c))%nat
    end.
Proof.
  intros Hstep.
  destruct ev as [m params options now|handle|responseString| |];
    simpl in Hstep.
  - injection Hstep as <-. unfold call, registers. simpl.
    destruct (isShuttingDown c) eqn:Hdown; [done|].
    destruct (methods c !! m) as [methodDef|]; simpl; [|done].
    destruct (paramsSchema methodDef params); simpl; [|done].
    repeat split; try done. unfold sent_ids. simpl. by rewrite fmap_app.
  - destruct (timers c !! handle) as [tm|]; [|done]. injection Hstep as <-.
    unfold timer_callback. simpl.
    destruct (map_get (tm_requestId tm) (pendingRequests c)); simpl;
      repeat split; try done.
    + intros [k' v']. by intros [_ Hin]%map_delete_elem_of.
    + apply map_delete_length.
  - injection Hstep as <-.
    destruct (handleResponse_cases JSON_parse responseString c)
      as [->|(v & sr & pr & _ & _ & _ & ->)]; simpl; repeat split; try done.
    + intros [k' v']. by intros [_ Hin]%map_delete_elem_of.
    + apply map_delete_length.
  - injection Hstep as <-. by simpl.
  - destruct (isShuttingDown c) eqn:Hdown; [|done]. injection Hstep as <-.
    unfold cancelPendingRequests. simpl.
    destruct (cancel_loop_frame (pendingRequests c) c)
      as (Hsent & Hnext & Hgen & Hid & Hshut & Hm).
    repeat split; try done; try congruence.
    + by intros kv ?%elem_of_nil.
    + lia.
Qed.

Lemma registers_shutting_down (ev : event) (c : t) :
  isShuttingDown c = true → registers ev c = None.
Proof. intros Hdown. destruct ev; simpl; try done. by rewrite Hdown. Qed.

Lemma registers_next_id (ev : event) (c : t) (requestId : RequestId) :
  registers ev c = Some requestId → requestId = next_id c.
Proof.
  destruct ev as [m params options now| | | |]; simpl; try done.
  destruct (isShuttingDown c); [done|].
  destruct (methods c !! m) as [methodDef|]; simpl; [|done].
  destruct (paramsSchema methodDef params); [|done]. by intros [= <-].
Qed.

(** X11. Once [gracefulShutdown] has raised the flag nothing lowers it, and
    from then on no request is sent and no id is drawn, whatever is called;
    responses, timers and the drain can only take requests out of the
    pending map. *)
Theorem shutdown_is_final (evs : list event) (c c' : t) :
  isShuttingDown c = true → run JSON_parse evs c = Some c' →
  isShuttingDown c' = true
  ∧ sent c' = sent c ∧ nextRequestId c' = nextRequestId c
  ∧ generated c' = generated c
  ∧ (∀ kv, kv ∈ pendingRequests c' → kv ∈ pendingRequests c)
  ∧ (getPendingRequestCount c' ≤ getPendingRequestCount c)%nat.
Proof.
  unfold getPendingRequestCount.
  revert c. induction evs as [|ev evs IH]; intros c Hdown Hrun; simpl in Hrun.
  - injection Hrun as <-. by repeat split.
  - destruct (step JSON_parse ev c) as [c1|] eqn:Hstep; [|done].
    simpl in Hrun. pose proof (step_frame _ _ _ Hstep) as (_ & _ & Hd & Hf).
    rewrite (registers_shutting_down ev c Hdown) in Hf.
    destruct Hf as (Hsent & Hnext & Hgen & Hsub & Hlen).
    destruct (IH c1 (Hd Hdown) Hrun) as (H1 & H2 & H3 & H4 & H5 & H6).
    repeat split; try congruence; [by auto|lia].
Qed.

Lemma counted_step (ev : event) (c c' : t) :
  counted c → step JSON_parse ev c = Some c' → counted c'.
Proof.
  intros (Hgen & Hpos & Hids) Hstep.
  pose proof (step_frame _ _ _ Hstep) as (Hg & _ & _ & Hf).
  unfold counted. rewrite Hg. split; [done|].
  destruct (registers ev c) as [requestId|] eqn:Hreg.
  - destruct Hf as [Hsent Hnext]. rewrite Hgen in Hnext.
    apply registers_next_id in Hreg. unfold next_id in Hreg.
    rewrite Hgen in Hreg. rewrite Hsent, Hnext, Hids, Hreg.
    split; [lia|].
    replace (nextRequestId c + 1 - 1) with ((nextRequestId c - 1) + 1) by lia.
    rewrite seqZ_app by lia. rewrite fmap_app. do 2 f_equal.
    replace (1 + (nextRequestId c - 1)) with (nextRequestId c) by lia. done.
  - destruct Hf as (Hsent & Hnext & _). unfold sent_ids in *.
    by rewrite Hsent, Hnext.
Qed.

(** X12. Without an injected factory the ids of the requests that were
    sent are 1, 2, 3, ... in the order of sending, without a gap: an id is
    drawn only by a call that sends its request, never by one that is
    rejected before, and [nextRequestId] is one more than the number of
    requests sent. *)
Theorem default_ids_count_from_one (a : args) (evs : list event) (c : t) :
  a_generateRequestId a = None →
  run JSON_parse evs (create a) = Some c →
  sent_ids c = (λ z, inl (Js.num z)) <$> seqZ 1 (nextRequestId c - 1)
  ∧ nextRequestId c = 1 + Z.of_nat (length (sent c)).
Proof.
  intros Hgen Hrun.
  assert (Hc : counted c).
  { assert (H0 : counted (create a)).
    { unfold counted. simpl. by rewrite Hgen. }
    revert Hrun H0. generalize (create a).
    induction evs as [|ev evs IH]; intros c0 Hrun H0; simpl in Hrun.
    - by injection Hrun as <-.
    - destruct (step JSON_parse ev c0) as [c1|] eqn:Hstep; [|done].
      simpl in Hrun. apply (IH c1 Hrun). by eapply counted_step. }
  destruct Hc as (_ & Hpos & Hids). split; [done|].
  apply (f_equal length) in Hids. unfold sent_ids in Hids.
  rewrite !length_fmap, length_seqZ in Hids. lia.
Qed.

(** X13. [cancelPendingRequests] rejects the promise of every pending
    request with ['Client is shutting down'], in the order in which the
    requests were registered, clears their timers and no others, and leaves
    no request pending. *)
Theorem cancelPendingRequests_rejects_all (c : t) :
  getPendingRequestCount (cancelPendingRequests c) = 0%nat
  ∧ settled (cancelPendingRequests c)
    = settled c
      ++ ((λ kv, (promise kv.2,
                  Rejected (Error [Text "Client is shutting down"])))
            <$> pendingRequests c)
  ∧ (∀ h, timers (cancelPendingRequests c) !! h
          = if decide (h ∈ (λ kv, timeout kv.2) <$> pendingRequests c)
            then None else timers c !! h)
  ∧ sent (cancelPendingRequests c) = sent c.
Proof.
  unfold cancelPendingRequests, getPendingRequestCount. simpl.
  destruct (cancel_loop (pendingRequests c) c) as (Htm & Hst & _).
  destruct (cancel_loop_frame (pendingRequests c) c) as (Hsent & _).
  repeat split; try done. intros h. rewrite Htm. apply lookup_clear_all.
Qed.

Lemma accounted_step (ev : event) (c c' : t) :
  consistent c → accounted c →
  match registers ev c with
  | Some requestId => map_get requestId (pendingRequests c) = None
  | None => True
  end →
  step JSON_parse ev c = Some c' → accounted c'.
Proof.
  unfold accounted. intros Hinv Hacc Hfresh Hstep.
  destruct ev as [m params options now|handle|responseString| |];
    simpl in Hstep.
  - injection Hstep as <-. unfold call, registers in *. simpl in *.
    destruct (isShuttingDown c); simpl; [rewrite length_app; simpl; lia|].
    destruct (methods c !! m) as [methodDef|]; simpl in *;
      [|rewrite length_app; simpl; lia].
    destruct (paramsSchema methodDef params); simpl;
      [|rewrite length_app; simpl; lia].
    rewrite (map_set_fresh _ _ _ Hfresh), length_app. simpl. lia.
  - destruct (timers c !! handle) as [tm|] eqn:Htm; [|done].
    injection Hstep as <-.
    destruct (inv_timer _ _ _ _ Hinv _ _ Htm) as (_ & pr & Hin & _).
    apply (map_get_elem_of _ _ _ (inv_keys _ _ _ _ Hinv)) in Hin.
    unfold timer_callback. simpl. rewrite Hin. simpl.
    pose proof (map_delete_length_present _ _ _ (inv_keys _ _ _ _ Hinv) Hin).
    rewrite length_app. simpl. lia.
  - injection Hstep as <-.
    destruct (handleResponse_cases JSON_parse responseString c)
      as [->|(v & sr & pr & _ & _ & Hget & ->)]; [done|]. simpl.
    pose proof (map_delete_length_present _ _ _ (inv_keys _ _ _ _ Hinv) Hget).
    rewrite length_app. simpl. lia.
  - by injection Hstep as <-.
  - destruct (isShuttingDown c); [|done]. injection Hstep as <-.
    unfold cancelPendingRequests. simpl.
    destruct (cancel_loop (pendingRequests c) c) as (_ & -> & ->).
    rewrite length_app, length_fmap. lia.
Qed.

(** X14. On a run without id collisions every call made so far is in the
    settlement log or in the pending map, and nothing else is: the number of
    settlements plus [getPendingRequestCount()] is the number of calls. *)
Theorem calls_are_settled_or_pending (a : args) (evs : list event) (c : t) :
  collision_free JSON_parse evs (create a) →
  run JSON_parse evs (create a) = Some c →
  (length (settled c) + getPendingRequestCount c = calls c)%nat.
Proof.
  intros Hfree Hrun.
  assert (H0 : consistent (create a) ∧ accounted (create a))
    by (split; [apply consistent_create|done]).
  revert Hfree Hrun H0. generalize (create a).
  induction evs as [|ev evs IH]; intros c0 Hfree Hrun [Hinv Hacc];
    simpl in *.
  - by injection Hrun as <-.
  - destruct Hfree as [Hfresh Hfree].
    destruct (step JSON_parse ev c0) as [c1|] eqn:Hstep; [|done].
    simpl in Hrun. apply (IH c1 Hfree Hrun). split.
    + by eapply consistent_step.
    + by eapply accounted_step.
Qed.

End ClientRuns.

(** The shutdown that began with one request pending: of the three events
    that follow, the two calls send nothing and the reply empties the map. *)
Lemma shutdown_is_final_witness :
  Client.isShuttingDown RunExamples.while_waiting_end = true
  ∧ Client.sent RunExamples.while_waiting_end
    = Client.sent RunExamples.shutting_down
  ∧ Client.nextRequestId RunExamples.while_waiting_end
    = Client.nextRequestId RunExamples.shutting_down
  ∧ Client.generated RunExamples.while_waiting_end
    = Client.generated RunExamples.shutting_down
  ∧ (∀ kv, kv ∈ Client.pendingRequests RunExamples.while_waiting_end →
           kv ∈ Client.pendingRequests RunExamples.shutting_down)
  ∧ (ClientCount.getPendingRequestCount RunExamples.while_waiting_end
     ≤ ClientCount.getPendingRequestCount RunExamples.shutting_down)%nat.
Proof.
  apply (shutdown_is_final ClientExamples.parse_reply
           RunExamples.while_waiting RunExamples.shutting_down
           RunExamples.while_waiting_end); vm_compute; reflexivity.
Defined.

Lemma default_ids_count_from_one_witness :
  ClientCount.sent_ids RunExamples.three_ways_end
  = (λ z, inl (Js.num z))
      <$> seqZ 1 (Client.nextRequestId RunExamples.three_ways_end - 1)
  ∧ Client.nextRequestId RunExamples.three_ways_end
    = 1 + Z.of_nat (length (Client.sent RunExamples.three_ways_end)).
Proof.
  apply (default_ids_count_from_one ClientExamples.parse_reply
           ClientExamples.defaults ClientExamples.three_ways
           RunExamples.three_ways_end); vm_compute; reflexivity.
Defined.

Lemma calls_are_settled_or_pending_witness :
  (length (Client.settled RunExamples.three_ways_end)
   + ClientCount.getPendingRequestCount RunExamples.three_ways_end
   = Client.calls RunExamples.three_ways_end)%nat.
Proof.
  apply (calls_are_settled_or_pending ClientExamples.parse_reply
           ClientExamples.defaults ClientExamples.three_ways
           RunExamples.three_ways_end).
  - vm_compute. repeat split.
  - vm_compute. reflexivity.
Defined.

(** The runs of the witnesses, spelled out: three requests were sent with
    the ids 1, 2, 3 and the fourth call drew none. *)
Example three_ways_sent_ids :
  ClientCount.sent_ids RunExamples.three_ways_end
  = [inl (Js.num 1); inl (Js.num 2); inl (Js.num 3)]
  ∧ Client.nextRequestId RunExamples.three_ways_end = 4
  ∧ Client.calls RunExamples.three_ways_end = 4%nat
  ∧ ClientCount.getPendingRequestCount RunExamples.shutting_down = 1%nat
  ∧ ClientCount.getPendingRequestCount RunExamples.while_waiting_end = 0%nat.
Proof. vm_compute. repeat split. Qed.

(** ** The dispatcher: which messages are answered, and with which id *)

Section DispatcherOutcomes.
Import Errors JsonRpc Server Replies.

Variable codes : Errors.codes.
Variable handlers : gmap string RequestHandler.
Variable notifications : option (gmap string NotificationHandler).
Variable zodMessage : Js.value → string.
Variable JSON_parse : string → option Js.value.

(** A notification that passes validation reaches [handleRpcNotification]. *)
Lemma handleMessage_notification (serverMessage : Js.value)
    (notification : JsonRpcNotification) :
  JsonRpcNotificationSchema serverMessage = Some notification →
  handleMessage codes handlers notifications zodMessage serverMessage
  = match handleRpcNotification codes notifications notification with
    | Return _ => Done None
    | Throw error => Done (handleMessage_catch codes (inr notification) error)
    end.
Proof.
  intros Hschema. unfold handleMessage.
  destruct (notification_id_free _ _ Hschema) as [-> _].
  rewrite Hschema. simpl.
  by destruct (handleRpcNotification codes notifications notification).
Qed.

(** X16. [handleMessage] throws, so that the promise it returns rejects,
    exactly for the decoded values that are neither objects nor arrays
    (['id' in serverMessage] is a [TypeError] there): every object and array
    gets a result.  For [handleRawMessage] this means that a text that is
    not JSON is answered with the parse error, and a text that is JSON for a
    number, a string, a boolean or [null] is not answered at all. *)
Theorem handleMessage_throws_on_primitives (serverMessage : Js.value)
    (message : string) :
  (handleMessage codes handlers notifications zodMessage serverMessage
   = Uncaught
   ↔ match serverMessage with
     | Js.Obj _ | Js.Arr _ => False
     | _ => True
     end)
  ∧ (handleRawMessage codes handlers notifications zodMessage JSON_parse
       message = Uncaught
     ↔ ∃ requestObject,
         JSON_parse message = Some requestObject
         ∧ match requestObject with
           | Js.Obj _ | Js.Arr _ => False
           | _ => True
           end)
  ∧ (JSON_parse message = None →
     handleRawMessage codes handlers notifications zodMessage JSON_parse
       message
     = Done (Some (ErrorResponse Js.Null (Js.num (PARSE_ERROR codes))
                     (Js.Str "invalid JSON payload structure") None))).
Proof.
  assert (Hm : ∀ v,
    handleMessage codes handlers notifications zodMessage v = Uncaught
    ↔ match v with Js.Obj _ | Js.Arr _ => False | _ => True end).
  { intros v. unfold handleMessage.
    destruct (Js.has_property "id" v) as [hasId|] eqn:Hhas.
    - assert (Hdone : ∀ o : option (JsonRpcRequest + JsonRpcNotification),
        match o with
        | None =>
            Done (Some (ErrorResponse
                          (if Js.truthy v && hasId
                              && Js.truthy (Js.get_opt v "id")
                           then Js.get v "id" else Js.Null)
                          (Js.num (INVALID_REQUEST codes))
                          (Js.Str ("invalid JSON RPC request: "
                                   +:+ zodMessage v)) None))
        | Some data =>
            match
              match data with
              | inl request =>
                  match handleRpcRequest codes handlers request with
                  | Return r => Return (Some r)
                  | Throw t => Throw t
                  end
              | inr notification =>
                  match handleRpcNotification codes notifications notification
                  with
                  | Return _ => Return None
                  | Throw t => Throw t
                  end
              end
            with
            | Return r => Done r
            | Throw error => Done (handleMessage_catch codes data error)
            end
        end ≠ Uncaught).
      { intros [[request|notification]|]; [| |done].
        - by destruct (handleRpcRequest codes handlers request).
        - by destruct (handleRpcNotification codes notifications notification). }
      split; [intros Hu; by apply Hdone in Hu|].
      by destruct v.
    - split; [|done]. intros _. by destruct v. }
  split; [apply Hm|].
  unfold handleRawMessage. destruct (JSON_parse message) as [v|].
  - split; [|done]. rewrite Hm. split; [by eauto|].
    by intros (v' & [= <-] & Hv).
  - split; [|done]. split; [done|]. by intros (v' & ? & _).
Qed.

(** X17. A notification that passes validation is answered in exactly one
    case: its handler is registered, its params parse, and the handler
    throws a [JsonRpcError] that carries a truthy [requestId] of its own;
    the reply is then an error response with that id and the code of the
    error.  In every other case (no such notification method, params that do
    not parse, a handler that returns, a handler that throws anything else)
    the result is [null]. *)
Theorem notification_answered_only_by_handler_error
    (serverMessage : Js.value) (notification : JsonRpcNotification) :
  JsonRpcNotificationSchema serverMessage = Some notification →
  ∃ reply,
    handleMessage codes handlers notifications zodMessage serverMessage
    = Done reply
    ∧ (∀ method params e,
         notifications ≫= (.!! nt_method notification) = Some method →
         nh_paramsSchema method (nt_params notification) = inl params →
         nh_handler method params = Throw (ThrowJsonRpcError e) →
         Js.truthy (requestId e) = true →
         ∃ r, reply = Some r
              ∧ reply_id r = requestId e ∧ reply_code r = Some (code e))
    ∧ (reply ≠ None →
       ∃ method params e,
         notifications ≫= (.!! nt_method notification) = Some method
         ∧ nh_paramsSchema method (nt_params notification) = inl params
         ∧ nh_handler method params = Throw (ThrowJsonRpcError e)
         ∧ Js.truthy (requestId e) = true).
Proof.
  intros Hschema. rewrite (handleMessage_notification _ _ Hschema).
  unfold handleRpcNotification.
  destruct (notifications ≫= (.!! nt_method notification)) as [method|];
    [|eexists; split; [done|]; by split].
  destruct (nh_paramsSchema method (nt_params notification)) as [params|z]
    eqn:Hp.
  2:{ exists None. split; [done|]. split; [|done].
      intros method' params' e' [= <-]. by rewrite Hp. }
  assert (Hsame : ∀ method' params',
            Some method = Some method' →
            nh_paramsSchema method' (nt_params notification) = inl params' →
            method' = method ∧ params' = params).
  { intros method' params' [= <-] Hp'. rewrite Hp in Hp'.
    by injection Hp' as <-. }
  destruct (nh_handler method params) as [[]|[e|x]] eqn:Hh.
  - exists None. split; [done|]. split; [|done].
    intros method' params' e' Hm' Hp' Hh'.
    destruct (Hsame _ _ Hm' Hp') as [-> ->]. congruence.
  - unfold handleMessage_catch, isJsonRpcErrorWithId,
      isCustomServerErrorWithId.
    destruct (Js.truthy (requestId e)) eqn:Ht.
    + eexists. split; [done|]. split.
      * intros method' params' e' Hm' Hp' Hh' _.
        destruct (Hsame _ _ Hm' Hp') as [-> ->].
        rewrite Hh in Hh'. injection Hh' as <-. by eexists.
      * intros _. by exists method, params, e.
    + rewrite andb_false_r. exists None. split; [done|]. split; [|done].
      intros method' params' e' Hm' Hp' Hh' Ht'.
      destruct (Hsame _ _ Hm' Hp') as [-> ->].
      rewrite Hh in Hh'. injection Hh' as <-. congruence.
  - exists None. split; [done|]. split; [|done].
    intros method' params' e' Hm' Hp' Hh'.
    destruct (Hsame _ _ Hm' Hp') as [-> ->]. congruence.
Qed.

(** X18. The reply to a valid request for a method that is not registered
    (and whose name is not the name of a member of [Object.prototype],
    which [this.handlers[request.method]] would find) has the id of the
    request; its code is [METHOD_NOT_FOUND] when that id is truthy, and
    [INTERNAL_SERVER_ERROR] when the id is [0] or the empty string, for
    which the test [error.requestId] of the catch clause fails. *)
Theorem unknown_method_code_needs_truthy_id (serverMessage : Js.value)
    (request : JsonRpcRequest) :
  JsonRpcRequestSchema serverMessage = Some request →
  handlers !! rq_method request = None →
  rq_method request ∉ ObjectPrototype.names →
  ∃ r,
    handleMessage codes handlers notifications zodMessage serverMessage
    = Done (Some r)
    ∧ reply_id r = id_value (rq_id request)
    ∧ reply_code r
      = Some (Js.num (if Js.truthy (id_value (rq_id request))
                      then METHOD_NOT_FOUND codes
                      else INTERNAL_SERVER_ERROR codes)).
Proof.
  intros Hschema Hm _. rewrite (handleMessage_request _ _ _ _ _ _ Hschema).
  unfold handleRpcRequest. rewrite Hm.
  unfold handleMessage_catch, isJsonRpcErrorWithId,
    isCustomServerErrorWithId. simpl.
  destruct (Js.truthy (id_value (rq_id request))); by eexists.
Qed.

(** X31. The reply to a valid request whose params the schema of the
    registered method rejects has the id of the request; its code is
    [INVALID_PARAMETERS] when that id is truthy, and
    [INTERNAL_SERVER_ERROR] when the id is [0] or the empty string. *)
Theorem invalid_params_code_needs_truthy_id (serverMessage : Js.value)
    (request : JsonRpcRequest) (method : RequestHandler)
    (zodError : string) :
  JsonRpcRequestSchema serverMessage = Some request →
  handlers !! rq_method request = Some method →
  rh_paramsSchema method (rq_params request) = inr zodError →
  ∃ r,
    handleMessage codes handlers notifications zodMessage serverMessage
    = Done (Some r)
    ∧ reply_id r = id_value (rq_id request)
    ∧ reply_code r
      = Some (Js.num (if Js.truthy (id_value (rq_id request))
                      then INVALID_PARAMETERS codes
                      else INTERNAL_SERVER_ERROR codes)).
Proof.
  intros Hschema Hm Hp. rewrite (handleMessage_request _ _ _ _ _ _ Hschema).
  unfold handleRpcRequest. rewrite Hm, Hp.
  unfold handleMessage_catch, isJsonRpcErrorWithId,
    isCustomServerErrorWithId. simpl.
  destruct (Js.truthy (id_value (rq_id request))); by eexists.
Qed.

(** X19. Every request that passes validation gets a result, and the result
    is [null] in one case only: the handler threw a falsy value that is not a
    [JsonRpcError].  A reply carries the id of the request, unless the
    handler threw a [JsonRpcError] with a truthy [requestId] of its own,
    which then is the id of the reply; and the reply is a success response
    exactly when the handler returned. *)
Theorem valid_request_outcome (serverMessage : Js.value)
    (request : JsonRpcRequest) :
  JsonRpcRequestSchema serverMessage = Some request →
  ∃ reply,
    handleMessage codes handlers notifications zodMessage serverMessage
    = Done reply
    ∧ (reply = None
       ↔ ∃ x, handleRpcRequest codes handlers request = Throw (ThrowValue x)
              ∧ Js.truthy x = false)
    ∧ (∀ r, reply = Some r →
         (reply_id r = id_value (rq_id request)
          ∨ ∃ e, handleRpcRequest codes handlers request
                 = Throw (ThrowJsonRpcError e)
                 ∧ Js.truthy (requestId e) = true
                 ∧ reply_id r = requestId e)
         ∧ (reply_code r = None
            ↔ ∃ result, handleRpcRequest codes handlers request
                        = Return (SuccessResponse (rq_id request) result))).
Proof.
  intros Hschema. rewrite (handleMessage_request _ _ _ _ _ _ Hschema).
  assert (Hret : ∀ r, handleRpcRequest codes handlers request = Return r →
                      ∃ result, r = SuccessResponse (rq_id request) result).
  { unfold handleRpcRequest. intros r.
    destruct (handlers !! rq_method request) as [method|]; [|done].
    destruct (rh_paramsSchema method (rq_params request)); [|done].
    destruct (rh_handler method v); [|done]. intros [= <-]. by eexists. }
  destruct (handleRpcRequest codes handlers request) as [r|[e|x]] eqn:Hh.
  - destruct (Hret r eq_refl) as [result ->]. eexists. split; [done|].
    split; [split; [done|by intros (? & ? & _)]|].
    intros r [= <-]. split; [by left|]. split; [by eauto|done].
  - unfold handleMessage_catch, isJsonRpcErrorWithId,
      isCustomServerErrorWithId. simpl.
    destruct (Js.truthy (requestId e)) eqn:Ht.
    + eexists. split; [done|].
      split; [split; [done|by intros (? & ? & _)]|].
      intros r [= <-]. split; [right; by exists e|].
      split; [done|by intros (? & ?)].
    + rewrite andb_false_r. eexists. split; [done|].
      split; [split; [done|by intros (? & ? & _)]|].
      intros r [= <-]. split; [by left|].
      split; [done|by intros (? & ?)].
  - unfold handleMessage_catch. simpl. destruct (Js.truthy x) eqn:Ht.
    + eexists. split; [done|].
      split; [split; [done|intros (x' & [= <-] & Hx'); congruence]|].
      intros r [= <-]. split; [by left|].
      split; [done|by intros (? & ?)].
    + eexists. split; [done|]. split; [split; [by eauto|done]|]. by intros.
Qed.

(** X20. The reply to a message that has an [id] key and fails the request
    schema echoes the [id] whenever it is truthy, of whatever type: the id
    is not checked to be a string or a number, so an id that is an object,
    an array or [true], which is what makes the request invalid, is sent
    back as the id of the reply; a falsy id gives [null]. *)
Theorem invalid_request_echoes_any_truthy_id (serverMessage : Js.value) :
  Js.has_property "id" serverMessage = Some true →
  JsonRpcRequestSchema serverMessage = None →
  handleMessage codes handlers notifications zodMessage serverMessage
  = Done (Some (ErrorResponse
                  (if Js.truthy (Js.get serverMessage "id")
                   then Js.get serverMessage "id" else Js.Null)
                  (Js.num (INVALID_REQUEST codes))
                  (Js.Str ("invalid JSON RPC request: "
                           +:+ zodMessage serverMessage))
                  None)).
Proof.
  intros Hid Hschema. unfold handleMessage. rewrite Hid, Hschema. simpl.
  destruct serverMessage; try discriminate. done.
Qed.

End DispatcherOutcomes.

(** A notification whose handler throws a [JsonRpcError] with the request
    id ['abc']: it is answered, with that id and the code of the error. *)
Lemma notification_answered_only_by_handler_error_witness :
  ∃ reply,
    Server.handleMessage Errors.JsonRpcErrorCodes ∅
      (Some MoreDispatchExamples.complaining)
      DispatchExamples.no_issue_text MoreDispatchExamples.stray_notification
    = Server.Done reply
    ∧ (∀ method params e,
         Some MoreDispatchExamples.complaining
           ≫= (.!! JsonRpc.nt_method MoreDispatchExamples.stray_parsed)
         = Some method →
         Server.nh_paramsSchema method
           (JsonRpc.nt_params MoreDispatchExamples.stray_parsed)
         = inl params →
         Server.nh_handler method params
         = Server.Throw (Server.ThrowJsonRpcError e) →
         Js.truthy (Errors.requestId e) = true →
         ∃ r, reply = Some r
              ∧ Replies.reply_id r = Errors.requestId e
              ∧ Replies.reply_code r = Some (Errors.code e))
    ∧ (reply ≠ None →
       ∃ method params e,
         Some MoreDispatchExamples.complaining
           ≫= (.!! JsonRpc.nt_method MoreDispatchExamples.stray_parsed)
         = Some method
         ∧ Server.nh_paramsSchema method
             (JsonRpc.nt_params MoreDispatchExamples.stray_parsed)
           = inl params
         ∧ Server.nh_handler method params
           = Server.Throw (Server.ThrowJsonRpcError e)
         ∧ Js.truthy (Errors.requestId e) = true).
Proof.
  apply (notification_answered_only_by_handler_error Errors.JsonRpcErrorCodes
           ∅ (Some MoreDispatchExamples.complaining)
           DispatchExamples.no_issue_text
           MoreDispatchExamples.stray_notification
           MoreDispatchExamples.stray_parsed).
  reflexivity.
Defined.

(** The two outcomes for that notification: answered with the id and the
    code of the thrown error when the handler is registered, [null] on a
    server without notification handlers. *)
Example notification_answered_and_not :
  (∃ message data,
     Server.handleMessage Errors.JsonRpcErrorCodes ∅
       (Some MoreDispatchExamples.complaining)
       DispatchExamples.no_issue_text MoreDispatchExamples.stray_notification
     = Server.Done
         (Some (Server.ErrorResponse (Js.Str "abc") (Js.num (-32004))
                  message data)))
  ∧ Server.handleMessage Errors.JsonRpcErrorCodes ∅ None
      DispatchExamples.no_issue_text MoreDispatchExamples.stray_notification
    = Server.Done None.
Proof. split; [by do 2 eexists|reflexivity]. Qed.

(** A request with the id [0] for a method that is not registered. *)
Lemma unknown_method_code_needs_truthy_id_witness :
  ∃ r,
    Server.handleMessage Errors.JsonRpcErrorCodes ∅ None
      DispatchExamples.no_issue_text MoreDispatchExamples.request_zero
    = Server.Done (Some r)
    ∧ Replies.reply_id r
      = JsonRpc.id_value
          (JsonRpc.rq_id MoreDispatchExamples.request_zero_parsed)
    ∧ Replies.reply_code r
      = Some (Js.num
                (if Js.truthy
                      (JsonRpc.id_value
                         (JsonRpc.rq_id
                            MoreDispatchExamples.request_zero_parsed))
                 then Errors.METHOD_NOT_FOUND Errors.JsonRpcErrorCodes
                 else Errors.INTERNAL_SERVER_ERROR Errors.JsonRpcErrorCodes)).
Proof.
  apply (unknown_method_code_needs_truthy_id Errors.JsonRpcErrorCodes ∅ None
           DispatchExamples.no_issue_text MoreDispatchExamples.request_zero
           MoreDispatchExamples.request_zero_parsed).
  - vm_compute. reflexivity.
  - reflexivity.
  - unfold ObjectPrototype.names. vm_compute. set_solver.
Defined.

(** An echo request with the id [0] and params without [message]. *)
Lemma invalid_params_code_needs_truthy_id_witness :
  ∃ r,
    DispatchExamples.dispatch MoreDispatchExamples.echo_zero
    = Server.Done (Some r)
    ∧ Replies.reply_id r
      = JsonRpc.id_value (JsonRpc.rq_id MoreDispatchExamples.echo_zero_parsed)
    ∧ Replies.reply_code r
      = Some (Js.num
                (if Js.truthy
                      (JsonRpc.id_value
                         (JsonRpc.rq_id MoreDispatchExamples.echo_zero_parsed))
                 then Errors.INVALID_PARAMETERS Errors.JsonRpcErrorCodes
                 else Errors.INTERNAL_SERVER_ERROR Errors.JsonRpcErrorCodes)).
Proof.
  apply (invalid_params_code_needs_truthy_id Errors.JsonRpcErrorCodes
           DispatchExamples.test_handlers None DispatchExamples.no_issue_text
           MoreDispatchExamples.echo_zero
           MoreDispatchExamples.echo_zero_parsed DispatchExamples.echo
           "message: expected string").
  - vm_compute. reflexivity.
  - reflexivity.
  - reflexivity.
Defined.

(** The codes of the replies to the two requests with the id [0], and to
    the same requests with the id [7]. *)
Example zero_id_codes :
  (∃ message data,
     Server.handleMessage Errors.JsonRpcErrorCodes ∅ None
       DispatchExamples.no_issue_text MoreDispatchExamples.request_zero
     = Server.Done (Some (Server.ErrorResponse (Js.Num (Js.num 0))
                            (Js.num (-32603)) message data)))
  ∧ (∃ message data,
       DispatchExamples.dispatch MoreDispatchExamples.echo_zero
       = Server.Done (Some (Server.ErrorResponse (Js.Num (Js.num 0))
                              (Js.num (-32603)) message data)))
  ∧ (∃ message data,
       DispatchExamples.dispatch
         (DispatchExamples.message_with_id "nothing" [] (Js.Num (Js.num 7)))
       = Server.Done (Some (Server.ErrorResponse (Js.Num (Js.num 7))
                              (Js.num (-32601)) message data)))
  ∧ (∃ message data,
       DispatchExamples.dispatch
         (DispatchExamples.message_with_id "echo" [] (Js.Num (Js.num 7)))
       = Server.Done (Some (Server.ErrorResponse (Js.Num (Js.num 7))
                              (Js.num (-32606)) message data))).
Proof. repeat split; do 2 eexists; vm_compute; reflexivity. Qed.

(** The echo request of the repository's tests. *)
Lemma valid_request_outcome_witness :
  let request :=
    {| JsonRpc.rq_method := "echo";
       JsonRpc.rq_params := Js.Obj [("message", Js.Str "hello")];
       JsonRpc.rq_id := inr "test-1" |} in
  ∃ reply,
    DispatchExamples.dispatch
      (DispatchExamples.message_with_id "echo" [("message", Js.Str "hello")]
         (Js.Str "test-1"))
    = Server.Done reply
    ∧ (reply = None
       ↔ ∃ x, Server.handleRpcRequest Errors.JsonRpcErrorCodes
                DispatchExamples.test_handlers request
              = Server.Throw (Server.ThrowValue x)
              ∧ Js.truthy x = false)
    ∧ (∀ r, reply = Some r →
         (Replies.reply_id r = JsonRpc.id_value (JsonRpc.rq_id request)
          ∨ ∃ e, Server.handleRpcRequest Errors.JsonRpcErrorCodes
                   DispatchExamples.test_handlers request
                 = Server.Throw (Server.ThrowJsonRpcError e)
                 ∧ Js.truthy (Errors.requestId e) = true
                 ∧ Replies.reply_id r = Errors.requestId e)
         ∧ (Replies.reply_code r = None
            ↔ ∃ result, Server.handleRpcRequest Errors.JsonRpcErrorCodes
                          DispatchExamples.test_handlers request
                        = Server.Return
                            (Server.SuccessResponse (JsonRpc.rq_id request)
                               result))).
Proof.
  apply (valid_request_outcome Errors.JsonRpcErrorCodes
           DispatchExamples.test_handlers None DispatchExamples.no_issue_text
           (DispatchExamples.message_with_id "echo"
              [("message", Js.Str "hello")] (Js.Str "test-1"))
           {| JsonRpc.rq_method := "echo";
              JsonRpc.rq_params := Js.Obj [("message", Js.Str "hello")];
              JsonRpc.rq_id := inr "test-1" |}).
  reflexivity.
Defined.

(** A message whose id is an object: the object comes back as the id. *)
Lemma invalid_request_echoes_any_truthy_id_witness :
  Server.handleMessage Errors.JsonRpcErrorCodes ∅ None
    DispatchExamples.no_issue_text MoreDispatchExamples.object_id
  = Server.Done
      (Some (Server.ErrorResponse
               (if Js.truthy (Js.get MoreDispatchExamples.object_id "id")
                then Js.get MoreDispatchExamples.object_id "id" else Js.Null)
               (Js.num (Errors.INVALID_REQUEST Errors.JsonRpcErrorCodes))
               (Js.Str ("invalid JSON RPC request: "
                        +:+ DispatchExamples.no_issue_text
                              MoreDispatchExamples.object_id))
               None)).
Proof.
  apply (invalid_request_echoes_any_truthy_id Errors.JsonRpcErrorCodes ∅ None
           DispatchExamples.no_issue_text MoreDispatchExamples.object_id);
    reflexivity.
Defined.

Example object_id_echoed :
  Server.handleMessage Errors.JsonRpcErrorCodes ∅ None
    DispatchExamples.no_issue_text MoreDispatchExamples.object_id
  = Server.Done
      (Some (Server.ErrorResponse (Js.Obj [("n", Js.Num (Js.num 1))])
               (Js.num (-32600)) (Js.Str "invalid JSON RPC request: ")
               None)).
Proof. vm_compute. reflexivity. Qed.

(** ** The stream transport: framing does not depend on the chunks *)

Section ChunkingFacts.
Import TargetClient TargetClientQueue.

Lemma split_lines_nonempty (s : jsstring) : split_lines s ≠ [].
Proof.
  destruct s as [|ch s]; simpl; [done|].
  destruct (ch =? 10)%N; [done|]. by destruct (split_lines s).
Qed.

Lemma removelast_cons_nonempty {A} (x : A) (l : list A) :
  l ≠ [] → removelast (x :: l) = x :: removelast l.
Proof. by destruct l. Qed.

Lemma last_cons_nonempty {A} (x : A) (l : list A) :
  l ≠ [] → last (x :: l) = last l.
Proof. by destruct l. Qed.

(** Splitting a concatenation: the complete lines of the first part, then
    the lines of what the first part left over followed by the second. *)
Lemma split_lines_app (s t : jsstring) :
  split_lines (s ++ t)
  = removelast (split_lines s)
    ++ split_lines (default [] (last (split_lines s)) ++ t).
Proof.
  induction s as [|ch s IH]; [done|]. simpl.
  destruct (ch =? 10)%N eqn:Hch.
  - rewrite IH.
    change (removelast ([] :: split_lines s))
      with (removelast (([] : jsstring) :: split_lines s)).
    rewrite (removelast_cons_nonempty _ _ (split_lines_nonempty s)).
    by rewrite (last_cons_nonempty _ _ (split_lines_nonempty s)).
  - rewrite IH. pose proof (split_lines_nonempty s) as Hne.
    destruct (split_lines s) as [|line [|line2 rest]]; [done| |].
    + simpl. by rewrite Hch.
    + done.
Qed.

(** The lines with their delimiters, followed by the rest, are the text. *)
Lemma split_lines_join (s : jsstring) :
  terminated (removelast (split_lines s))
  ++ default [] (last (split_lines s)) = s.
Proof.
  unfold terminated. induction s as [|ch s IH]; [done|]. simpl.
  pose proof (split_lines_nonempty s) as Hne.
  destruct (N.eqb_spec ch 10) as [->|Hch].
  - rewrite (removelast_cons_nonempty _ _ Hne), (last_cons_nonempty _ _ Hne).
    rewrite fmap_cons. simpl. by rewrite IH.
  - destruct (split_lines s) as [|line [|line2 rest]]; [done| |].
    + simpl in *. by rewrite IH.
    + rewrite (removelast_cons_nonempty (ch :: line)) by done.
      rewrite (removelast_cons_nonempty line) in IH by done.
      rewrite (last_cons_nonempty (ch :: line)) by done.
      rewrite (last_cons_nonempty line) in IH by done.
      rewrite <- IH, !fmap_cons. cbn [concat].
      by rewrite <- !app_assoc.
Qed.

Lemma split_lines_no_newline (s : jsstring) :
  Forall (λ line, 10%N ∉ line) (split_lines s).
Proof.
  induction s as [|ch s IH]; simpl.
  - repeat constructor. apply not_elem_of_nil.
  - destruct (N.eqb_spec ch 10) as [->|Hch].
    + constructor; [apply not_elem_of_nil|done].
    + destruct (split_lines s) as [|line rest].
      * repeat constructor. intros Heq%list_elem_of_singleton. by subst.
      * apply Forall_cons in IH as [Hline Hrest]. constructor; [|done].
        rewrite not_elem_of_cons. split; [by intros <-|done].
Qed.

Lemma processResponse_with_buffer (b message : jsstring) (c : t) :
  processResponse message (with_buffer b c)
  = with_buffer b (processResponse message c).
Proof. unfold processResponse. simpl. by destruct (messageQueue c). Qed.

Lemma handleData_loop_with_buffer (b : jsstring) (lines : list jsstring)
    (c : t) :
  foldl (λ c message,
           match trim message with
           | [] => c
           | _ :: _ => processResponse (trim message) c
           end) (with_buffer b c) lines
  = with_buffer b
      (foldl (λ c message,
                match trim message with
                | [] => c
                | _ :: _ => processResponse (trim message) c
                end) c lines).
Proof.
  revert c. induction lines as [|line lines IH]; intros c; simpl; [done|].
  destruct (trim line) as [|ch rest]; [apply IH|].
  by rewrite processResponse_with_buffer, IH.
Qed.

Lemma handleData_two_chunks (data1 data2 : jsstring) (c : t) :
  handleData data2 (handleData data1 c) = handleData (data1 ++ data2) c.
Proof.
  unfold handleData at 1 3.
  destruct (handleData_frames data1 c) as (_ & _ & Hb). rewrite Hb.
  rewrite (app_assoc (buffer c)), (split_lines_app (buffer c ++ data1) data2).
  set (lines1 := removelast (split_lines (buffer c ++ data1))).
  set (rest1 := default [] (last (split_lines (buffer c ++ data1)))).
  pose proof (split_lines_nonempty (rest1 ++ data2)) as Hne.
  assert (Hlast : last (lines1 ++ split_lines (rest1 ++ data2))
                  = last (split_lines (rest1 ++ data2))).
  { destruct (split_lines (rest1 ++ data2)) as [|l ls] using rev_ind;
      [done|]. by rewrite app_assoc, !last_snoc. }
  assert (Hinit : removelast (lines1 ++ split_lines (rest1 ++ data2))
                  = lines1 ++ removelast (split_lines (rest1 ++ data2))).
  { by apply removelast_app. }
  rewrite Hlast, Hinit, foldl_app. unfold handleData. fold lines1 rest1.
  by rewrite !handleData_loop_with_buffer.
Qed.

(** X21. The framing does not depend on how the stream is cut into chunks:
    handling two chunks one after the other leaves the transport in the same
    state, with the same deliveries in the same order, as handling their
    concatenation at once; so does any non-empty sequence of chunks. *)
Theorem handleData_chunking_independent (data : jsstring)
    (chunks : list jsstring) (c : t) :
  receive (data :: chunks) c = handleData (data ++ concat chunks) c.
Proof.
  unfold receive. revert data c.
  induction chunks as [|data' chunks IH]; intros data c; simpl.
  - by rewrite app_nil_r.
  - specialize (IH data' (handleData data c)). simpl in IH. rewrite IH.
    by rewrite handleData_two_chunks, app_assoc.
Qed.

(** X22. Nothing of the stream is lost or invented by the framing: the
    complete lines, each with its delimiter, followed by the new buffer are
    the old buffer followed by the chunk; no complete line and no buffer
    that [handleData] leaves contains a newline. *)
Theorem handleData_keeps_the_stream (data : jsstring) (c : t) :
  terminated (complete_lines data c) ++ buffer (handleData data c)
  = buffer c ++ data
  ∧ (10%N ∉ buffer (handleData data c))
  ∧ Forall (λ line, 10%N ∉ line) (complete_lines data c).
Proof.
  destruct (handleData_frames data c) as (_ & _ & ->). unfold complete_lines.
  pose proof (split_lines_no_newline (buffer c ++ data)) as Hall.
  pose proof (split_lines_nonempty (buffer c ++ data)) as Hne.
  split; [apply split_lines_join|].
  destruct (split_lines (buffer c ++ data)) as [|l ls] using rev_ind;
    [done|]. clear IHls.
  rewrite last_snoc, removelast_last. simpl.
  apply Forall_app in Hall as [Hls Hl]. split; [|done].
  by apply Forall_inv in Hl.
Qed.

End ChunkingFacts.

(** ** The stream transport: the queue of pending messages *)

Section QueueFacts.
Import TargetClient TargetClientQueue.

Lemma resolved_snoc (es : list effect) (e : effect) :
  resolved (es ++ [e])
  = resolved es ++ match e with Resolve p r => [(p, r)] | _ => [] end.
Proof. unfold resolved. rewrite omap_app. f_equal. by destruct e. Qed.

Lemma rejected_snoc (es : list effect) (e : effect) :
  rejected (es ++ [e])
  = rejected es ++ match e with Reject p r => [(p, r)] | _ => [] end.
Proof. unfold rejected. rewrite omap_app. f_equal. by destruct e. Qed.

Lemma unexpected_snoc (es : list effect) (e : effect) :
  unexpected (es ++ [e])
  = (unexpected es + if decide (e = Unexpected) then 1 else 0)%nat.
Proof.
  unfold unexpected. rewrite filter_app, length_app, filter_cons.
  by case_decide.
Qed.

Lemma processResponse_effects (response : jsstring) (c : t) :
  effects (processResponse response c)
  = effects c
    ++ Received response
       :: match messageQueue c with
          | pending :: _ =>
              [ClearTimeout (pm_timeoutId pending);
               Resolve (pm_promise pending) response]
          | [] => [Unexpected]
          end.
Proof.
  unfold processResponse. simpl.
  destruct (messageQueue c); simpl; by rewrite <- !app_assoc.
Qed.

(** The loop of [handleData]: who is resolved, and how many responses find
    nobody. *)
Lemma handleData_loop_resolves (lines : list jsstring) (c : t) :
  let c' := foldl (λ c message,
                     match trim message with
                     | [] => c
                     | _ :: _ => processResponse (trim message) c
                     end) c lines in
  resolved (effects c')
  = resolved (effects c)
    ++ zip (pm_promise <$> messageQueue c) (framed lines)
  ∧ unexpected (effects c')
    = (unexpected (effects c)
       + (length (framed lines) - length (messageQueue c)))%nat
  ∧ rejected (effects c') = rejected (effects c).
Proof.
  revert c. induction lines as [|line lines IH]; intros c; simpl.
  - change (framed []) with (@nil jsstring).
    rewrite zip_with_nil_r, app_nil_r. simpl. repeat split. lia.
  - rewrite framed_cons. destruct (trim line) as [|ch rest] eqn:Htrim.
    + apply IH.
    + destruct (IH (processResponse (ch :: rest) c)) as (Hr & Hu & Hj).
      rewrite Hr, Hu, Hj, processResponse_messageQueue,
        processResponse_effects.
      unfold resolved, rejected, unexpected.
      rewrite !omap_app, !filter_app, !length_app.
      destruct (messageQueue c) as [|pending queue]; simpl.
      * rewrite ?app_nil_r. repeat split. lia.
      * rewrite <- ?app_assoc, ?app_nil_r, drop_0. repeat split. lia.
Qed.

(** X23. Responses are matched to pending messages by position alone: the
    delivered messages of a chunk resolve the promises at the head of the
    queue, in queue order, one each; the responses that are left over when
    the queue runs out are logged as unexpected and resolve nothing; and
    [handleData] rejects no promise. *)
Theorem responses_resolve_in_queue_order (data : jsstring) (c : t) :
  resolved (effects (handleData data c))
  = resolved (effects c)
    ++ zip (pm_promise <$> messageQueue c) (framed (complete_lines data c))
  ∧ unexpected (effects (handleData data c))
    = (unexpected (effects c)
       + (length (framed (complete_lines data c))
          - getPendingMessageCount c))%nat
  ∧ rejected (effects (handleData data c)) = rejected (effects c).
Proof.
  unfold handleData, complete_lines, getPendingMessageCount.
  apply (handleData_loop_resolves
           (removelast (split_lines (buffer c ++ data)))
           (with_buffer (default [] (last (split_lines (buffer c ++ data))))
              c)).
Qed.

(** The loops of [handleDisconnection] and [disconnect]: for every pending
    message the timer is cleared and the promise rejected, in queue order,
    and nothing else changes. *)
Lemma reject_loop (reason : string) (q : list PendingMessage) (c : t) :
  foldl (λ c pending,
           perform (Reject (pm_promise pending) reason)
             (perform (ClearTimeout (pm_timeoutId pending)) c)) c q
  = {| options := options c; socket := socket c; buffer := buffer c;
       isConnected := isConnected c; isConnecting := isConnecting c;
       reconnectAttempts := reconnectAttempts c;
       messageQueue := messageQueue c; isShuttingDown := isShuttingDown c;
       effects := effects c ++ (q ≫= rejection reason) |}.
Proof.
  revert c. induction q as [|pending q IH]; intros c; simpl.
  - rewrite app_nil_r. by destruct c.
  - rewrite IH. simpl. by rewrite <- !app_assoc.
Qed.

Lemma rejection_rejected (reason : string) (q : list PendingMessage) :
  rejected (q ≫= rejection reason) = (λ pm, (pm_promise pm, reason)) <$> q.
Proof. induction q as [|pending q IH]; [done|]. simpl. f_equal. apply IH. Qed.

Lemma rejection_silent (reason : string) (q : list PendingMessage) :
  resolved (q ≫= rejection reason) = []
  ∧ reconnect_delays (q ≫= rejection reason) = []
  ∧ connect_timers (q ≫= rejection reason) = []
  ∧ ∀ event, emitted event (q ≫= rejection reason) = 0%nat.
Proof.
  induction q as [|pending q (IH1 & IH2 & IH3 & IH4)]; [done|].
  repeat split; done.
Qed.

Lemma scheduleReconnect_effects (c : t) :
  ∃ e, scheduleReconnect c
       = perform e (with_reconnectAttempts
                      (reconnectAttempts (scheduleReconnect c)) c)
       ∧ match e with
         | Emit _ | SetReconnectTimer _ => True
         | _ => False
         end.
Proof.
  unfold scheduleReconnect. case_bool_decide.
  - exists (Emit "maxReconnectAttemptsReached"). split; [by destruct c|done].
  - by exists (SetReconnectTimer
                 (reconnectDelay (options c) * (reconnectAttempts c + 1))).
Qed.

(** X24. Losing the connection, and shutting down, reject every pending
    message once, in queue order, after clearing its timer: with
    ['Connection lost'] in [handleDisconnection], which also drops the
    partial line in the buffer, and with ['Client is shutting down'] in
    [disconnect], which keeps the buffer and raises the flag.  Both leave
    the queue empty and resolve nothing. *)
Theorem pending_messages_rejected_in_order (c : t) :
  (rejected (effects (handleDisconnection c))
   = rejected (effects c)
     ++ ((λ pm, (pm_promise pm, "Connection lost")) <$> messageQueue c)
   ∧ resolved (effects (handleDisconnection c)) = resolved (effects c)
   ∧ getPendingMessageCount (handleDisconnection c) = 0%nat
   ∧ buffer (handleDisconnection c) = []
   ∧ isTargetConnected (handleDisconnection c) = false
   ∧ ∃ scheduling,
       effects (handleDisconnection c)
       = effects c ++ (messageQueue c ≫= rejection "Connection lost")
         ++ Emit "disconnected" :: scheduling)
  ∧ (effects (disconnect c)
     = effects c ++ (messageQueue c ≫= rejection "Client is shutting down")
     ∧ rejected (effects (disconnect c))
       = rejected (effects c)
         ++ ((λ pm, (pm_promise pm, "Client is shutting down"))
               <$> messageQueue c)
     ∧ getPendingMessageCount (disconnect c) = 0%nat
     ∧ buffer (disconnect c) = buffer c
     ∧ isShuttingDown (disconnect c) = true).
Proof.
  split.
  - unfold handleDisconnection. rewrite reject_loop. simpl.
    remember (perform (Emit "disconnected") _) as c1 eqn:Hc1.
    assert (H1 : rejected (effects c1)
                 = rejected (effects c)
                   ++ ((λ pm, (pm_promise pm, "Connection lost"))
                         <$> messageQueue c)
                 ∧ resolved (effects c1) = resolved (effects c)
                 ∧ messageQueue c1 = [] ∧ buffer c1 = []
                 ∧ isConnected c1 = false).
    { rewrite Hc1. simpl. rewrite rejected_snoc, resolved_snoc. simpl.
      unfold rejected, resolved. rewrite !omap_app, !app_nil_r.
      fold (rejected (messageQueue c ≫= rejection "Connection lost")).
      fold (resolved (messageQueue c ≫= rejection "Connection lost")).
      rewrite rejection_rejected.
      destruct (rejection_silent "Connection lost" (messageQueue c))
        as (-> & _). by rewrite app_nil_r. }
    assert (He1 : effects c1
                  = effects c
                    ++ (messageQueue c ≫= rejection "Connection lost")
                    ++ [Emit "disconnected"]).
    { rewrite Hc1. simpl. by rewrite <- app_assoc. }
    destruct H1 as (Hj & Hr & Hq & Hb & Hc). clear Hc1.
    unfold getPendingMessageCount, isTargetConnected.
    destruct (negb (isShuttingDown c)).
    2:{ rewrite Hq. repeat split; try done. exists []. by rewrite He1. }
    destruct (scheduleReconnect_effects c1) as (e & -> & He). simpl.
    rewrite rejected_snoc, resolved_snoc, Hj, Hr, Hq, Hb, Hc.
    assert (Hex : ∃ scheduling,
              effects c1 ++ [e]
              = effects c ++ (messageQueue c ≫= rejection "Connection lost")
                ++ Emit "disconnected" :: scheduling).
    { exists [e]. rewrite He1. by rewrite <- !app_assoc. }
    destruct e; try done; simpl; rewrite !app_nil_r; by repeat split.
  - unfold disconnect. rewrite reject_loop. simpl.
    unfold rejected. rewrite omap_app.
    fold (rejected (messageQueue c ≫= rejection "Client is shutting down")).
    by rewrite rejection_rejected.
Qed.

(** One incident on a transport that is shutting down. *)
Lemma happen_shutting_down (c : t) (i : incident) :
  isShuttingDown c = true →
  isShuttingDown (happen c i) = true
  ∧ reconnectAttempts (happen c i) = reconnectAttempts c
  ∧ reconnect_delays (effects (happen c i)) = reconnect_delays (effects c)
  ∧ connect_timers (effects (happen c i)) = connect_timers (effects c)
  ∧ emitted "maxReconnectAttemptsReached" (effects (happen c i))
    = emitted "maxReconnectAttemptsReached" (effects c).
Proof.
  intros Hs. destruct i as [|listened|]; simpl.
  - unfold handleDisconnection. rewrite reject_loop. simpl. rewrite Hs. simpl.
    destruct (rejection_silent "Connection lost" (messageQueue c))
      as (_ & Hd & Hc & He).
    unfold reconnect_delays, connect_timers, emitted in *.
    rewrite !omap_app, !filter_app, !length_app, Hd, Hc, He. simpl.
    rewrite !app_nil_r. repeat split; (done || lia).
  - unfold handleConnectionError. destruct listened; simpl; rewrite ?Hs; simpl;
      unfold reconnect_delays, connect_timers, emitted;
      rewrite !omap_app, !filter_app, !length_app; simpl;
      rewrite !app_nil_r; repeat split; (done || lia).
  - unfold reconnect_timer. by rewrite Hs.
Qed.

(** X25. A transport that is shutting down never reconnects: whatever the
    order in which the socket closes, connecting fails and reconnect timers
    that were set before fire, no reconnect timer is set, [connect()] is not
    run, the attempt counter does not move, the terminal signal is not
    emitted, and the flag stays raised. *)
Theorem no_reconnect_while_shutting_down (c : t) (incidents : list incident) :
  isShuttingDown c = true →
  isShuttingDown (happens incidents c) = true
  ∧ reconnectAttempts (happens incidents c) = reconnectAttempts c
  ∧ reconnect_delays (effects (happens incidents c))
    = reconnect_delays (effects c)
  ∧ connect_timers (effects (happens incidents c))
    = connect_timers (effects c)
  ∧ emitted "maxReconnectAttemptsReached" (effects (happens incidents c))
    = emitted "maxReconnectAttemptsReached" (effects c).
Proof.
  unfold happens. revert c.
  induction incidents as [|i incidents IH]; intros c Hs; simpl; [done|].
  destruct (happen_shutting_down c i Hs) as (Hs' & Ha & Hd & Hc & He).
  destruct (IH (happen c i) Hs') as (-> & -> & -> & -> & ->).
  by rewrite Ha, Hd, Hc, He.
Qed.

(** X26. A message that times out leaves the queue, and its promise is
    rejected with ['Message timeout']; the message itself was written to the
    socket, so when the target answers it after all, the response resolves
    the promise of the message that was queued next. *)
Theorem timeout_shifts_the_queue (c : t) (pending next : PendingMessage)
    (rest : list PendingMessage) :
  messageQueue c = pending :: next :: rest →
  let c' := message_timeout (pm_timeoutId pending) (pm_promise pending) c in
  messageQueue c' = next :: rest
  ∧ rejected (effects c')
    = rejected (effects c) ++ [(pm_promise pending, "Message timeout")]
  ∧ ∀ response,
      resolved (effects (processResponse response c'))
      = resolved (effects c) ++ [(pm_promise next, response)]
      ∧ messageQueue (processResponse response c') = rest.
Proof.
  intros Hq. cbn zeta. unfold message_timeout. simpl. rewrite Hq. simpl.
  rewrite decide_True by done. split; [done|].
  split; [by rewrite rejected_snoc|].
  intros response. rewrite processResponse_effects, processResponse_messageQueue.
  simpl. split; [|done].
  unfold resolved. rewrite !omap_app. simpl. by rewrite app_nil_r.
Qed.

End QueueFacts.

(** After [disconnect()] on a transport with two messages in flight: the
    socket closes, an old reconnect timer fires, connecting fails. *)
Lemma no_reconnect_while_shutting_down_witness :
  TargetClient.isShuttingDown
    (TargetClient.happens TransportExamples.aftermath
       TransportExamples.shut_down) = true
  ∧ TargetClient.reconnectAttempts
      (TargetClient.happens TransportExamples.aftermath
         TransportExamples.shut_down)
    = TargetClient.reconnectAttempts TransportExamples.shut_down
  ∧ TargetClient.reconnect_delays
      (TargetClient.effects
         (TargetClient.happens TransportExamples.aftermath
            TransportExamples.shut_down))
    = TargetClient.reconnect_delays
        (TargetClient.effects TransportExamples.shut_down)
  ∧ TargetClientQueue.connect_timers
      (TargetClient.effects
         (TargetClient.happens TransportExamples.aftermath
            TransportExamples.shut_down))
    = TargetClientQueue.connect_timers
        (TargetClient.effects TransportExamples.shut_down)
  ∧ TargetClient.emitted "maxReconnectAttemptsReached"
      (TargetClient.effects
         (TargetClient.happens TransportExamples.aftermath
            TransportExamples.shut_down))
    = TargetClient.emitted "maxReconnectAttemptsReached"
        (TargetClient.effects TransportExamples.shut_down).
Proof.
  apply (no_reconnect_while_shutting_down TransportExamples.shut_down
           TransportExamples.aftermath).
  reflexivity.
Defined.

(** The first of two messages in flight times out. *)
Lemma timeout_shifts_the_queue_witness :
  let c' :=
    TargetClientQueue.message_timeout
      (TargetClient.pm_timeoutId TransportExamples.first)
      (TargetClient.pm_promise TransportExamples.first)
      TransportExamples.two_queued in
  TargetClient.messageQueue c' = TransportExamples.second :: []
  ∧ TargetClientQueue.rejected (TargetClient.effects c')
    = TargetClientQueue.rejected
        (TargetClient.effects TransportExamples.two_queued)
      ++ [(TargetClient.pm_promise TransportExamples.first,
           "Message timeout")]
  ∧ ∀ response,
      TargetClientQueue.resolved
        (TargetClient.effects (TargetClient.processResponse response c'))
      = TargetClientQueue.resolved
          (TargetClient.effects TransportExamples.two_queued)
        ++ [(TargetClient.pm_promise TransportExamples.second, response)]
      ∧ TargetClient.messageQueue (TargetClient.processResponse response c')
        = [].
Proof.
  apply (timeout_shifts_the_queue TransportExamples.two_queued
           TransportExamples.first TransportExamples.second []).
  reflexivity.
Defined.

(** ** The message router *)

Section RouterFacts.
Import TargetClient.

Lemma matches_true (rs : list MessageRouter.RoutingRule) (message : jsstring) :
  MessageRouter.matches rs message = true
  ↔ ∃ rule, rule ∈ rs ∧ rule message = Some true.
Proof.
  induction rs as [|rule rs IH]; simpl.
  - split; [done|]. by intros (? & ?%elem_of_nil & _).
  - destruct (rule message) as [[]|] eqn:Hrule.
    + split; [|done]. intros _. exists rule. split; [by left|done].
    + rewrite IH. split.
      * intros (rule' & Hin & Hm). exists rule'. split; [by right|done].
      * intros (rule' & [->|Hin]%elem_of_cons & Hm); [congruence|by eauto].
    + rewrite IH. split.
      * intros (rule' & Hin & Hm). exists rule'. split; [by right|done].
      * intros (rule' & [->|Hin]%elem_of_cons & Hm); [congruence|by eauto].
Qed.

Lemma matches_app (rs1 rs2 : list MessageRouter.RoutingRule)
    (message : jsstring) :
  MessageRouter.matches (rs1 ++ rs2) message
  = MessageRouter.matches rs1 message || MessageRouter.matches rs2 message.
Proof.
  induction rs1 as [|rule rs1 IH]; simpl; [done|].
  by destruct (rule message) as [[]|].
Qed.

(** X27. [routeMessage] forwards a message exactly when the default action
    is ['forward'] and no rule answers [true] for it.  A rule that throws
    counts as a rule that does not match, and the order of the rules does not
    matter for the decision; a router made without options forwards
    everything. *)
Theorem routeMessage_forwards_iff (message : jsstring)
    (r : MessageRouter.t) :
  (MessageRouter.routeMessage message r = true
   ↔ MessageRouter.defaultAction r = MessageRouter.forward
     ∧ ∀ rule, rule ∈ MessageRouter.rules r → rule message ≠ Some true)
  ∧ (∀ r', MessageRouter.rules r ≡ₚ MessageRouter.rules r' →
           MessageRouter.defaultAction r = MessageRouter.defaultAction r' →
           MessageRouter.routeMessage message r
           = MessageRouter.routeMessage message r')
  ∧ MessageRouter.routeMessage message (MessageRouter.create None None)
    = true.
Proof.
  assert (Hiff : ∀ r,
    MessageRouter.routeMessage message r = true
    ↔ MessageRouter.defaultAction r = MessageRouter.forward
      ∧ ∀ rule, rule ∈ MessageRouter.rules r → rule message ≠ Some true).
  { intros r0. unfold MessageRouter.routeMessage.
    destruct (MessageRouter.matches (MessageRouter.rules r0) message)
      eqn:Hm.
    - apply matches_true in Hm as (rule & Hin & Hrule). split; [done|].
      intros [_ Hall]. by destruct (Hall rule Hin).
    - assert (Hnone : ∀ rule, rule ∈ MessageRouter.rules r0 →
                              rule message ≠ Some true).
      { intros rule Hin Hrule.
        assert (MessageRouter.matches (MessageRouter.rules r0) message = true)
          by (apply matches_true; eauto). congruence. }
      destruct (MessageRouter.defaultAction r0); split; try done.
      by intros [? _]. }
  split; [apply Hiff|]. split; [|done].
  intros r' Hperm Hdef.
  destruct (MessageRouter.routeMessage message r) eqn:Hr.
  - symmetry. apply Hiff. apply Hiff in Hr as [Hd Hall].
    split; [congruence|]. intros rule Hin. apply Hall. by rewrite Hperm.
  - destruct (MessageRouter.routeMessage message r') eqn:Hr'; [|done].
    apply Hiff in Hr' as [Hd Hall].
    assert (MessageRouter.routeMessage message r = true); [|congruence].
    apply Hiff. split; [congruence|]. intros rule Hin. apply Hall.
    by rewrite <- Hperm.
Qed.

(** X28. What the mutators of the router do to the decision: a rule that is
    added can only turn a forward into an internal handling, and does so
    exactly for the messages it answers [true] on; [matchNone()] changes
    nothing and [matchAll()] makes every message internal; after
    [clearRules()] the default action alone decides and [getRules()] is
    empty; with the default action ['internal'] nothing is forwarded,
    whatever the rules. *)
Theorem router_mutators (message : jsstring) (rule : MessageRouter.RoutingRule)
    (r : MessageRouter.t) :
  MessageRouter.routeMessage message (MessageRouter.addRule rule r)
  = MessageRouter.routeMessage message r
    && negb (bool_decide (rule message = Some true))
  ∧ MessageRouter.getRules (MessageRouter.addRule rule r)
    = MessageRouter.getRules r ++ [rule]
  ∧ MessageRouter.routeMessage message
      (MessageRouter.addRule MessageRouter.matchNone r)
    = MessageRouter.routeMessage message r
  ∧ MessageRouter.routeMessage message
      (MessageRouter.addRule MessageRouter.matchAll r) = false
  ∧ MessageRouter.getRules (MessageRouter.clearRules r) = []
  ∧ MessageRouter.routeMessage message (MessageRouter.clearRules r)
    = match MessageRouter.defaultAction r with
      | MessageRouter.forward => true
      | MessageRouter.internal => false
      end
  ∧ MessageRouter.routeMessage message
      (MessageRouter.setDefaultAction MessageRouter.internal r) = false.
Proof.
  assert (Hadd : ∀ rule',
    MessageRouter.routeMessage message (MessageRouter.addRule rule' r)
    = MessageRouter.routeMessage message r
      && negb (bool_decide (rule' message = Some true))).
  { intros rule'. unfold MessageRouter.routeMessage, MessageRouter.addRule.
    simpl. rewrite matches_app. simpl.
    destruct (MessageRouter.matches (MessageRouter.rules r) message); simpl;
      [done|].
    destruct (rule' message) as [[]|]; simpl;
      by destruct (MessageRouter.defaultAction r). }
  split; [apply Hadd|]. split; [done|].
  split; [rewrite Hadd; simpl; apply andb_true_r|].
  split; [rewrite Hadd; simpl; apply andb_false_r|].
  split; [done|].
  split; [done|].
  - unfold MessageRouter.routeMessage. simpl.
    by destruct (MessageRouter.matches (MessageRouter.rules r) message).
Qed.

Lemma or_true (rs : list MessageRouter.RoutingRule) (message : jsstring) :
  MessageRouter.or rs message = Some true →
  MessageRouter.matches rs message = true.
Proof.
  induction rs as [|rule rs IH]; simpl; [done|].
  by destruct (rule message) as [[]|].
Qed.

(** X29. [RoutingRules.or(...rules)] as one rule of the router against the
    same rules given one by one.  Whenever the combined rule makes the
    router handle a message internally, so do the separate rules; and when
    none of the rules throws on the message, the two routers decide alike.
    (They differ when a rule throws before a later rule matches: [some]
    stops at the exception, the router's loop goes on.) *)
Theorem or_rule_against_separate_rules
    (rs : list MessageRouter.RoutingRule) (message : jsstring)
    (a : MessageRouter.action) :
  let combined :=
    {| MessageRouter.rules := [MessageRouter.or rs];
       MessageRouter.defaultAction := a |} in
  let separate :=
    {| MessageRouter.rules := rs; MessageRouter.defaultAction := a |} in
  (MessageRouter.routeMessage message combined = false →
   MessageRouter.routeMessage message separate = false)
  ∧ ((∀ rule, rule ∈ rs → is_Some (rule message)) →
     MessageRouter.routeMessage message combined
     = MessageRouter.routeMessage message separate).
Proof.
  cbn zeta. unfold MessageRouter.routeMessage. simpl. split.
  - destruct (MessageRouter.or rs message) as [[]|] eqn:Hor.
    + by rewrite (or_true _ _ Hor).
    + by destruct (MessageRouter.matches rs message).
    + by destruct (MessageRouter.matches rs message).
  - intros Hall.
    assert (Heq : MessageRouter.or rs message
                  = Some (MessageRouter.matches rs message)).
    { induction rs as [|rule rs IH]; simpl; [done|].
      destruct (Hall rule) as [b Hb]; [by left|]. rewrite Hb.
      destruct b; [done|]. apply IH. intros rule' Hin. apply Hall. by right. }
    rewrite Heq. by destruct (MessageRouter.matches rs message).
Qed.

(** X30. The combinators obey De Morgan's laws exactly, exceptions and
    short-circuit included: [not(and(...rules))] answers, or throws, as
    [or] does on the negated rules, [not(or(...rules))] as [and] does on
    the negated rules, and a rule negated twice is the rule. *)
Theorem routing_rules_de_morgan (rs : list MessageRouter.RoutingRule)
    (rule : MessageRouter.RoutingRule) (message : jsstring) :
  MessageRouter.not (MessageRouter.and rs) message
  = MessageRouter.or (MessageRouter.not <$> rs) message
  ∧ MessageRouter.not (MessageRouter.or rs) message
    = MessageRouter.and (MessageRouter.not <$> rs) message
  ∧ MessageRouter.not (MessageRouter.not rule) message = rule message.
Proof.
  unfold MessageRouter.not. split; [|split].
  - induction rs as [|rule' rs IH]; simpl; [done|].
    by destruct (rule' message) as [[]|].
  - induction rs as [|rule' rs IH]; simpl; [done|].
    by destruct (rule' message) as [[]|].
  - by destruct (rule message) as [[]|].
Qed.

End RouterFacts.

(** The two routers of X29 on a rule that throws followed by [matchAll()]:
    the combined rule throws inside the router's loop and the message is
    forwarded; given one by one, the second rule matches. *)
Example or_rule_differs_when_a_rule_throws :
  let rs := [(λ _, None) : MessageRouter.RoutingRule; MessageRouter.matchAll] in
  MessageRouter.routeMessage (TargetClient.js "ping")
    {| MessageRouter.rules := [MessageRouter.or rs];
       MessageRouter.defaultAction := MessageRouter.forward |} = true
  ∧ MessageRouter.routeMessage (TargetClient.js "ping")
      {| MessageRouter.rules := rs;
         MessageRouter.defaultAction := MessageRouter.forward |} = false.
Proof. by split. Qed.
